(** * Verification of the image-signature verification command

    A shallow embedding of [VerifyCommand.DoVerify] and of its helpers
    ([loadCertFromFileOrURL], [loadCertFromPEM], [loadCertChainFromFileOrURL],
    [keylessVerification]) from the [cosign] package of the repository,
    and of [RunIndexList] from the [cmd] package, followed by the
    properties of the trust-decision pipeline that the specification
    states about them and by further properties of the code.

    The command is glue around imported packages (registry access, Rekor,
    Fulcio, PIV and PKCS#11 tokens, PEM parsing).  Every function of an
    imported package is a field of a [World]; a call is recorded in a trace
    together with the state of the receiver [*c] at that moment, and the
    answer of the world may depend on everything that happened before.  The
    code of the repository itself (the order of the steps, the early returns,
    the defaults, the error wrapping, the deferred closes, the certificate
    pools) is embedded as it is written.  The [context.Context] argument
    is only handed on to the imported functions and is left out. *)

From Stdlib Require Import String List ZArith Bool Lia.
Import ListNotations.
Open Scope string_scope.
Open Scope list_scope.

(* ================================================================== *)
(** * Data *)

(** Go's [[]byte]. *)
Definition bytes := list Byte.byte.

(** [crypto.Hash] is an unsigned integer; [crypto.SHA256] is the fifth
    constant of its [iota] block. *)
Definition crypto_Hash := Z.
Definition crypto_SHA256 : crypto_Hash := 5%Z.

(** Values of types declared by imported packages are never inspected by
    this code; each is represented by a token. *)
Definition token := string.
Definition options_RegistryOptions := token.
Definition options_CertVerifyOptions := token.
Definition cosign_Identity := token.
Definition remote_Option := token.
Definition name_Option := token.
Definition name_Reference := token.
Definition rekor_Client := token.
Definition TrustedKeys := token.
Definition pivkey_Key := token.
Definition annotations := list (string * string).

(** [sigs.AnnotationsMap]. *)
Record AnnotationsMap := mkAnnotationsMap { am_Annotations : annotations }.

(** [*x509.Certificate], identified by its DER encoding. *)
Record Certificate := mkCertificate { Raw : bytes }.

Definition Certificate_eq_dec (a b : Certificate) : {a = b} + {a <> b}.
Proof.
  decide equality. apply (list_eq_dec Byte.byte_eq_dec).
Defined.

(** [signature.Verifier] is an interface.  The only thing the command asks
    of a verifier is whether its dynamic type is [*pkcs11key.Key]. *)
Inductive Verifier :=
| pkcs11key_Key (handle : token)
| other_Verifier (handle : token).

Inductive ClaimVerifier := SimpleClaimVerifier.

(** Go errors: [flag.ErrHelp], an error with a message ([errors.New],
    [fmt.Errorf] without a verb, or whatever an imported package returns),
    [fmt.Errorf("<prefix>%w", cause)] and [cosignError.WrapError]. *)
Inductive error :=
| flag_ErrHelp
| errors_New (msg : string)
| fmt_Errorf (prefix : string) (cause : error)
| cosignError_WrapError (cause : error).

Inductive result (A : Type) :=
| Ok (a : A)
| Err (e : error).
Arguments Ok {A} a.
Arguments Err {A} e.

(** ** The command *)

Record VerifyCommand := mkVerifyCommand {
  RegistryOptions : options_RegistryOptions;
  CertVerifyOptions : options_CertVerifyOptions;
  CheckClaims : bool;
  KeyRef : string;
  CertRef : string;
  CertGithubWorkflowTrigger : string;
  CertGithubWorkflowSha : string;
  CertGithubWorkflowName : string;
  CertGithubWorkflowRepository : string;
  CertGithubWorkflowRef : string;
  CertChain : string;
  CertOidcProvider : string;
  IgnoreSCT : bool;
  SCTRef : string;
  Sk : bool;
  Slot : string;
  Output : string;
  RekorURL : string;
  Attachment : string;
  Annotations : AnnotationsMap;
  SignatureRef : string;
  PayloadRef : string;
  HashAlgorithm : crypto_Hash;
  LocalImage : bool;
  NameOptions : list name_Option;
  Offline : bool;
  TSACertChainPath : string;
  IgnoreTlog : bool
}.

(** ** Certificate pools

    [x509.NewCertPool] and [CertPool.AddCert]: a pool keeps its
    certificates in the order they were added and ignores a certificate it
    already holds. *)
Definition CertPool := list Certificate.

Definition x509_NewCertPool : CertPool := [].

Definition AddCert (cert : Certificate) (s : CertPool) : CertPool :=
  if in_dec Certificate_eq_dec cert s then s else s ++ [cert].

(** ** [cosign.CheckOpts]

    A [nil] pointer, interface or pool is [None]; a [nil] slice is [[]]. *)
Record CheckOpts := mkCheckOpts {
  co_Annotations : annotations;
  co_RegistryClientOpts : list remote_Option;
  co_CertGithubWorkflowTrigger : string;
  co_CertGithubWorkflowSha : string;
  co_CertGithubWorkflowName : string;
  co_CertGithubWorkflowRepository : string;
  co_CertGithubWorkflowRef : string;
  co_IgnoreSCT : bool;
  co_SignatureRef : string;
  co_PayloadRef : string;
  co_Identities : list cosign_Identity;
  co_Offline : bool;
  co_IgnoreTlog : bool;
  co_ClaimVerifier : option ClaimVerifier;
  co_RekorClient : option rekor_Client;
  co_RekorPubKeys : option TrustedKeys;
  co_RootCerts : option CertPool;
  co_IntermediateCerts : option CertPool;
  co_CTLogPubKeys : option TrustedKeys;
  co_SigVerifier : option Verifier;
  co_SCT : option bytes
}.

(** Assignments to one field of [co], and the one assignment to a field
    of [c]. *)
Definition set_ClaimVerifier (v : option ClaimVerifier) (co : CheckOpts) : CheckOpts :=
  {| co_Annotations := co_Annotations co;
     co_RegistryClientOpts := co_RegistryClientOpts co;
     co_CertGithubWorkflowTrigger := co_CertGithubWorkflowTrigger co;
     co_CertGithubWorkflowSha := co_CertGithubWorkflowSha co;
     co_CertGithubWorkflowName := co_CertGithubWorkflowName co;
     co_CertGithubWorkflowRepository := co_CertGithubWorkflowRepository co;
     co_CertGithubWorkflowRef := co_CertGithubWorkflowRef co;
     co_IgnoreSCT := co_IgnoreSCT co;
     co_SignatureRef := co_SignatureRef co;
     co_PayloadRef := co_PayloadRef co;
     co_Identities := co_Identities co;
     co_Offline := co_Offline co;
     co_IgnoreTlog := co_IgnoreTlog co;
     co_ClaimVerifier := v;
     co_RekorClient := co_RekorClient co;
     co_RekorPubKeys := co_RekorPubKeys co;
     co_RootCerts := co_RootCerts co;
     co_IntermediateCerts := co_IntermediateCerts co;
     co_CTLogPubKeys := co_CTLogPubKeys co;
     co_SigVerifier := co_SigVerifier co;
     co_SCT := co_SCT co |}.

Definition set_RekorClient (v : option rekor_Client) (co : CheckOpts) : CheckOpts :=
  {| co_Annotations := co_Annotations co;
     co_RegistryClientOpts := co_RegistryClientOpts co;
     co_CertGithubWorkflowTrigger := co_CertGithubWorkflowTrigger co;
     co_CertGithubWorkflowSha := co_CertGithubWorkflowSha co;
     co_CertGithubWorkflowName := co_CertGithubWorkflowName co;
     co_CertGithubWorkflowRepository := co_CertGithubWorkflowRepository co;
     co_CertGithubWorkflowRef := co_CertGithubWorkflowRef co;
     co_IgnoreSCT := co_IgnoreSCT co;
     co_SignatureRef := co_SignatureRef co;
     co_PayloadRef := co_PayloadRef co;
     co_Identities := co_Identities co;
     co_Offline := co_Offline co;
     co_IgnoreTlog := co_IgnoreTlog co;
     co_ClaimVerifier := co_ClaimVerifier co;
     co_RekorClient := v;
     co_RekorPubKeys := co_RekorPubKeys co;
     co_RootCerts := co_RootCerts co;
     co_IntermediateCerts := co_IntermediateCerts co;
     co_CTLogPubKeys := co_CTLogPubKeys co;
     co_SigVerifier := co_SigVerifier co;
     co_SCT := co_SCT co |}.

Definition set_RekorPubKeys (v : option TrustedKeys) (co : CheckOpts) : CheckOpts :=
  {| co_Annotations := co_Annotations co;
     co_RegistryClientOpts := co_RegistryClientOpts co;
     co_CertGithubWorkflowTrigger := co_CertGithubWorkflowTrigger co;
     co_CertGithubWorkflowSha := co_CertGithubWorkflowSha co;
     co_CertGithubWorkflowName := co_CertGithubWorkflowName co;
     co_CertGithubWorkflowRepository := co_CertGithubWorkflowRepository co;
     co_CertGithubWorkflowRef := co_CertGithubWorkflowRef co;
     co_IgnoreSCT := co_IgnoreSCT co;
     co_SignatureRef := co_SignatureRef co;
     co_PayloadRef := co_PayloadRef co;
     co_Identities := co_Identities co;
     co_Offline := co_Offline co;
     co_IgnoreTlog := co_IgnoreTlog co;
     co_ClaimVerifier := co_ClaimVerifier co;
     co_RekorClient := co_RekorClient co;
     co_RekorPubKeys := v;
     co_RootCerts := co_RootCerts co;
     co_IntermediateCerts := co_IntermediateCerts co;
     co_CTLogPubKeys := co_CTLogPubKeys co;
     co_SigVerifier := co_SigVerifier co;
     co_SCT := co_SCT co |}.

Definition set_RootCerts (v : option CertPool) (co : CheckOpts) : CheckOpts :=
  {| co_Annotations := co_Annotations co;
     co_RegistryClientOpts := co_RegistryClientOpts co;
     co_CertGithubWorkflowTrigger := co_CertGithubWorkflowTrigger co;
     co_CertGithubWorkflowSha := co_CertGithubWorkflowSha co;
     co_CertGithubWorkflowName := co_CertGithubWorkflowName co;
     co_CertGithubWorkflowRepository := co_CertGithubWorkflowRepository co;
     co_CertGithubWorkflowRef := co_CertGithubWorkflowRef co;
     co_IgnoreSCT := co_IgnoreSCT co;
     co_SignatureRef := co_SignatureRef co;
     co_PayloadRef := co_PayloadRef co;
     co_Identities := co_Identities co;
     co_Offline := co_Offline co;
     co_IgnoreTlog := co_IgnoreTlog co;
     co_ClaimVerifier := co_ClaimVerifier co;
     co_RekorClient := co_RekorClient co;
     co_RekorPubKeys := co_RekorPubKeys co;
     co_RootCerts := v;
     co_IntermediateCerts := co_IntermediateCerts co;
     co_CTLogPubKeys := co_CTLogPubKeys co;
     co_SigVerifier := co_SigVerifier co;
     co_SCT := co_SCT co |}.

Definition set_IntermediateCerts (v : option CertPool) (co : CheckOpts) : CheckOpts :=
  {| co_Annotations := co_Annotations co;
     co_RegistryClientOpts := co_RegistryClientOpts co;
     co_CertGithubWorkflowTrigger := co_CertGithubWorkflowTrigger co;
     co_CertGithubWorkflowSha := co_CertGithubWorkflowSha co;
     co_CertGithubWorkflowName := co_CertGithubWorkflowName co;
     co_CertGithubWorkflowRepository := co_CertGithubWorkflowRepository co;
     co_CertGithubWorkflowRef := co_CertGithubWorkflowRef co;
     co_IgnoreSCT := co_IgnoreSCT co;
     co_SignatureRef := co_SignatureRef co;
     co_PayloadRef := co_PayloadRef co;
     co_Identities := co_Identities co;
     co_Offline := co_Offline co;
     co_IgnoreTlog := co_IgnoreTlog co;
     co_ClaimVerifier := co_ClaimVerifier co;
     co_RekorClient := co_RekorClient co;
     co_RekorPubKeys := co_RekorPubKeys co;
     co_RootCerts := co_RootCerts co;
     co_IntermediateCerts := v;
     co_CTLogPubKeys := co_CTLogPubKeys co;
     co_SigVerifier := co_SigVerifier co;
     co_SCT := co_SCT co |}.

Definition set_CTLogPubKeys (v : option TrustedKeys) (co : CheckOpts) : CheckOpts :=
  {| co_Annotations := co_Annotations co;
     co_RegistryClientOpts := co_RegistryClientOpts co;
     co_CertGithubWorkflowTrigger := co_CertGithubWorkflowTrigger co;
     co_CertGithubWorkflowSha := co_CertGithubWorkflowSha co;
     co_CertGithubWorkflowName := co_CertGithubWorkflowName co;
     co_CertGithubWorkflowRepository := co_CertGithubWorkflowRepository co;
     co_CertGithubWorkflowRef := co_CertGithubWorkflowRef co;
     co_IgnoreSCT := co_IgnoreSCT co;
     co_SignatureRef := co_SignatureRef co;
     co_PayloadRef := co_PayloadRef co;
     co_Identities := co_Identities co;
     co_Offline := co_Offline co;
     co_IgnoreTlog := co_IgnoreTlog co;
     co_ClaimVerifier := co_ClaimVerifier co;
     co_RekorClient := co_RekorClient co;
     co_RekorPubKeys := co_RekorPubKeys co;
     co_RootCerts := co_RootCerts co;
     co_IntermediateCerts := co_IntermediateCerts co;
     co_CTLogPubKeys := v;
     co_SigVerifier := co_SigVerifier co;
     co_SCT := co_SCT co |}.

Definition set_SigVerifier (v : option Verifier) (co : CheckOpts) : CheckOpts :=
  {| co_Annotations := co_Annotations co;
     co_RegistryClientOpts := co_RegistryClientOpts co;
     co_CertGithubWorkflowTrigger := co_CertGithubWorkflowTrigger co;
     co_CertGithubWorkflowSha := co_CertGithubWorkflowSha co;
     co_CertGithubWorkflowName := co_CertGithubWorkflowName co;
     co_CertGithubWorkflowRepository := co_CertGithubWorkflowRepository co;
     co_CertGithubWorkflowRef := co_CertGithubWorkflowRef co;
     co_IgnoreSCT := co_IgnoreSCT co;
     co_SignatureRef := co_SignatureRef co;
     co_PayloadRef := co_PayloadRef co;
     co_Identities := co_Identities co;
     co_Offline := co_Offline co;
     co_IgnoreTlog := co_IgnoreTlog co;
     co_ClaimVerifier := co_ClaimVerifier co;
     co_RekorClient := co_RekorClient co;
     co_RekorPubKeys := co_RekorPubKeys co;
     co_RootCerts := co_RootCerts co;
     co_IntermediateCerts := co_IntermediateCerts co;
     co_CTLogPubKeys := co_CTLogPubKeys co;
     co_SigVerifier := v;
     co_SCT := co_SCT co |}.

Definition set_SCT (v : option bytes) (co : CheckOpts) : CheckOpts :=
  {| co_Annotations := co_Annotations co;
     co_RegistryClientOpts := co_RegistryClientOpts co;
     co_CertGithubWorkflowTrigger := co_CertGithubWorkflowTrigger co;
     co_CertGithubWorkflowSha := co_CertGithubWorkflowSha co;
     co_CertGithubWorkflowName := co_CertGithubWorkflowName co;
     co_CertGithubWorkflowRepository := co_CertGithubWorkflowRepository co;
     co_CertGithubWorkflowRef := co_CertGithubWorkflowRef co;
     co_IgnoreSCT := co_IgnoreSCT co;
     co_SignatureRef := co_SignatureRef co;
     co_PayloadRef := co_PayloadRef co;
     co_Identities := co_Identities co;
     co_Offline := co_Offline co;
     co_IgnoreTlog := co_IgnoreTlog co;
     co_ClaimVerifier := co_ClaimVerifier co;
     co_RekorClient := co_RekorClient co;
     co_RekorPubKeys := co_RekorPubKeys co;
     co_RootCerts := co_RootCerts co;
     co_IntermediateCerts := co_IntermediateCerts co;
     co_CTLogPubKeys := co_CTLogPubKeys co;
     co_SigVerifier := co_SigVerifier co;
     co_SCT := v |}.

Definition set_HashAlgorithm (v : crypto_Hash) (c : VerifyCommand) : VerifyCommand :=
  {| RegistryOptions := RegistryOptions c;
     CertVerifyOptions := CertVerifyOptions c;
     CheckClaims := CheckClaims c;
     KeyRef := KeyRef c;
     CertRef := CertRef c;
     CertGithubWorkflowTrigger := CertGithubWorkflowTrigger c;
     CertGithubWorkflowSha := CertGithubWorkflowSha c;
     CertGithubWorkflowName := CertGithubWorkflowName c;
     CertGithubWorkflowRepository := CertGithubWorkflowRepository c;
     CertGithubWorkflowRef := CertGithubWorkflowRef c;
     CertChain := CertChain c;
     CertOidcProvider := CertOidcProvider c;
     IgnoreSCT := IgnoreSCT c;
     SCTRef := SCTRef c;
     Sk := Sk c;
     Slot := Slot c;
     Output := Output c;
     RekorURL := RekorURL c;
     Attachment := Attachment c;
     Annotations := Annotations c;
     SignatureRef := SignatureRef c;
     PayloadRef := PayloadRef c;
     HashAlgorithm := v;
     LocalImage := LocalImage c;
     NameOptions := NameOptions c;
     Offline := Offline c;
     TSACertChainPath := TSACertChainPath c;
     IgnoreTlog := IgnoreTlog c |}.

(* ================================================================== *)
(** * Calls into imported packages *)

(** One constructor per function of an imported package that the command
    calls, with the arguments of the call. *)
Inductive Event :=
| c_Identities (o : options_CertVerifyOptions)
| c_ClientOpts (o : options_RegistryOptions)
| rekor_NewClient (url : string)
| cosign_GetRekorPubs
| fulcio_GetRoots
| fulcio_GetIntermediates
| cosign_GetCTLogPubs
| blob_LoadFileOrURL (path : string)
| base64_DecodeString (s : string)
| cryptoutils_UnmarshalCertificatesFromPEM (pems : bytes)
| cryptoutils_LoadCertificatesFromPEM (pems : bytes)
| sigs_PublicKeyFromKeyRefWithHashAlgo (keyRef : string) (h : crypto_Hash)
| pkcs11Key_Close (k : Verifier)
| pivkey_GetKeyWithSlot (slot : string)
| sk_Close (sk : pivkey_Key)
| sk_Verifier (sk : pivkey_Key)
| cosign_ValidateAndUnpackCert (cert : Certificate) (co : CheckOpts)
| cosign_ValidateAndUnpackCertWithChain
    (cert : Certificate) (chain : list Certificate) (co : CheckOpts)
| os_ReadFile (path : string)
| cosign_VerifyLocalImageSignatures (img : string) (co : CheckOpts)
| name_ParseReference (img : string) (opts : list name_Option)
| sign_GetAttachedImageRef
    (ref : name_Reference) (attachment : string) (opts : list remote_Option)
| cosign_VerifyImageSignatures (ref : name_Reference) (co : CheckOpts).

(** What a call returns next to its [error] (results the command discards
    are [unit]). *)
Definition Answer (e : Event) : Type :=
  match e with
  | c_Identities _ => list cosign_Identity
  | c_ClientOpts _ => list remote_Option
  | rekor_NewClient _ => rekor_Client
  | cosign_GetRekorPubs => TrustedKeys
  | fulcio_GetRoots => CertPool
  | fulcio_GetIntermediates => CertPool
  | cosign_GetCTLogPubs => TrustedKeys
  | blob_LoadFileOrURL _ => bytes
  | base64_DecodeString _ => bytes
  | cryptoutils_UnmarshalCertificatesFromPEM _ => list Certificate
  | cryptoutils_LoadCertificatesFromPEM _ => list Certificate
  | sigs_PublicKeyFromKeyRefWithHashAlgo _ _ => Verifier
  | pkcs11Key_Close _ => unit
  | pivkey_GetKeyWithSlot _ => pivkey_Key
  | sk_Close _ => unit
  | sk_Verifier _ => Verifier
  | cosign_ValidateAndUnpackCert _ _ => Verifier
  | cosign_ValidateAndUnpackCertWithChain _ _ _ => Verifier
  | os_ReadFile _ => bytes
  | cosign_VerifyLocalImageSignatures _ _ => unit
  | name_ParseReference _ _ => name_Reference
  | sign_GetAttachedImageRef _ _ _ => name_Reference
  | cosign_VerifyImageSignatures _ _ => unit
  end.

(** A trace entry: the receiver [*c] as it was when the call was made,
    the call, and the error it returned ([None] for [nil]). *)
Record Entry := mkEntry {
  receiver : VerifyCommand;
  event : Event;
  failure : option error
}.
Definition History := list Entry.

(** The world outside the command.  Its answer to a call may depend on
    the whole history (the network, the registry and the tokens have state
    of their own).  [filepath.Clean] is a pure function on paths. *)
Record World := mkWorld {
  answer : History -> forall e : Event, result (Answer e);
  filepath_Clean : string -> string
}.

(* ================================================================== *)
(** * The monad of the command: state, errors, panics *)

(** The receiver, the trace so far, and the calls deferred by the running
    function (most recent first). *)
Record State := mkState {
  cmd : VerifyCommand;
  trace : History;
  deferred : list Event
}.

Inductive Outcome (A : Type) :=
| Return (a : A)
| Fail (e : error)
| Panic (msg : string).
Arguments Return {A} a.
Arguments Fail {A} e.
Arguments Panic {A} msg.

Definition M (A : Type) := State -> Outcome A * State.

Definition ret {A} (a : A) : M A := fun s => (Return a, s).

Definition bind {A B} (m : M A) (k : A -> M B) : M B :=
  fun s =>
    match m s with
    | (Return a, s') => k a s'
    | (Fail e, s') => (Fail e, s')
    | (Panic msg, s') => (Panic msg, s')
    end.

Declare Scope go_scope.
Delimit Scope go_scope with go.
Notation "x <- m ;; k" := (bind m (fun x => k))
  (at level 61, m at next level, right associativity) : go_scope.
Notation "m ;; k" := (bind m (fun _ => k))
  (at level 61, right associativity) : go_scope.
Open Scope go_scope.

Definition fail {A} (e : error) : M A := fun s => (Fail e, s).
Definition panic {A} (msg : string) : M A := fun s => (Panic msg, s).

Definition get_cmd : M VerifyCommand := fun s => (Return (cmd s), s).
Definition put_cmd (c : VerifyCommand) : M unit :=
  fun s => (Return tt, mkState c (trace s) (deferred s)).

Definition log (e : Event) (err : option error) (s : State) : State :=
  mkState (cmd s) (trace s ++ [mkEntry (cmd s) e err]) (deferred s).

(** [defer f()]. *)
Definition defer (e : Event) : M unit :=
  fun s => (Return tt, mkState (cmd s) (trace s) (e :: deferred s)).

(** [return fmt.Errorf("<prefix>%w", err)] and
    [return cosignError.WrapError(err)] on the error path of [m]. *)
Definition Errorf {A} (prefix : string) (m : M A) : M A :=
  fun s =>
    match m s with
    | (Fail e, s') => (Fail (fmt_Errorf prefix e), s')
    | r => r
    end.

Definition WrapError {A} (m : M A) : M A :=
  fun s =>
    match m s with
    | (Fail e, s') => (Fail (cosignError_WrapError e), s')
    | r => r
    end.

(** [v, err := f()] where the code goes on after looking at [err]. *)
Definition attempt {A} (m : M A) : M (result A) :=
  fun s =>
    match m s with
    | (Return a, s') => (Return (Ok a), s')
    | (Fail e, s') => (Return (Err e), s')
    | (Panic msg, s') => (Panic msg, s')
    end.

(** The deferred calls of a function run when it returns, whatever the
    outcome, most recently deferred first. *)
Definition run_deferred (s : State) : State :=
  mkState (cmd s)
          (trace s ++ map (fun e => mkEntry (cmd s) e None) (deferred s))
          [].

Definition with_deferred {A} (body : M A) : M A :=
  fun s => let (o, s') := body s in (o, run_deferred s').

(** [l[i]] and [l[:i]] for a Go [int] index. *)
Definition index {A} (l : list A) (i : Z) : option A :=
  if (i <? 0)%Z then None else nth_error l (Z.to_nat i).

Definition slice_to {A} (l : list A) (i : Z) : list A :=
  firstn (Z.to_nat i) l.

Definition len {A} (l : list A) : Z := Z.of_nat (length l).

Section Command.

Variable W : World.

(** A call: the world answers from the history, the call is recorded. *)
Definition call (e : Event) : M (Answer e) :=
  fun s =>
    match answer W (trace s) e with
    | Ok a => (Return a, log e None s)
    | Err err => (Fail err, log e (Some err) s)
    end.

(* ================================================================== *)
(** * The helpers *)

Definition keylessVerification (keyRef : string) (sk : bool) : bool :=
  if negb (keyRef =? "") then false
  else if sk then false
  else true.

Definition loadCertFromPEM (pems : bytes) : M Certificate :=
  decoded <- attempt (call (base64_DecodeString (string_of_list_byte pems))) ;;
  let out := match decoded with
             | Ok out => out
             | Err _ => pems             (* not a base64 *)
             end in
  certs <- call (cryptoutils_UnmarshalCertificatesFromPEM out) ;;
  match certs with
  | [] => fail (errors_New "no certs found in pem file")
  | cert :: _ => ret cert
  end.

Definition loadCertFromFileOrURL (path : string) : M Certificate :=
  pems <- call (blob_LoadFileOrURL path) ;;
  loadCertFromPEM pems.

Definition loadCertChainFromFileOrURL (path : string) : M (list Certificate) :=
  pems <- call (blob_LoadFileOrURL path) ;;
  certs <- call (cryptoutils_LoadCertificatesFromPEM pems) ;;
  ret certs.

(* ================================================================== *)
(** * [DoVerify], block by block *)

(** Lines 79-88: the image list and the attachment kind. *)
Definition checkArguments (c : VerifyCommand) (images : list string) : M unit :=
  if (len images =? 0)%Z then fail flag_ErrHelp
  else if (Attachment c =? "sbom") || (Attachment c =? "") then ret tt
  else fail flag_ErrHelp.

(** Lines 90-93: always default to sha256 if the algorithm hasn't been
    explicitly set. *)
Definition defaultHashAlgorithm : M unit :=
  c <- get_cmd ;;
  if (HashAlgorithm c =? 0)%Z then put_cmd (set_HashAlgorithm crypto_SHA256 c)
  else ret tt.

(** Lines 95-101. *)
Definition loadIdentities (c : VerifyCommand) : M (list cosign_Identity) :=
  if KeyRef c =? "" then call (c_Identities (CertVerifyOptions c))
  else ret [].

(** Lines 108-125. *)
Definition newCheckOpts (c : VerifyCommand) (ociremoteOpts : list remote_Option)
    (identities : list cosign_Identity) : CheckOpts :=
  let co :=
    {| co_Annotations := am_Annotations (Annotations c);
       co_RegistryClientOpts := ociremoteOpts;
       co_CertGithubWorkflowTrigger := CertGithubWorkflowTrigger c;
       co_CertGithubWorkflowSha := CertGithubWorkflowSha c;
       co_CertGithubWorkflowName := CertGithubWorkflowName c;
       co_CertGithubWorkflowRepository := CertGithubWorkflowRepository c;
       co_CertGithubWorkflowRef := CertGithubWorkflowRef c;
       co_IgnoreSCT := IgnoreSCT c;
       co_SignatureRef := SignatureRef c;
       co_PayloadRef := PayloadRef c;
       co_Identities := identities;
       co_Offline := Offline c;
       co_IgnoreTlog := IgnoreTlog c;
       co_ClaimVerifier := None;
       co_RekorClient := None;
       co_RekorPubKeys := None;
       co_RootCerts := None;
       co_IntermediateCerts := None;
       co_CTLogPubKeys := None;
       co_SigVerifier := None;
       co_SCT := None |} in
  if CheckClaims c then set_ClaimVerifier (Some SimpleClaimVerifier) co else co.

(** Lines 127-129. *)
Definition rejectTSACertChain (c : VerifyCommand) : M unit :=
  if negb (TSACertChainPath c =? "")
  then fail (errors_New "TSA cert chains are not supported in this tool")
  else ret tt.

(** Lines 131-145: the Rekor client and the Rekor public keys. *)
Definition setupRekor (c : VerifyCommand) (co : CheckOpts) : M CheckOpts :=
  if negb (IgnoreTlog c) then
    co <- (if negb (RekorURL c =? "") then
             rekorClient <- Errorf "creating Rekor client: "
                              (call (rekor_NewClient (RekorURL c))) ;;
             ret (set_RekorClient (Some rekorClient) co)
           else ret co) ;;
    keys <- Errorf "getting Rekor public keys: " (call cosign_GetRekorPubs) ;;
    ret (set_RekorPubKeys (Some keys) co)
  else ret co.

(** Lines 152-159: the pools built from a loaded chain. *)
Definition poolsFromChain (chain : list Certificate) (co : CheckOpts)
  : M CheckOpts :=
  match index chain (len chain - 1) with
  | None => panic "runtime error: index out of range [-1]"
  | Some root =>
      let co := set_RootCerts (Some (AddCert root x509_NewCertPool)) co in
      if (len chain >? 1)%Z then
        ret (set_IntermediateCerts
               (Some (fold_left (fun pool cert => AddCert cert pool)
                                (slice_to chain (len chain - 1))
                                x509_NewCertPool)) co)
      else ret co
  end.

(** Lines 146-172: the roots of trust of keyless verification. *)
Definition establishRoots (c : VerifyCommand) (co : CheckOpts) : M CheckOpts :=
  if keylessVerification (KeyRef c) (Sk c) then
    if negb (CertChain c =? "") then
      chain <- loadCertChainFromFileOrURL (CertChain c) ;;
      poolsFromChain chain co
    else
      roots <- Errorf "getting Fulcio roots: " (call fulcio_GetRoots) ;;
      let co := set_RootCerts (Some roots) co in
      intermediates <- Errorf "getting Fulcio intermediates: "
                         (call fulcio_GetIntermediates) ;;
      ret (set_IntermediateCerts (Some intermediates) co)
  else ret co.

(** Lines 176-181. *)
Definition setupCTLog (c : VerifyCommand) (co : CheckOpts) : M CheckOpts :=
  if negb (IgnoreSCT c) then
    keys <- Errorf "getting ctlog public keys: " (call cosign_GetCTLogPubs) ;;
    ret (set_CTLogPubKeys (Some keys) co)
  else ret co.

(** Lines 186-194: [case keyRef != ""]. *)
Definition verifierFromKeyRef (c : VerifyCommand) : M Verifier :=
  pubKey <- Errorf "loading public key: "
              (call (sigs_PublicKeyFromKeyRefWithHashAlgo
                       (KeyRef c) (HashAlgorithm c))) ;;
  match pubKey with
  | pkcs11key_Key _ => defer (pkcs11Key_Close pubKey)
  | other_Verifier _ => ret tt
  end ;;
  ret pubKey.

(** Lines 195-204: [case c.Sk]. *)
Definition verifierFromToken (c : VerifyCommand) : M Verifier :=
  sk <- Errorf "opening piv token: " (call (pivkey_GetKeyWithSlot (Slot c))) ;;
  defer (sk_Close sk) ;;
  Errorf "initializing piv token verifier: " (call (sk_Verifier sk)).

(** Lines 205-241: [case certRef != ""]. *)
Definition verifierFromCert (c : VerifyCommand) (co : CheckOpts)
  : M (CheckOpts * Verifier) :=
  cert <- loadCertFromFileOrURL (CertRef c) ;;
  r <- (if CertChain c =? "" then
          (* If no certChain is passed, the Fulcio root certificate will
             be used *)
          roots <- Errorf "getting Fulcio roots: " (call fulcio_GetRoots) ;;
          let co := set_RootCerts (Some roots) co in
          intermediates <- Errorf "getting Fulcio intermediates: "
                             (call fulcio_GetIntermediates) ;;
          let co := set_IntermediateCerts (Some intermediates) co in
          pubKey <- call (cosign_ValidateAndUnpackCert cert co) ;;
          (ret (co, pubKey) : M (CheckOpts * Verifier))
        else
          (* Verify certificate with chain *)
          chain <- loadCertChainFromFileOrURL (CertChain c) ;;
          pubKey <- call (cosign_ValidateAndUnpackCertWithChain cert chain co) ;;
          (ret (co, pubKey) : M (CheckOpts * Verifier))) ;;
  let (co, pubKey) := r : CheckOpts * Verifier in
  if negb (SCTRef c =? "") then
    sct <- Errorf "reading sct from file: "
             (call (os_ReadFile (filepath_Clean W (SCTRef c)))) ;;
    ret (set_SCT (Some sct) co, pubKey)
  else ret (co, pubKey).

(** Lines 183-243: the [switch] over the key sources, first match wins,
    and the assignment of [co.SigVerifier]. *)
Definition resolveVerifier (c : VerifyCommand) (co : CheckOpts) : M CheckOpts :=
  r <- (if negb (KeyRef c =? "") then
          pubKey <- verifierFromKeyRef c ;; ret (co, Some pubKey)
        else if Sk c then
          pubKey <- verifierFromToken c ;; ret (co, Some pubKey)
        else if negb (CertRef c =? "") then
          r <- verifierFromCert c co ;; ret (fst r, Some (snd r))
        else ret (co, None)) ;;
  ret (set_SigVerifier (snd r) (fst r)).

(** Lines 254-273: the body of the loop. *)
Definition verifyImage (c : VerifyCommand) (co : CheckOpts)
    (ociremoteOpts : list remote_Option) (img : string) : M unit :=
  if LocalImage c then
    call (cosign_VerifyLocalImageSignatures img co)
  else
    ref <- Errorf "parsing reference: "
             (call (name_ParseReference img (NameOptions c))) ;;
    ref <- Errorf ("resolving attachment type " ++ Attachment c
                   ++ " for image " ++ img ++ ": ")%string
             (call (sign_GetAttachedImageRef ref (Attachment c) ociremoteOpts)) ;;
    WrapError (call (cosign_VerifyImageSignatures ref co)).

(** Lines 253-274: [for _, img := range images]. *)
Fixpoint verifyImages (c : VerifyCommand) (co : CheckOpts)
    (ociremoteOpts : list remote_Option) (images : list string) : M unit :=
  match images with
  | [] => ret tt
  | img :: rest =>
      verifyImage c co ociremoteOpts img ;;
      verifyImages c co ociremoteOpts rest
  end.

(** Lines 95-243: the check options, from the identities to the
    verifier. *)
Definition configure (c : VerifyCommand)
  : M (CheckOpts * list remote_Option) :=
  identities <- loadIdentities c ;;
  ociremoteOpts <- Errorf "constructing client options: "
                     (call (c_ClientOpts (RegistryOptions c))) ;;
  let co := newCheckOpts c ociremoteOpts identities in
  rejectTSACertChain c ;;
  co <- setupRekor c co ;;
  co <- establishRoots c co ;;
  co <- setupCTLog c co ;;
  co <- resolveVerifier c co ;;
  (ret (co, ociremoteOpts) : M (CheckOpts * list remote_Option)).

Definition DoVerify (images : list string) : M unit :=
  with_deferred
    (c <- get_cmd ;;
     checkArguments c images ;;
     defaultHashAlgorithm ;;
     c <- get_cmd ;;
     r <- configure c ;;
     verifyImages c (fst r) (snd r) images).

(** An invocation: the receiver as the caller built it, nothing called
    yet, nothing deferred. *)
Definition start (c : VerifyCommand) : State := mkState c [] [].

Definition run (c : VerifyCommand) (images : list string) : Outcome unit * State :=
  DoVerify images (start c).

End Command.

Arguments call W e s : simpl never.

(* ================================================================== *)
(** * [RunIndexList]: the table of the configured indexes

    The method of [cmd/index_list.go].  It reads the indexes file through
    [index.NewIndexConfig] and hands a table to [pterm]; both are
    imported, and so are [homedir.Get] and [filepath.Join].  The two
    path constants are declared elsewhere in the package.  The [ctx] and
    [args] arguments are not used by the method. *)

(** An entry of [indexConfig.Configs], as far as the method reads it. *)
Record index_Entry := mkIndexEntry {
  Name : string;
  URL : string;
  AddedTimestamp : string;
  UpdatedTimestamp : string
}.

Record index_Config := mkIndexConfig { Configs : list index_Entry }.

(** What the method asks of its environment. *)
Record IndexEnv := mkIndexEnv {
  homedir_Get : string;
  filepath_Join : string -> string -> string;
  defaultFalcoctlPath : string;
  defaultIndexesFilename : string;
  index_NewIndexConfig : string -> result index_Config
}.

(** The printer built by
    [pterm.DefaultTable.WithHasHeader().WithSeparator(sep).WithData(data)]. *)
Record TablePrinter := mkTablePrinter {
  HasHeader : bool;
  Separator : string;
  Data : list (list string)
}.

(** The tab character of the separator. *)
Definition tab : string := String (Ascii.ascii_of_nat 9) EmptyString.

(** Lines 53-70.  The result is the table rendered, if any, and the
    error returned ([None] for [nil]); what [Render()] returns is dropped
    by the code. *)
Definition RunIndexList (env : IndexEnv) : option TablePrinter * option error :=
  let falcoctlPath :=
    filepath_Join env (homedir_Get env) (defaultFalcoctlPath env) in
  let indexesFile :=
    filepath_Join env falcoctlPath (defaultIndexesFilename env) in
  match index_NewIndexConfig env indexesFile with
  | Err err => (None, Some err)
  | Ok indexConfig =>
      let data :=
        fold_left
          (fun data conf =>
             let newEntry := [Name conf; URL conf; AddedTimestamp conf;
                              UpdatedTimestamp conf] in
             data ++ [newEntry])
          (Configs indexConfig)
          [["NAME"; "URL"; "ADDED"; "UPDATED"]] in
      (Some (mkTablePrinter true tab data), None)
  end.

(* ================================================================== *)
(** * Worlds and commands to run the model on *)

Definition cert_of (s : string) : Certificate :=
  mkCertificate (list_byte_of_string s).

(** A world in which every call succeeds.  A file holds the bytes of its
    own path, nothing is valid base64, a PEM block is one certificate and
    a chain file holds one certificate per byte. *)
Definition cooperative (e : Event) : result (Answer e) :=
  match e return result (Answer e) with
  | c_Identities _ => Ok ["identity"]
  | c_ClientOpts _ => Ok ["keychain"]
  | rekor_NewClient url => Ok url
  | cosign_GetRekorPubs => Ok "rekor-keys"
  | fulcio_GetRoots => Ok [cert_of "fulcio-root"]
  | fulcio_GetIntermediates => Ok [cert_of "fulcio-intermediate"]
  | cosign_GetCTLogPubs => Ok "ctlog-keys"
  | blob_LoadFileOrURL path => Ok (list_byte_of_string path)
  | base64_DecodeString _ => Err (errors_New "illegal base64 data")
  | cryptoutils_UnmarshalCertificatesFromPEM pems => Ok [mkCertificate pems]
  | cryptoutils_LoadCertificatesFromPEM pems =>
      Ok (map (fun b => mkCertificate [b]) pems)
  | sigs_PublicKeyFromKeyRefWithHashAlgo keyRef _ => Ok (other_Verifier keyRef)
  | pkcs11Key_Close _ => Ok tt
  | pivkey_GetKeyWithSlot slot => Ok slot
  | sk_Close _ => Ok tt
  | sk_Verifier sk => Ok (other_Verifier sk)
  | cosign_ValidateAndUnpackCert _ _ => Ok (other_Verifier "certificate")
  | cosign_ValidateAndUnpackCertWithChain _ _ _ =>
      Ok (other_Verifier "certificate")
  | os_ReadFile path => Ok (list_byte_of_string path)
  | cosign_VerifyLocalImageSignatures _ _ => Ok tt
  | name_ParseReference img _ => Ok img
  | sign_GetAttachedImageRef ref _ _ => Ok ref
  | cosign_VerifyImageSignatures _ _ => Ok tt
  end.

(** The cooperative world, except that the calls selected by [down] fail. *)
Definition world_without (down : Event -> bool) : World :=
  mkWorld (fun _ e => if down e then Err (errors_New "unavailable")
                      else cooperative e)
          (fun path => path).

Definition friendly : World := world_without (fun _ => false).

(** A command with the given options and the zero value everywhere else. *)
Definition command (keyRef certRef certChain : string) (sk : bool)
    (attachment tsaCertChainPath : string) : VerifyCommand :=
  {| RegistryOptions := "registry-options";
     CertVerifyOptions := "cert-verify-options";
     CheckClaims := false;
     KeyRef := keyRef;
     CertRef := certRef;
     CertGithubWorkflowTrigger := "";
     CertGithubWorkflowSha := "";
     CertGithubWorkflowName := "";
     CertGithubWorkflowRepository := "";
     CertGithubWorkflowRef := "";
     CertChain := certChain;
     CertOidcProvider := "";
     IgnoreSCT := false;
     SCTRef := "";
     Sk := sk;
     Slot := "";
     Output := "";
     RekorURL := "";
     Attachment := attachment;
     Annotations := mkAnnotationsMap [];
     SignatureRef := "";
     PayloadRef := "";
     HashAlgorithm := 0%Z;
     LocalImage := false;
     NameOptions := [];
     Offline := false;
     TSACertChainPath := tsaCertChainPath;
     IgnoreTlog := false |}.

(** The calls of an invocation, in order. *)
Definition events (r : Outcome unit * State) : list Event :=
  map event (trace (snd r)).

(** An offline invocation with a Rekor URL of its own. *)
Definition offline_with_rekor_url (c : VerifyCommand) : VerifyCommand :=
  {| RegistryOptions := RegistryOptions c;
     CertVerifyOptions := CertVerifyOptions c;
     CheckClaims := CheckClaims c;
     KeyRef := KeyRef c;
     CertRef := CertRef c;
     CertGithubWorkflowTrigger := CertGithubWorkflowTrigger c;
     CertGithubWorkflowSha := CertGithubWorkflowSha c;
     CertGithubWorkflowName := CertGithubWorkflowName c;
     CertGithubWorkflowRepository := CertGithubWorkflowRepository c;
     CertGithubWorkflowRef := CertGithubWorkflowRef c;
     CertChain := CertChain c;
     CertOidcProvider := CertOidcProvider c;
     IgnoreSCT := IgnoreSCT c;
     SCTRef := SCTRef c;
     Sk := Sk c;
     Slot := Slot c;
     Output := Output c;
     RekorURL := "https://rekor.example";
     Attachment := Attachment c;
     Annotations := Annotations c;
     SignatureRef := SignatureRef c;
     PayloadRef := PayloadRef c;
     HashAlgorithm := HashAlgorithm c;
     LocalImage := LocalImage c;
     NameOptions := NameOptions c;
     Offline := true;
     TSACertChainPath := TSACertChainPath c;
     IgnoreTlog := IgnoreTlog c |}.

(** A world whose PEM parser finds no certificate in a chain file. *)
Definition world_with_empty_chain : World :=
  mkWorld (fun _ e =>
             match e return result (Answer e) with
             | cryptoutils_LoadCertificatesFromPEM _ => Ok []
             | e => cooperative e
             end)
          (fun path => path).

(** Selectors for [world_without]. *)
Definition is_Identities (e : Event) : bool :=
  match e with c_Identities _ => true | _ => false end.

Definition is_GetRekorPubs (e : Event) : bool :=
  match e with cosign_GetRekorPubs => true | _ => false end.

Definition is_GetCTLogPubs (e : Event) : bool :=
  match e with cosign_GetCTLogPubs => true | _ => false end.

(** The pools each [VerifyImageSignatures] call is given. *)
Definition pools_given (r : Outcome unit * State)
  : list (option CertPool * option CertPool) :=
  flat_map (fun e => match e with
                     | cosign_VerifyImageSignatures _ co =>
                         [(co_RootCerts co, co_IntermediateCerts co)]
                     | _ => []
                     end) (events r).

(** The check options an artifact is verified with. *)
Definition verified_with (e : Event) : option CheckOpts :=
  match e with
  | cosign_VerifyLocalImageSignatures _ co
  | cosign_VerifyImageSignatures _ co => Some co
  | _ => None
  end.

(** The verifier each artifact verification is given. *)
Definition verifiers_given (r : Outcome unit * State)
  : list (option Verifier) :=
  flat_map (fun e => match verified_with e with
                     | Some co => [co_SigVerifier co]
                     | None => []
                     end) (events r).

(* ================================================================== *)
(** * The vocabulary of the properties *)

(** ** Invocations *)

(** The arguments pass lines 79-88. *)
Definition accepted (c : VerifyCommand) (images : list string) : bool :=
  negb (len images =? 0)%Z &&
  ((Attachment c =? "sbom") || (Attachment c =? "")).

(** The receiver after lines 90-93. *)
Definition defaulted (c : VerifyCommand) : VerifyCommand :=
  if (HashAlgorithm c =? 0)%Z then set_HashAlgorithm crypto_SHA256 c else c.

(** Lines 95-276. *)
Definition configure_and_verify (W : World) (c : VerifyCommand)
    (images : list string) : M unit :=
  r <- configure W c ;;
  verifyImages W c (fst r) (snd r) images.

(** [s'] continues the trace of [s]. *)
Definition extends (s s' : State) : Prop :=
  exists entries, trace s' = trace s ++ entries.

(** ** What a computation adds to the trace *)

(** A call with the error it returned.  [produces m Q]: from any state,
    [m] leaves the receiver alone, appends the calls [es] (each stamped
    with the receiver) to the trace and pushes the deferred calls [ds],
    and [Q] holds of the outcome, of [es] and of [ds]. *)
Definition Call := (Event * option error)%type.

(** The entry of a call made with receiver [c]. *)
Definition stamp (c : VerifyCommand) (x : Call) : Entry :=
  mkEntry c (fst x) (snd x).

Definition produces {A} (m : M A)
    (Q : Outcome A -> list Call -> list Event -> Prop) : Prop :=
  forall s,
    exists es ds,
      snd (m s) = mkState (cmd s) (trace s ++ map (stamp (cmd s)) es)
                          (ds ++ deferred s)
      /\ Q (fst (m s)) es ds.

(** The calls the command defers. *)
Definition closes (e : Event) : bool :=
  match e with
  | pkcs11Key_Close _ | sk_Close _ => true
  | _ => false
  end.

(** [only P V]: every call made or deferred satisfies [P], nothing but a
    [Close] is deferred, and a returned value satisfies [V]. *)
Definition only {A} (P : Event -> Prop) (V : A -> Prop)
  : Outcome A -> list Call -> list Event -> Prop :=
  fun o es ds =>
    Forall (fun x => P (fst x)) es /\
    Forall (fun d => P d /\ closes d = true) ds /\
    forall a, o = Return a -> V a.

(** ** The calls of each block of [DoVerify] *)

(** Lines 95-106. *)
Definition early_calls (c : VerifyCommand) (e : Event) : Prop :=
  match e with
  | c_Identities o => KeyRef c = "" /\ o = CertVerifyOptions c
  | c_ClientOpts o => o = RegistryOptions c
  | _ => False
  end.

(** Lines 131-145. *)
Definition rekor_calls (c : VerifyCommand) (e : Event) : Prop :=
  IgnoreTlog c = false /\
  match e with
  | rekor_NewClient url => url = RekorURL c /\ url <> ""
  | cosign_GetRekorPubs => True
  | _ => False
  end.

(** Lines 146-172. *)
Definition roots_calls (c : VerifyCommand) (e : Event) : Prop :=
  KeyRef c = "" /\ Sk c = false /\
  match e with
  | blob_LoadFileOrURL path => path = CertChain c /\ path <> ""
  | cryptoutils_LoadCertificatesFromPEM _ => CertChain c <> ""
  | fulcio_GetRoots | fulcio_GetIntermediates => CertChain c = ""
  | _ => False
  end.

(** Lines 176-181. *)
Definition ctlog_calls (c : VerifyCommand) (e : Event) : Prop :=
  IgnoreSCT c = false /\
  match e with
  | cosign_GetCTLogPubs => True
  | _ => False
  end.

(** Lines 183-243, one case of the [switch] each. *)
Definition static_key_calls (c : VerifyCommand) (e : Event) : Prop :=
  KeyRef c <> "" /\
  match e with
  | sigs_PublicKeyFromKeyRefWithHashAlgo keyRef h =>
      keyRef = KeyRef c /\ h = HashAlgorithm c
  | pkcs11Key_Close _ => True
  | _ => False
  end.

Definition token_calls (c : VerifyCommand) (e : Event) : Prop :=
  KeyRef c = "" /\ Sk c = true /\
  match e with
  | pivkey_GetKeyWithSlot slot => slot = Slot c
  | sk_Verifier _ | sk_Close _ => True
  | _ => False
  end.

Definition cert_calls (c : VerifyCommand) (e : Event) : Prop :=
  KeyRef c = "" /\ Sk c = false /\ CertRef c <> "" /\
  match e with
  | blob_LoadFileOrURL path =>
      path = CertRef c \/ (path = CertChain c /\ path <> "")
  | base64_DecodeString _ | cryptoutils_UnmarshalCertificatesFromPEM _ => True
  | fulcio_GetRoots | fulcio_GetIntermediates
  | cosign_ValidateAndUnpackCert _ _ => CertChain c = ""
  | cryptoutils_LoadCertificatesFromPEM _
  | cosign_ValidateAndUnpackCertWithChain _ _ _ => CertChain c <> ""
  | os_ReadFile _ => SCTRef c <> ""
  | _ => False
  end.

Definition key_calls (c : VerifyCommand) (e : Event) : Prop :=
  static_key_calls c e \/ token_calls c e \/ cert_calls c e.

(** Lines 253-274. *)
Definition image_calls (c : VerifyCommand) (co : CheckOpts)
    (ociremoteOpts : list remote_Option) (e : Event) : Prop :=
  match e with
  | cosign_VerifyLocalImageSignatures _ co' => LocalImage c = true /\ co' = co
  | name_ParseReference _ opts => LocalImage c = false /\ opts = NameOptions c
  | sign_GetAttachedImageRef _ attachment opts =>
      LocalImage c = false /\ attachment = Attachment c /\ opts = ociremoteOpts
  | cosign_VerifyImageSignatures _ co' => LocalImage c = false /\ co' = co
  | _ => False
  end.

(** What holds of [co] from its construction up to the [switch] over
    the key sources, and after it. *)
Definition prepared (c : VerifyCommand) (co : CheckOpts) : Prop :=
  (KeyRef c <> "" -> co_Identities co = []) /\
  (KeyRef c <> "" \/ Sk c = true ->
   co_RootCerts co = None /\ co_IntermediateCerts co = None) /\
  co_SigVerifier co = None.

Definition resolved (c : VerifyCommand) (co : CheckOpts) : Prop :=
  (KeyRef c <> "" -> co_Identities co = []) /\
  (KeyRef c <> "" \/ Sk c = true ->
   co_RootCerts co = None /\ co_IntermediateCerts co = None) /\
  (co_SigVerifier co = None <->
   KeyRef c = "" /\ Sk c = false /\ CertRef c = "").

(** [co'] has the pools of [co]. *)
Definition same_pools (co co' : CheckOpts) : Prop :=
  co_RootCerts co' = co_RootCerts co /\
  co_IntermediateCerts co' = co_IntermediateCerts co.

(** The calls of lines 131-243, of lines 95-243, and of an invocation. *)
Definition late_calls (c : VerifyCommand) (e : Event) : Prop :=
  rekor_calls c e \/ roots_calls c e \/ ctlog_calls c e \/ key_calls c e.

Definition configure_calls (c : VerifyCommand) (e : Event) : Prop :=
  early_calls c e \/ (TSACertChainPath c = "" /\ late_calls c e).

Definition run_calls (c : VerifyCommand) (e : Event) : Prop :=
  configure_calls c e \/
  (TSACertChainPath c = "" /\
   exists co ociremoteOpts,
     resolved c co /\ image_calls c co ociremoteOpts e).

(** ** The words of the claims *)

(** The check options a call is given, if any. *)
Definition check_opts_of (e : Event) : option CheckOpts :=
  match e with
  | cosign_ValidateAndUnpackCert _ co
  | cosign_ValidateAndUnpackCertWithChain _ _ co
  | cosign_VerifyLocalImageSignatures _ co
  | cosign_VerifyImageSignatures _ co => Some co
  | _ => None
  end.

(** What a parse yields: Go returns a [nil] slice next to an error. *)
Definition certs_of (r : result (list Certificate)) : list Certificate :=
  match r with
  | Ok certs => certs
  | Err _ => []
  end.

(** The pool that lines 155-158 build from the certificates before the
    last. *)
Definition pool_of (certs : list Certificate) : CertPool :=
  fold_left (fun pool cert => AddCert cert pool) certs x509_NewCertPool.

(** The calls of root-of-trust resolution: loading a certificate chain
    and fetching the Fulcio roots and intermediates. *)
Definition root_of_trust_call (e : Event) : bool :=
  match e with
  | blob_LoadFileOrURL _ | cryptoutils_LoadCertificatesFromPEM _
  | fulcio_GetRoots | fulcio_GetIntermediates => true
  | _ => false
  end.

(** The error of line 128. *)
Definition TSA_not_supported : error :=
  errors_New "TSA cert chains are not supported in this tool".

(** The calls that construct a verifier or evaluate an artifact (and the
    close of what was opened for it). *)
Definition resolves_or_verifies (e : Event) : bool :=
  match e with
  | c_Identities _ | c_ClientOpts _ | rekor_NewClient _ | cosign_GetRekorPubs
  | fulcio_GetRoots | fulcio_GetIntermediates | cosign_GetCTLogPubs
  | blob_LoadFileOrURL _ | cryptoutils_LoadCertificatesFromPEM _ => false
  | _ => true
  end.

(** The prefixes the two fetch errors are wrapped with (lines 143, 179). *)
Definition rekor_prefix := "getting Rekor public keys: ".

Definition ctlog_prefix := "getting ctlog public keys: ".

(** What it means for an invocation that the fetch [g], whose error is
    wrapped with [prefix], is always made and is fatal: a normal return
    comes with a successful fetch; a failed fetch is the last entry of
    the trace and its wrapped error is the error of the invocation; no
    verifier is constructed and no artifact is evaluated without a
    successful fetch. *)
Definition fetched_or_fatal (r : Outcome unit * State) (c' : VerifyCommand)
    (g : Event) (prefix : string) : Prop :=
  (fst r = Return tt -> In (mkEntry c' g None) (trace (snd r))) /\
  (forall err, In (mkEntry c' g (Some err)) (trace (snd r)) ->
     fst r = Fail (fmt_Errorf prefix err) /\
     exists pre, trace (snd r) = pre ++ [mkEntry c' g (Some err)]) /\
  (forall en, In en (trace (snd r)) ->
     resolves_or_verifies (event en) = true ->
     In (mkEntry c' g None) (trace (snd r))).

(** [fenced V]: a failed fetch is the last call, nothing is deferred then
    and the outcome is its wrapped error; whatever resolves a key or
    verifies an artifact, whatever is deferred, and a normal return, all
    come with a successful fetch. *)
Definition fenced (g : Event) (prefix : string) {A} (V : A -> Prop)
    (o : Outcome A) (es : list Call) (ds : list Event) : Prop :=
  (forall err, In (g, Some err) es ->
     o = Fail (fmt_Errorf prefix err) /\
     (exists pre, es = pre ++ [(g, Some err)]) /\ ds = []) /\
  (forall x, In x es -> resolves_or_verifies (fst x) = true ->
     In (g, None) es) /\
  (ds <> [] -> In (g, None) es) /\
  (forall a, o = Return a -> In (g, None) es /\ V a).

(** The calls of [P] are made before the fetch [g] and resolve or verify
    nothing. *)
Definition upstream (g : Event) (P : Event -> Prop) : Prop :=
  forall e, P e -> e <> g /\ resolves_or_verifies e = false.

(** The calls that come before the fetch of the Rekor public keys
    (lines 95-138), before the roots of trust (lines 95-145) and before
    the fetch of the CT-log public keys (lines 95-172). *)
Definition before_rekor (e : Event) : bool :=
  match e with
  | c_Identities _ | c_ClientOpts _ | rekor_NewClient _ => true
  | _ => false
  end.

Definition before_roots (e : Event) : bool :=
  before_rekor e || is_GetRekorPubs e.

Definition before_ctlog (e : Event) : bool :=
  before_roots e || root_of_trust_call e.

(** A call of [B] that failed. *)
Definition failed_in (B : Event -> bool) (x : Call) : Prop :=
  snd x <> None /\ B (fst x) = true.

(** [honest c B may_panic]: an error comes from a failed call of [B], or
    is the TSA one, with the TSA path set; there is no panic unless
    [may_panic]. *)
Definition honest (c : VerifyCommand) (B : Event -> bool) (may_panic : bool)
    {A} (o : Outcome A) (es : list Call) (ds : list Event) : Prop :=
  (forall e, o = Fail e ->
     Exists (failed_in B) es \/
     (e = TSA_not_supported /\ TSACertChainPath c <> "")) /\
  (forall msg, o = Panic msg -> may_panic = true).

(** [reaching c B may_panic g]: the fetch [g] is among the calls, unless
    a call of [B] failed, the TSA path is set or (if [may_panic]) the
    code panicked. *)
Definition reaching (c : VerifyCommand) (B : Event -> bool) (may_panic : bool)
    (g : Event) {A} (o : Outcome A) (es : list Call) (ds : list Event)
  : Prop :=
  In g (map fst es) \/ Exists (failed_in B) es \/
  TSACertChainPath c <> "" \/
  (may_panic = true /\ exists msg, o = Panic msg).

(** The four key sources of the [switch] at lines 185-242. *)
Inductive KeySource :=
| StaticKey
| HardwareToken
| ExplicitCertificate
| Keyless.


(** The calls that only one case of the [switch] makes. *)
Definition source_of_call (e : Event) : option KeySource :=
  match e with
  | sigs_PublicKeyFromKeyRefWithHashAlgo _ _ | pkcs11Key_Close _ =>
      Some StaticKey
  | pivkey_GetKeyWithSlot _ | sk_Verifier _ | sk_Close _ =>
      Some HardwareToken
  | base64_DecodeString _ | cryptoutils_UnmarshalCertificatesFromPEM _
  | cosign_ValidateAndUnpackCert _ _
  | cosign_ValidateAndUnpackCertWithChain _ _ _ | os_ReadFile _ =>
      Some ExplicitCertificate
  | _ => None
  end.

(** ** Errors, panics, handles, options and counts *)

(** The one call whose error the code recovers from (lines 289-293). *)
Definition is_base64 (e : Event) : bool :=
  match e with
  | base64_DecodeString _ => true
  | _ => false
  end.

(** The error of line 300. *)
Definition no_certs_found : error :=
  errors_New "no certs found in pem file".

(** [e'] is [e] as [DoVerify] returns it: as it is, behind a
    [fmt.Errorf] prefix, or wrapped by [cosignError.WrapError]. *)
Definition wraps (e' e : error) : Prop :=
  e' = e \/ (exists prefix, e' = fmt_Errorf prefix e) \/
  e' = cosignError_WrapError e.

(** A call that succeeded, or whose error the code recovers from. *)
Definition recovered (x : Call) : Prop :=
  snd x = None \/ is_base64 (fst x) = true.

(** [failstop c]: the calls made all went well (or were recovered from),
    except possibly the last one, whose error is then the outcome; an
    error with no failed call is one of the two the code makes up: the
    TSA one, with the TSA path set, or the one of line 300, when the
    certificate of [CertRef] is the key source. *)
Definition failstop (c : VerifyCommand) {A} (o : Outcome A) (es : list Call)
    (ds : list Event) : Prop :=
  match o with
  | Fail e' =>
      (Forall recovered es /\
       ((e' = TSA_not_supported /\ TSACertChainPath c <> "") \/
        (e' = no_certs_found /\
         KeyRef c = "" /\ Sk c = false /\ CertRef c <> ""))) \/
      exists pre ev e,
        es = pre ++ [(ev, Some e)] /\ Forall recovered pre /\
        is_base64 ev = false /\ wraps e' e
  | _ => Forall recovered es
  end.

(** The message of the run-time panic of [chain[len(chain)-1]] on an
    empty chain (line 153). *)
Definition index_out_of_range : string :=
  "runtime error: index out of range [-1]".

(** An invocation stopped at a failed call of [B]: the call is in the
    trace with its error, every call before it went well, nothing but
    the deferred [Close] follows it, and the invocation returns its
    error, as it is or wrapped once. *)
Definition stopped_before (B : Event -> bool) (r : Outcome unit * State)
  : Prop :=
  exists pre en closing err e',
    trace (snd r) = pre ++ en :: closing /\
    B (event en) = true /\ failure en = Some err /\
    Forall (fun x => failure x = None \/ is_base64 (event x) = true) pre /\
    Forall (fun x => closes (event x) = true /\ failure x = None) closing /\
    fst r = Fail e' /\ wraps e' err.

(** [calm]: the computation does not panic. *)
Definition calm {A} (o : Outcome A) (es : list Call) (ds : list Event)
  : Prop :=
  forall msg, o <> Panic msg.

(** [quiet]: only calls of lines 95-181 that neither resolve a key nor
    verify an artifact; nothing is deferred then. *)
Definition quiet {A} : Outcome A -> list Call -> list Event -> Prop :=
  only (fun e => resolves_or_verifies e = false) (fun _ => True).

(** The calls that open, use or close a key handle (lines 187-203). *)
Definition handles (e : Event) : bool :=
  match e with
  | sigs_PublicKeyFromKeyRefWithHashAlgo _ _ | pkcs11Key_Close _
  | pivkey_GetKeyWithSlot _ | sk_Verifier _ | sk_Close _ => true
  | _ => false
  end.

(** [released es ds]: no [Close] is called directly, nothing but a
    [Close] is deferred, and at most one is; the [Close] of a token is deferred exactly when the token
    was opened, and it is the token the verifier was asked of; the
    [Close] of a key is deferred only for a PKCS#11 key, after the key
    was loaded. *)
Definition released (es : list Call) (ds : list Event) : Prop :=
  Forall (fun x => closes (fst x) = false) es /\
  Forall (fun d => closes d = true) ds /\
  (length ds <= 1)%nat /\
  ((exists sk, In (sk_Close sk) ds) <->
   (exists slot, In (pivkey_GetKeyWithSlot slot, None) es)) /\
  (forall sk f, In (sk_Verifier sk, f) es -> ds = [sk_Close sk]) /\
  (forall k, In (pkcs11Key_Close k) ds ->
     (exists h, k = pkcs11key_Key h) /\
     exists keyRef h,
       In (sigs_PublicKeyFromKeyRefWithHashAlgo keyRef h, None) es).

Definition releasing {A} (o : Outcome A) (es : list Call) (ds : list Event)
  : Prop :=
  released es ds.

(** The images the loop of lines 253-274 has started on, in order: each
    pass begins with [VerifyLocalImageSignatures] or with
    [name.ParseReference] on the image. *)
Definition started (es : list Event) : list string :=
  flat_map (fun e => match e with
                     | cosign_VerifyLocalImageSignatures img _
                     | name_ParseReference img _ => [img]
                     | _ => []
                     end) es.

(** The check options of the artifact verifications made, in order. *)
Definition checked (es : list Event) : list CheckOpts :=
  flat_map (fun e => match verified_with e with
                     | Some co => [co]
                     | None => []
                     end) es.

(** [looping co images]: the passes started are a prefix of [images], all
    of it on a normal return; each pass started makes at most one
    verification, exactly one when it completes, always with [co]. *)
Definition looping (co : CheckOpts) (images : list string) {A}
    (o : Outcome A) (es : list Call) (ds : list Event) : Prop :=
  exists rest n,
    images = started (map fst es) ++ rest /\
    checked (map fst es) = repeat co n /\
    (n <= length (started (map fst es)))%nat /\
    (forall a, o = Return a ->
       rest = [] /\ n = length (started (map fst es))).

(** The fields of the check options that lines 108-125 copy from the
    command. *)
Definition mirrors (c : VerifyCommand) (co : CheckOpts) : Prop :=
  co_Annotations co = am_Annotations (Annotations c) /\
  co_CertGithubWorkflowTrigger co = CertGithubWorkflowTrigger c /\
  co_CertGithubWorkflowSha co = CertGithubWorkflowSha c /\
  co_CertGithubWorkflowName co = CertGithubWorkflowName c /\
  co_CertGithubWorkflowRepository co = CertGithubWorkflowRepository c /\
  co_CertGithubWorkflowRef co = CertGithubWorkflowRef c /\
  co_IgnoreSCT co = IgnoreSCT c /\
  co_SignatureRef co = SignatureRef c /\
  co_PayloadRef co = PayloadRef c /\
  co_Offline co = Offline c /\
  co_IgnoreTlog co = IgnoreTlog c /\
  co_ClaimVerifier co =
    (if CheckClaims c then Some SimpleClaimVerifier else None).

(** The fields that are set only if the options ask for it (lines
    131-145, 176-181, 235-241). *)
Definition sparing (c : VerifyCommand) (co : CheckOpts) : Prop :=
  (co_RekorClient co <> None -> IgnoreTlog c = false /\ RekorURL c <> "") /\
  (co_RekorPubKeys co <> None -> IgnoreTlog c = false) /\
  (co_CTLogPubKeys co <> None -> IgnoreSCT c = false) /\
  (co_SCT co <> None ->
   KeyRef c = "" /\ Sk c = false /\ CertRef c <> "" /\ SCTRef c <> "").

(** The check options after lines 108-125 ([rekor] and [ct] false), after
    lines 131-145 ([rekor] true) and after lines 176-181 ([ct] true). *)
Definition furnished (rekor ct : bool) (c : VerifyCommand)
    (ociremoteOpts : list remote_Option) (co : CheckOpts) : Prop :=
  mirrors c co /\ co_RegistryClientOpts co = ociremoteOpts /\ sparing c co /\
  (rekor = true -> IgnoreTlog c = false ->
   co_RekorPubKeys co <> None /\
   (RekorURL c <> "" -> co_RekorClient co <> None)) /\
  (ct = true -> IgnoreSCT c = false -> co_CTLogPubKeys co <> None).

(** The check options the artifacts are verified with. *)
Definition configured (c : VerifyCommand) (ociremoteOpts : list remote_Option)
    (co : CheckOpts) : Prop :=
  furnished true true c ociremoteOpts co /\
  (KeyRef c = "" -> Sk c = false -> CertRef c <> "" -> SCTRef c <> "" ->
   co_SCT co <> None).

(** The calls of the loop over the images. *)
Definition loop_call (e : Event) : bool :=
  match e with
  | cosign_VerifyLocalImageSignatures _ _ | name_ParseReference _ _
  | sign_GetAttachedImageRef _ _ _ | cosign_VerifyImageSignatures _ _ => true
  | _ => false
  end.

(** A call of lines 95-243: if it is given check options, they mirror
    the command. *)
Definition passes_on (c : VerifyCommand) (e : Event) : Prop :=
  loop_call e = false /\
  forall co, check_opts_of e = Some co -> mirrors c co.

(** A call of an invocation whose check options were built with
    [ociremoteOpts]. *)
Definition hands_over (c : VerifyCommand) (ociremoteOpts : list remote_Option)
    (e : Event) : Prop :=
  (forall co, check_opts_of e = Some co -> mirrors c co) /\
  (forall co, verified_with e = Some co -> configured c ociremoteOpts co) /\
  (forall ref attachment opts,
     e = sign_GetAttachedImageRef ref attachment opts ->
     attachment = Attachment c /\ opts = ociremoteOpts).

(** [first_call e0 w]: the first call made is [e0]; if it fails, nothing
    else is called or deferred and the outcome is its error, wrapped by
    [w]. *)
Definition first_call (e0 : Event) (w : error -> error) {A}
    (o : Outcome A) (es : list Call) (ds : list Event) : Prop :=
  exists f rest,
    es = (e0, f) :: rest /\
    forall err, f = Some err -> rest = [] /\ ds = [] /\ o = Fail (w err).

(** The call an accepted invocation begins with (lines 96-103), and how
    its error is returned (lines 99, 105). *)
Definition opening_call (c : VerifyCommand) : Event :=
  if KeyRef c =? "" then c_Identities (CertVerifyOptions c)
  else c_ClientOpts (RegistryOptions c).

Definition opening_error (c : VerifyCommand) (err : error) : error :=
  if KeyRef c =? "" then err
  else fmt_Errorf "constructing client options: " err.

(** A root of trust is resolved: the Fulcio roots are fetched (lines 163,
    212) or a certificate chain is parsed (lines 148, 226, through line
    310). *)
Definition resolves_roots (e : Event) : bool :=
  match e with
  | fulcio_GetRoots | cryptoutils_LoadCertificatesFromPEM _ => true
  | _ => false
  end.

Definition resolutions (es : list Event) : nat :=
  length (filter resolves_roots es).

(** How many times an invocation that goes through resolves a root of
    trust. *)
Definition roots_resolutions (c : VerifyCommand) : nat :=
  if keylessVerification (KeyRef c) (Sk c)
  then (if negb (CertRef c =? "") then 2 else 1)
  else 0.

(** [tally n]: at most [n] resolutions, exactly [n] on a normal return. *)
Definition tally (n : nat) {A} (o : Outcome A) (es : list Call)
    (ds : list Event) : Prop :=
  (resolutions (map fst es) <= n)%nat /\
  forall a, o = Return a -> resolutions (map fst es) = n.


(* ================================================================== *)
(** * Reasoning about runs *)

(** ** Inversion of the monad's operations *)

Lemma bind_Return {A B} (m : M A) (k : A -> M B) s b s' :
  bind m k s = (Return b, s') ->
  exists a s1, m s = (Return a, s1) /\ k a s1 = (Return b, s').
Proof.
  unfold bind. destruct (m s) as [[a | e | p] s1]; intros H; try discriminate.
  exists a, s1. split; [reflexivity | exact H].
Qed.

Lemma bind_run {A B} (m : M A) (k : A -> M B) s a s1 :
  m s = (Return a, s1) -> bind m k s = k a s1.
Proof. unfold bind. intros ->. reflexivity. Qed.

Lemma bind_assoc {A B C} (m : M A) (k : A -> M B) (h : B -> M C) s :
  bind (bind m k) h s = bind m (fun a => bind (k a) h) s.
Proof. unfold bind. destruct (m s) as [[a | e | msg] s1]; reflexivity. Qed.

Lemma bind_ext {A B} (m : M A) (k k' : A -> M B) s :
  (forall a s1, k a s1 = k' a s1) -> bind m k s = bind m k' s.
Proof.
  intros H. unfold bind. destruct (m s) as [[a | e | msg] s1]; auto.
Qed.

Lemma bind_Fail {A B} (m : M A) (k : A -> M B) s e s1 :
  m s = (Fail e, s1) -> bind m k s = (Fail e, s1).
Proof. unfold bind. intros ->. reflexivity. Qed.

(** ** What a computation adds to the trace *)

Lemma state_eta s : mkState (cmd s) (trace s) (deferred s) = s.
Proof. destruct s; reflexivity. Qed.

Lemma produces_silent {A} (o : Outcome A) (Q : Outcome A -> _ -> _ -> Prop) :
  Q o [] [] -> produces (fun s => (o, s)) Q.
Proof.
  intros HQ s. exists [], []. simpl. rewrite app_nil_r, state_eta. auto.
Qed.

Lemma produces_ret {A} (a : A) Q :
  Q (Return a) [] [] -> produces (ret a) Q.
Proof. apply produces_silent. Qed.

Lemma produces_fail {A} e (Q : Outcome A -> _ -> _ -> Prop) :
  Q (Fail e) [] [] -> produces (fail e) Q.
Proof. apply produces_silent. Qed.

Lemma produces_panic {A} msg (Q : Outcome A -> _ -> _ -> Prop) :
  Q (Panic msg) [] [] -> produces (panic msg) Q.
Proof. apply produces_silent. Qed.

Lemma produces_conseq {A} (m : M A) (Q Q' : Outcome A -> _ -> _ -> Prop) :
  produces m Q -> (forall o es ds, Q o es ds -> Q' o es ds) ->
  produces m Q'.
Proof.
  intros H HQ s. destruct (H s) as (es & ds & E & q).
  exists es, ds. auto.
Qed.

Lemma produces_bind {A B} (m : M A) (k : A -> M B) Q1
    (Q : Outcome B -> _ -> _ -> Prop) :
  produces m Q1 ->
  (forall a es1 ds1, Q1 (Return a) es1 ds1 ->
     produces (k a) (fun o es2 ds2 => Q o (es1 ++ es2) (ds2 ++ ds1))) ->
  (forall e es ds, Q1 (Fail e) es ds -> Q (Fail e) es ds) ->
  (forall msg es ds, Q1 (Panic msg) es ds -> Q (Panic msg) es ds) ->
  produces (bind m k) Q.
Proof.
  intros Hm Hk Hf Hp s. destruct (Hm s) as (es1 & ds1 & E1 & q1).
  unfold bind. destruct (m s) as [[a | e | msg] s1]; simpl in E1, q1.
  - destruct (Hk a es1 ds1 q1 s1) as (es2 & ds2 & E2 & q2).
    exists (es1 ++ es2), (ds2 ++ ds1). split; [| exact q2].
    rewrite E2. subst s1. simpl.
    rewrite map_app, !app_assoc. reflexivity.
  - exists es1, ds1. simpl. auto.
  - exists es1, ds1. simpl. auto.
Qed.

Lemma produces_Errorf {A} prefix (m : M A) Q1
    (Q : Outcome A -> _ -> _ -> Prop) :
  produces m Q1 ->
  (forall a es ds, Q1 (Return a) es ds -> Q (Return a) es ds) ->
  (forall e es ds, Q1 (Fail e) es ds -> Q (Fail (fmt_Errorf prefix e)) es ds) ->
  (forall msg es ds, Q1 (Panic msg) es ds -> Q (Panic msg) es ds) ->
  produces (Errorf prefix m) Q.
Proof.
  intros Hm Hr Hf Hp s. destruct (Hm s) as (es & ds & E & q).
  unfold Errorf. exists es, ds.
  destruct (m s) as [[a | e | msg] s1]; simpl in *; auto.
Qed.

Lemma produces_WrapError {A} (m : M A) Q1
    (Q : Outcome A -> _ -> _ -> Prop) :
  produces m Q1 ->
  (forall a es ds, Q1 (Return a) es ds -> Q (Return a) es ds) ->
  (forall e es ds, Q1 (Fail e) es ds -> Q (Fail (cosignError_WrapError e)) es ds) ->
  (forall msg es ds, Q1 (Panic msg) es ds -> Q (Panic msg) es ds) ->
  produces (WrapError m) Q.
Proof.
  intros Hm Hr Hf Hp s. destruct (Hm s) as (es & ds & E & q).
  unfold WrapError. exists es, ds.
  destruct (m s) as [[a | e | msg] s1]; simpl in *; auto.
Qed.

Lemma produces_defer e (Q : Outcome unit -> _ -> _ -> Prop) :
  Q (Return tt) [] [e] -> produces (defer e) Q.
Proof.
  intros HQ s. exists [], [e]. simpl. rewrite app_nil_r. auto.
Qed.

Lemma produces_call W e (Q : Outcome (Answer e) -> _ -> _ -> Prop) :
  (forall a, Q (Return a) [(e, None)] []) ->
  (forall err, Q (Fail err) [(e, Some err)] []) ->
  produces (call W e) Q.
Proof.
  intros Hr Hf s. unfold call.
  destruct (answer W (trace s) e) as [a | err].
  - exists [(e, None)], []. simpl. split; [reflexivity | apply Hr].
  - exists [(e, Some err)], []. simpl. split; [reflexivity | apply Hf].
Qed.


(** ** Footprints *)

Lemma only_ret {A} (a : A) (P : Event -> Prop) (V : A -> Prop) :
  V a -> produces (ret a) (only P V).
Proof.
  intros Ha. apply produces_ret. repeat split; auto.
  intros a' E. injection E as <-. exact Ha.
Qed.

Lemma only_fail {A} e (P : Event -> Prop) (V : A -> Prop) :
  produces (fail e) (only P V).
Proof. apply produces_fail. repeat split; auto. discriminate. Qed.

Lemma only_panic {A} msg (P : Event -> Prop) (V : A -> Prop) :
  produces (panic msg) (only P V).
Proof. apply produces_panic. repeat split; auto. discriminate. Qed.

Lemma only_call W e (P : Event -> Prop) (V : Answer e -> Prop) :
  P e -> (forall a, V a) -> produces (call W e) (only P V).
Proof.
  intros He Ha. apply produces_call; intros; repeat split; auto.
Qed.

Lemma only_defer e (P : Event -> Prop) (V : unit -> Prop) :
  P e -> closes e = true -> V tt -> produces (defer e) (only P V).
Proof.
  intros He Hc Ht. apply produces_defer. repeat split; auto.
  intros [] _. exact Ht.
Qed.

Lemma only_bind {A B} (m : M A) (k : A -> M B) (P : Event -> Prop)
    (V1 : A -> Prop) (V : B -> Prop) :
  produces m (only P V1) ->
  (forall a, V1 a -> produces (k a) (only P V)) ->
  produces (bind m k) (only P V).
Proof.
  intros Hm Hk. eapply produces_bind; [exact Hm | | |].
  - intros a es1 ds1 (F1 & D1 & v1).
    eapply produces_conseq; [apply Hk; apply v1; reflexivity |].
    intros o es2 ds2 (F2 & D2 & v2). repeat split; auto.
    + apply Forall_app; auto.
    + apply Forall_app; auto.
  - intros e es ds (F & D & _). repeat split; auto. discriminate.
  - intros msg es ds (F & D & _). repeat split; auto. discriminate.
Qed.

Lemma only_Errorf {A} prefix (m : M A) (P : Event -> Prop) (V : A -> Prop) :
  produces m (only P V) -> produces (Errorf prefix m) (only P V).
Proof.
  intros Hm. eapply produces_Errorf; [exact Hm | | |]; auto;
    intros ? es ds (F & D & _); repeat split; auto; discriminate.
Qed.

Lemma only_WrapError {A} (m : M A) (P : Event -> Prop) (V : A -> Prop) :
  produces m (only P V) -> produces (WrapError m) (only P V).
Proof.
  intros Hm. eapply produces_WrapError; [exact Hm | | |]; auto;
    intros ? es ds (F & D & _); repeat split; auto; discriminate.
Qed.

Lemma only_attempt {A} (m : M A) (P : Event -> Prop) :
  produces m (only P (fun _ => True)) ->
  produces (attempt m) (only P (fun _ => True)).
Proof.
  intros Hm s. destruct (Hm s) as (es & ds & E & F & D & _).
  unfold attempt. exists es, ds.
  destruct (m s) as [[a | e | msg] s1]; simpl in *; repeat split; auto.
Qed.

Lemma only_weaken {A} (m : M A) (P P' : Event -> Prop) (V V' : A -> Prop) :
  produces m (only P V) ->
  (forall e, P e -> P' e) -> (forall a, V a -> V' a) ->
  produces m (only P' V').
Proof.
  intros Hm HP HV. eapply produces_conseq; [exact Hm |].
  intros o es ds (F & D & v). repeat split.
  - eapply Forall_impl; [| exact F]. intros x. apply HP.
  - eapply Forall_impl; [| exact D]. intros d [H1 H2]. auto.
  - intros a E. apply HV, v, E.
Qed.

Ltac flags :=
  repeat match goal with
    | H : (_ =? _)%string = true |- _ => apply String.eqb_eq in H
    | H : (_ =? _)%string = false |- _ => apply String.eqb_neq in H
    | H : negb _ = true |- _ => apply negb_true_iff in H
    | H : negb _ = false |- _ => apply negb_false_iff in H
    | H : _ || _ = false |- _ => apply orb_false_iff in H; destruct H
    | H : _ && _ = true |- _ => apply andb_true_iff in H; destruct H
    end.

(** One step of a footprint proof: follow the shape of the code. *)
Ltac footstep :=
  match goal with
  | |- produces (bind _ _) (only _ _) => eapply only_bind; [| intros ? ?]
  | |- produces (Errorf _ _) (only _ _) => apply only_Errorf
  | |- produces (WrapError _) (only _ _) => apply only_WrapError
  | |- produces (attempt _) (only _ _) => apply only_attempt
  | |- produces (call ?W ?e) (only ?P _) =>
      apply (only_call W e P (fun _ => True)); [simpl | exact (fun _ => I)]
  | |- produces (ret _) (only _ _) => apply only_ret
  | |- produces (fail _) (only _ _) => apply only_fail
  | |- produces (panic _) (only _ _) => apply only_panic
  | |- produces (defer _) (only _ _) =>
      apply only_defer with (V := fun _ => True);
      [simpl | reflexivity | exact I]
  | |- produces (if ?b then _ else _) _ => destruct b eqn:?; flags
  | |- produces (match ?x with _ => _ end) _ => destruct x eqn:?
  end.

(** ** The calls of each block of [DoVerify] *)

Lemma keylessVerification_true keyRef sk :
  keylessVerification keyRef sk = true <-> keyRef = "" /\ sk = false.
Proof.
  unfold keylessVerification.
  destruct (keyRef =? "") eqn:E; simpl; flags.
  - destruct sk; split; intros H; try discriminate; auto.
    destruct H; discriminate.
  - split; [discriminate | intros [H _]; contradiction].
Qed.

Ltac settle :=
  unfold prepared, resolved in *; simpl in *;
  intuition (try congruence; auto).

Section Footprints.

Variable W : World.
Variable c : VerifyCommand.

Lemma loadIdentities_calls :
  produces (loadIdentities W c)
    (only (early_calls c) (fun ids => KeyRef c <> "" -> ids = [])).
Proof.
  unfold loadIdentities. footstep.
  - apply (only_call W (c_Identities _)); simpl; auto.
    intros a Hk. contradiction.
  - footstep. reflexivity.
Qed.

Lemma newCheckOpts_prepared ociremoteOpts identities :
  (KeyRef c <> "" -> identities = []) ->
  prepared c (newCheckOpts c ociremoteOpts identities).
Proof.
  intros H. unfold newCheckOpts, prepared.
  destruct (CheckClaims c); simpl; auto.
Qed.

Lemma setupRekor_calls co :
  prepared c co ->
  produces (setupRekor W c co) (only (rekor_calls c) (prepared c)).
Proof.
  intros Hco. unfold setupRekor. footstep; [| footstep; auto].
  eapply only_bind with (V1 := prepared c).
  - footstep.
    + repeat footstep; unfold rekor_calls; simpl; auto.
    + footstep. auto.
  - intros co1 H1. repeat footstep; unfold rekor_calls; simpl; auto.
Qed.

Lemma loadCertChainFromFileOrURL_calls (P : Event -> Prop) path :
  P (blob_LoadFileOrURL path) ->
  (forall pems, P (cryptoutils_LoadCertificatesFromPEM pems)) ->
  produces (loadCertChainFromFileOrURL W path) (only P (fun _ => True)).
Proof.
  intros H1 H2. unfold loadCertChainFromFileOrURL.
  repeat footstep; auto.
Qed.

Lemma loadCertFromFileOrURL_calls (P : Event -> Prop) path :
  P (blob_LoadFileOrURL path) ->
  (forall s, P (base64_DecodeString s)) ->
  (forall pems, P (cryptoutils_UnmarshalCertificatesFromPEM pems)) ->
  produces (loadCertFromFileOrURL W path) (only P (fun _ => True)).
Proof.
  intros H1 H2 H3. unfold loadCertFromFileOrURL, loadCertFromPEM.
  repeat footstep; auto.
Qed.

Lemma poolsFromChain_calls (P : Event -> Prop) chain co :
  KeyRef c = "" -> Sk c = false -> prepared c co ->
  produces (poolsFromChain chain co) (only P (prepared c)).
Proof.
  intros Hk Hs (H1 & H2 & H3). unfold poolsFromChain.
  assert (Hno : ~ (KeyRef c <> "" \/ Sk c = true)).
  { intros [H | H]; [contradiction | congruence]. }
  repeat footstep; settle.
Qed.

Lemma establishRoots_calls co :
  prepared c co ->
  produces (establishRoots W c co) (only (roots_calls c) (prepared c)).
Proof.
  intros Hco. unfold establishRoots.
  destruct (keylessVerification (KeyRef c) (Sk c)) eqn:K;
    [| footstep; exact Hco].
  apply keylessVerification_true in K. destruct K as [Hk Hs].
  assert (Hno : ~ (KeyRef c <> "" \/ Sk c = true)).
  { intros [H | H]; [contradiction | congruence]. }
  destruct Hco as (H1 & H2 & H3).
  footstep.
  - eapply only_bind.
    + apply loadCertChainFromFileOrURL_calls; unfold roots_calls; auto.
    + intros chain _. apply poolsFromChain_calls; unfold prepared; auto.
  - repeat footstep; unfold roots_calls; settle.
Qed.

Lemma setupCTLog_calls co :
  prepared c co ->
  produces (setupCTLog W c co) (only (ctlog_calls c) (prepared c)).
Proof.
  intros Hco. unfold setupCTLog.
  repeat footstep; unfold ctlog_calls; simpl; auto.
Qed.

Lemma verifierFromKeyRef_calls :
  KeyRef c <> "" ->
  produces (verifierFromKeyRef W c)
    (only (static_key_calls c) (fun _ => True)).
Proof.
  intros Hk. unfold verifierFromKeyRef.
  repeat footstep; unfold static_key_calls; simpl; auto.
Qed.

Lemma verifierFromToken_calls :
  KeyRef c = "" -> Sk c = true ->
  produces (verifierFromToken W c) (only (token_calls c) (fun _ => True)).
Proof.
  intros Hk Hs. unfold verifierFromToken.
  repeat footstep; unfold token_calls; simpl; auto.
Qed.

Lemma verifierFromCert_calls co :
  KeyRef c = "" -> Sk c = false -> CertRef c <> "" -> prepared c co ->
  produces (verifierFromCert W c co)
    (only (cert_calls c) (fun r => prepared c (fst r))).
Proof.
  intros Hk Hs Hr Hco. unfold verifierFromCert.
  assert (Hno : ~ (KeyRef c <> "" \/ Sk c = true)).
  { intros [H | H]; [contradiction | congruence]. }
  destruct Hco as (H1 & H2 & H3).
  eapply only_bind.
  { apply loadCertFromFileOrURL_calls; unfold cert_calls; auto 6. }
  intros cert _.
  eapply only_bind with (V1 := fun r => prepared c (fst r)).
  - footstep.
    + repeat footstep; unfold cert_calls; settle.
    + eapply only_bind.
      * apply loadCertChainFromFileOrURL_calls; unfold cert_calls; auto 7.
      * intros chain _.
        repeat footstep; unfold cert_calls, prepared; simpl; auto 7.
  - intros [co1 pubKey] (G1 & G2 & G3). simpl in *.
    repeat footstep; unfold cert_calls, prepared; simpl; auto 7.
Qed.

Lemma resolveVerifier_calls co :
  prepared c co ->
  produces (resolveVerifier W c co) (only (key_calls c) (resolved c)).
Proof.
  intros Hco. unfold resolveVerifier.
  eapply only_bind with
    (V1 := fun r => prepared c (fst r) /\
                    (snd r = None <->
                     KeyRef c = "" /\ Sk c = false /\ CertRef c = "")).
  - destruct (negb (KeyRef c =? "")) eqn:Ek; flags.
    { eapply only_bind.
      - eapply only_weaken; [apply verifierFromKeyRef_calls; auto | |].
        + unfold key_calls; auto.
        + intros a Ha; exact Ha.
      - intros pubKey _. footstep. simpl. split; [exact Hco |].
        split; [discriminate | intros (H & _); contradiction]. }
    destruct (Sk c) eqn:Es.
    { eapply only_bind.
      - eapply only_weaken; [apply verifierFromToken_calls; auto | |].
        + unfold key_calls; auto.
        + intros a Ha; exact Ha.
      - intros pubKey _. footstep. simpl. split; [exact Hco |].
        split; [discriminate | intros (_ & H & _); discriminate]. }
    destruct (negb (CertRef c =? "")) eqn:Er; flags.
    { eapply only_bind.
      - eapply only_weaken; [apply verifierFromCert_calls; eauto | |].
        + unfold key_calls; auto.
        + intros a Ha; exact Ha.
      - intros r Hr. footstep. simpl. split; [exact Hr |].
        split; [discriminate | intros (_ & _ & H); contradiction]. }
    footstep. simpl. split; [exact Hco |]. split; auto.
  - intros [co1 v] ((G1 & G2 & G3) & Hv). simpl in *.
    footstep. unfold resolved. simpl. auto.
Qed.

Lemma verifyImage_calls co ociremoteOpts img :
  produces (verifyImage W c co ociremoteOpts img)
    (only (image_calls c co ociremoteOpts) (fun _ => True)).
Proof.
  unfold verifyImage.
  repeat footstep; simpl; auto.
Qed.

Lemma verifyImages_calls co ociremoteOpts images :
  produces (verifyImages W c co ociremoteOpts images)
    (only (image_calls c co ociremoteOpts) (fun _ => True)).
Proof.
  induction images as [| img rest IH]; simpl.
  - footstep. exact I.
  - eapply only_bind; [apply verifyImage_calls | intros _ _; exact IH].
Qed.

End Footprints.

(** ** The whole invocation *)

Lemma run_unfold W c images :
  run W c images =
  if accepted c images
  then with_deferred (configure_and_verify W (defaulted c) images)
                     (start (defaulted c))
  else (Fail flag_ErrHelp, start c).
Proof.
  unfold run, DoVerify, accepted, with_deferred, checkArguments.
  unfold bind at 1. unfold get_cmd at 1. simpl cmd.
  unfold bind at 1.
  destruct (len images =? 0)%Z; simpl; [reflexivity |].
  destruct ((Attachment c =? "sbom") || (Attachment c =? "")); simpl;
    [| reflexivity].
  unfold bind at 1, defaultHashAlgorithm, defaulted, configure_and_verify.
  unfold bind at 1. unfold get_cmd at 1. simpl.
  destruct (HashAlgorithm c =? 0)%Z; reflexivity.
Qed.

Lemma accepted_true c images :
  accepted c images = true <->
  images <> [] /\ (Attachment c = "sbom" \/ Attachment c = "").
Proof.
  unfold accepted, len. rewrite andb_true_iff, negb_true_iff, orb_true_iff.
  rewrite !String.eqb_eq, Z.eqb_neq.
  destruct images; simpl; split; intros [H1 H2]; split; auto;
    try congruence; try lia.
Qed.

Lemma defaulted_HashAlgorithm c :
  HashAlgorithm (defaulted c) =
  if (HashAlgorithm c =? 0)%Z then crypto_SHA256 else HashAlgorithm c.
Proof. unfold defaulted. destruct (HashAlgorithm c =? 0)%Z; reflexivity. Qed.

Lemma defaulted_nonzero c : HashAlgorithm (defaulted c) <> 0%Z.
Proof.
  rewrite defaulted_HashAlgorithm.
  destruct (HashAlgorithm c =? 0)%Z eqn:E.
  - discriminate.
  - apply Z.eqb_neq. exact E.
Qed.

(** Every field but [HashAlgorithm] is the caller's. *)
Lemma defaulted_fields c :
  KeyRef (defaulted c) = KeyRef c /\ Sk (defaulted c) = Sk c /\
  CertRef (defaulted c) = CertRef c /\ CertChain (defaulted c) = CertChain c /\
  IgnoreTlog (defaulted c) = IgnoreTlog c /\
  IgnoreSCT (defaulted c) = IgnoreSCT c /\
  TSACertChainPath (defaulted c) = TSACertChainPath c /\
  RekorURL (defaulted c) = RekorURL c /\ Offline (defaulted c) = Offline c /\
  Attachment (defaulted c) = Attachment c.
Proof.
  unfold defaulted. destruct (HashAlgorithm c =? 0)%Z; simpl; repeat split.
Qed.

(** What [produces] says of an accepted invocation: the final trace is
    the calls made and then the deferred ones. *)
Lemma run_produces W c images Q :
  accepted c images = true ->
  produces (configure_and_verify W (defaulted c) images) Q ->
  exists o es ds,
    run W c images =
      (o, mkState (defaulted c)
                  (map (stamp (defaulted c)) es
                   ++ map (fun e => mkEntry (defaulted c) e None) ds) [])
    /\ Q o es ds.
Proof.
  intros Ha HQ. rewrite run_unfold, Ha. unfold with_deferred.
  destruct (HQ (start (defaulted c))) as (es & ds & E & q).
  destruct (configure_and_verify W (defaulted c) images (start (defaulted c)))
    as [o s']. simpl in E, q. subst s'.
  exists o, es, ds. split; [| exact q].
  unfold run_deferred. simpl. rewrite app_nil_r. reflexivity.
Qed.

Lemma configure_footprint W c :
  produces (configure W c)
    (only (configure_calls c)
          (fun r => TSACertChainPath c = "" /\ resolved c (fst r))).
Proof.
  unfold configure.
  eapply only_bind.
  { eapply only_weaken; [apply loadIdentities_calls | |].
    - unfold configure_calls; auto.
    - intros a Ha; exact Ha. }
  intros identities Hids.
  eapply only_bind.
  { apply only_Errorf.
    apply (only_call W (c_ClientOpts _) _ (fun _ => True)); [| auto].
    left. reflexivity. }
  intros ociremoteOpts _.
  pose proof (newCheckOpts_prepared c ociremoteOpts identities Hids) as Hco.
  unfold rejectTSACertChain.
  destruct (negb (TSACertChainPath c =? "")) eqn:Et; flags.
  { eapply only_bind; [apply only_fail with (V := fun _ => False) |].
    intros _ []. }
  eapply only_bind; [apply only_ret with (V := fun _ => True); exact I |].
  intros _ _.
  eapply only_bind.
  { eapply only_weaken; [apply setupRekor_calls; exact Hco | |].
    - unfold configure_calls, late_calls; intros; tauto.
    - intros a Ha; exact Ha. }
  intros co1 H1.
  eapply only_bind.
  { eapply only_weaken; [apply establishRoots_calls; exact H1 | |].
    - unfold configure_calls, late_calls; intros; tauto.
    - intros a Ha; exact Ha. }
  intros co2 H2.
  eapply only_bind.
  { eapply only_weaken; [apply setupCTLog_calls; exact H2 | |].
    - unfold configure_calls, late_calls; intros; tauto.
    - intros a Ha; exact Ha. }
  intros co3 H3.
  eapply only_bind.
  { eapply only_weaken; [apply resolveVerifier_calls; exact H3 | |].
    - unfold configure_calls, late_calls; intros; tauto.
    - intros a Ha; exact Ha. }
  intros co4 H4. apply only_ret. simpl. auto.
Qed.

Lemma configure_and_verify_footprint W c images :
  produces (configure_and_verify W c images)
           (only (run_calls c) (fun _ => True)).
Proof.
  unfold configure_and_verify.
  eapply only_bind.
  { eapply only_weaken; [apply configure_footprint | |].
    - unfold run_calls; auto.
    - intros a Ha; exact Ha. }
  intros [co opts] [Ht Hr]. simpl in *.
  eapply only_weaken; [apply verifyImages_calls | | auto].
  intros e He. right. split; [exact Ht |]. exists co, opts. auto.
Qed.

(** The footprint of an invocation: every entry of the final trace is
    stamped with the defaulted receiver and is one of the calls of
    [run_calls]. *)
Lemma run_footprint W c images en :
  In en (trace (snd (run W c images))) ->
  receiver en = defaulted c /\ run_calls (defaulted c) (event en).
Proof.
  destruct (accepted c images) eqn:Ha.
  - destruct (run_produces W c images _ Ha
                (configure_and_verify_footprint W (defaulted c) images))
      as (o & es & ds & E & F & D & _).
    rewrite E. simpl. rewrite in_app_iff, !in_map_iff.
    intros [(x & <- & Hx) | (e & <- & He)]; simpl; split; auto.
    + rewrite Forall_forall in F. apply F, Hx.
    + rewrite Forall_forall in D. apply D, He.
  - rewrite run_unfold, Ha. simpl. contradiction.
Qed.

Lemma run_cmd W c images :
  cmd (snd (run W c images)) = if accepted c images then defaulted c else c.
Proof.
  destruct (accepted c images) eqn:Ha.
  - destruct (run_produces W c images _ Ha
                (configure_and_verify_footprint W (defaulted c) images))
      as (o & es & ds & E & _).
    rewrite E. reflexivity.
  - rewrite run_unfold, Ha. reflexivity.
Qed.

(** Unfolds the footprint of an invocation at a call of a known shape. *)
Ltac footprint_at H :=
  unfold run_calls, configure_calls, late_calls, key_calls, early_calls,
    rekor_calls, roots_calls, ctlog_calls, static_key_calls, token_calls,
    cert_calls, image_calls in H;
  simpl in H.

Ltac break :=
  repeat match goal with
    | H : _ \/ _ |- _ => destruct H
    | H : _ /\ _ |- _ => destruct H
    | H : exists _, _ |- _ => destruct H
    | H : False |- _ => contradiction
    end.

(** ** The loop over the images *)

Lemma verifyImages_stops W c co opts pre img post s0 s1 s2 e :
  verifyImages W c co opts pre s0 = (Return tt, s1) ->
  verifyImage W c co opts img s1 = (Fail e, s2) ->
  verifyImages W c co opts (pre ++ img :: post) s0 = (Fail e, s2).
Proof.
  revert s0. induction pre as [| x pre IH]; intros s0 Hpre Himg; simpl in *.
  - injection Hpre as <-. apply bind_Fail. exact Himg.
  - apply bind_Return in Hpre. destruct Hpre as ([] & sx & Hx & Hrest).
    rewrite (bind_run _ _ _ _ _ Hx). apply IH; assumption.
Qed.

Lemma verifyImages_app W c co opts l1 l2 s :
  verifyImages W c co opts (l1 ++ l2) s =
  bind (verifyImages W c co opts l1)
       (fun _ => verifyImages W c co opts l2) s.
Proof.
  revert s. induction l1 as [| x l1 IH]; intros s; simpl.
  - reflexivity.
  - rewrite bind_assoc. apply bind_ext. intros _ s1. apply IH.
Qed.

Lemma verifyImages_Fail_more W c co opts images more s e s' :
  verifyImages W c co opts images s = (Fail e, s') ->
  verifyImages W c co opts (images ++ more) s = (Fail e, s').
Proof. intros H. rewrite verifyImages_app. apply bind_Fail. exact H. Qed.

Lemma accepted_more c images more :
  images <> [] -> accepted c (images ++ more) = accepted c images.
Proof.
  intros Hne. unfold accepted, len. destruct images; [contradiction |].
  reflexivity.
Qed.

(** ** Certificate pools *)

Lemma AddCert_In cert pool x :
  In x (AddCert cert pool) <-> In x pool \/ x = cert.
Proof.
  unfold AddCert. destruct (in_dec Certificate_eq_dec cert pool) as [Hin | Hn].
  - split; [auto | intros [H | ->]; assumption].
  - rewrite in_app_iff. simpl. intuition.
Qed.

Lemma AddCert_NoDup cert pool : NoDup pool -> NoDup (AddCert cert pool).
Proof.
  intros Hnd. unfold AddCert.
  destruct (in_dec Certificate_eq_dec cert pool) as [Hin | Hn]; [exact Hnd |].
  apply NoDup_app; [exact Hnd | repeat constructor; auto | ].
  intros x Hx [<- | []]. contradiction.
Qed.

Lemma fold_AddCert certs : forall pool,
  NoDup pool ->
  let p := fold_left (fun pool cert => AddCert cert pool) certs pool in
  NoDup p /\ (forall x, In x p <-> In x pool \/ In x certs) /\
  (NoDup (pool ++ certs) -> p = pool ++ certs).
Proof.
  induction certs as [| cert rest IH]; intros pool Hnd; simpl.
  - repeat split; auto; [intuition | rewrite app_nil_r; reflexivity].
  - destruct (IH (AddCert cert pool) (AddCert_NoDup cert pool Hnd))
      as (H1 & H2 & H3).
    repeat split; [exact H1 | | |].
    + intros Hx. apply H2 in Hx. rewrite AddCert_In in Hx. intuition.
    + intros Hx. apply H2. rewrite AddCert_In. intuition.
    + intros Hall.
      assert (Hn : ~ In cert pool).
      { apply NoDup_remove_2 in Hall. rewrite in_app_iff in Hall. tauto. }
      assert (E : AddCert cert pool = pool ++ [cert]).
      { unfold AddCert.
        destruct (in_dec Certificate_eq_dec cert pool); [contradiction | auto]. }
      rewrite H3; rewrite E, <- app_assoc; simpl; auto.
Qed.

Lemma pool_of_spec certs :
  NoDup (pool_of certs) /\
  (forall x, In x (pool_of certs) <-> In x certs) /\
  (NoDup certs -> pool_of certs = certs).
Proof.
  destruct (fold_AddCert certs [] (NoDup_nil _)) as (H1 & H2 & H3).
  repeat split; auto.
  - intros Hx. apply H2 in Hx. destruct Hx as [[] | Hx]; exact Hx.
  - intros Hx. apply H2. auto.
Qed.

Lemma index_last {A} (l : list A) (x : A) :
  index (l ++ [x]) (len (l ++ [x]) - 1) = Some x.
Proof.
  unfold index, len. rewrite length_app. simpl.
  destruct (Z.of_nat (length l + 1) - 1 <? 0)%Z eqn:E.
  - apply Z.ltb_lt in E. lia.
  - replace (Z.to_nat (Z.of_nat (length l + 1) - 1)) with (length l) by lia.
    rewrite nth_error_app2 by lia. rewrite Nat.sub_diag. reflexivity.
Qed.

Lemma slice_to_last {A} (l : list A) (x : A) :
  slice_to (l ++ [x]) (len (l ++ [x]) - 1) = l.
Proof.
  unfold slice_to, len. rewrite length_app. simpl.
  replace (Z.to_nat (Z.of_nat (length l + 1) - 1)) with (length l + 0)%nat
    by lia.
  rewrite firstn_app_2. simpl. apply app_nil_r.
Qed.

Lemma len_last_gt_1 {A} (l : list A) (x : A) :
  (len (l ++ [x]) >? 1)%Z = match l with [] => false | _ => true end.
Proof.
  unfold len. rewrite length_app. destruct l; simpl; [reflexivity |].
  apply Z.gtb_lt. lia.
Qed.

(** What [poolsFromChain] computes: it panics on an empty chain, and
    otherwise the last certificate is the root pool and the ones before
    it, if any, are the intermediate pool. *)
Lemma poolsFromChain_spec chain co s :
  match chain with
  | [] => exists msg, poolsFromChain chain co s = (Panic msg, s)
  | _ =>
      exists intermediates root,
        chain = intermediates ++ [root] /\
        poolsFromChain chain co s =
          (Return
             (match intermediates with
              | [] => set_RootCerts (Some [root]) co
              | _ => set_IntermediateCerts (Some (pool_of intermediates))
                       (set_RootCerts (Some [root]) co)
              end), s)
  end.
Proof.
  destruct chain as [| c0 rest].
  - eexists. reflexivity.
  - destruct (exists_last (l := c0 :: rest)) as (l & x & E); [discriminate |].
    rewrite E. exists l, x. split; [reflexivity |].
    unfold poolsFromChain. rewrite index_last, len_last_gt_1, slice_to_last.
    destruct l; reflexivity.
Qed.

(** ** From footprints back to single runs *)

Lemma extends_refl s : extends s s.
Proof. exists []. symmetry. apply app_nil_r. Qed.

Lemma extends_trans s1 s2 s3 : extends s1 s2 -> extends s2 s3 -> extends s1 s3.
Proof.
  intros [a Ha] [b Hb]. exists (a ++ b). rewrite Hb, Ha. symmetry. apply app_assoc.
Qed.

Lemma produces_extends {A} (m : M A) Q s o s' :
  produces m Q -> m s = (o, s') -> extends s s'.
Proof.
  intros Hm E. destruct (Hm s) as (es & ds & Es & _). rewrite E in Es.
  simpl in Es. subst s'. eexists. reflexivity.
Qed.

Lemma only_Return {A} (m : M A) P (V : A -> Prop) s a s' :
  produces m (only P V) -> m s = (Return a, s') -> V a.
Proof.
  intros Hm E. destruct (Hm s) as (es & ds & _ & _ & _ & v). rewrite E in v.
  apply v. reflexivity.
Qed.

Section Pools.

Variable W : World.
Variable c : VerifyCommand.

Lemma setupRekor_pools co :
  produces (setupRekor W c co) (only (fun _ => True) (same_pools co)).
Proof.
  unfold setupRekor. footstep; [| footstep; split; reflexivity].
  eapply only_bind with (V1 := same_pools co).
  - footstep; repeat footstep; unfold same_pools; simpl; auto.
  - intros co1 H1. repeat footstep; unfold same_pools in *; simpl; auto.
Qed.

Lemma setupCTLog_pools co :
  produces (setupCTLog W c co) (only (fun _ => True) (same_pools co)).
Proof.
  unfold setupCTLog. repeat footstep; unfold same_pools; simpl; auto.
Qed.

Lemma verifierFromCert_pools co :
  CertChain c <> "" ->
  produces (verifierFromCert W c co)
           (only (fun _ => True) (fun r => same_pools co (fst r))).
Proof.
  intros Hc. unfold verifierFromCert.
  apply String.eqb_neq in Hc. rewrite Hc.
  eapply only_bind; [apply loadCertFromFileOrURL_calls; auto |].
  intros cert _.
  eapply only_bind with (V1 := fun r => same_pools co (fst r)).
  - eapply only_bind; [apply loadCertChainFromFileOrURL_calls; auto |].
    intros chain _. repeat footstep; unfold same_pools; simpl; auto.
  - intros [co1 v] H1. simpl in H1.
    repeat footstep; unfold same_pools in *; simpl; auto.
Qed.

Lemma resolveVerifier_pools co :
  CertChain c <> "" ->
  produces (resolveVerifier W c co) (only (fun _ => True) (same_pools co)).
Proof.
  intros Hc. unfold resolveVerifier.
  eapply only_bind with (V1 := fun r => same_pools co (fst r)).
  - destruct (negb (KeyRef c =? "")) eqn:Ek; flags.
    { eapply only_bind.
      - eapply only_weaken; [apply verifierFromKeyRef_calls; auto | auto |].
        intros a Ha; exact Ha.
      - intros pubKey _. footstep. split; reflexivity. }
    destruct (Sk c) eqn:Es.
    { eapply only_bind.
      - eapply only_weaken; [apply verifierFromToken_calls; auto | auto |].
        intros a Ha; exact Ha.
      - intros pubKey _. footstep. split; reflexivity. }
    destruct (negb (CertRef c =? "")) eqn:Er; flags.
    { eapply only_bind; [apply verifierFromCert_pools; exact Hc |].
      intros r Hr. footstep. exact Hr. }
    footstep. split; reflexivity.
  - intros [co1 v] H1. simpl in H1. footstep.
    unfold same_pools in *. simpl. exact H1.
Qed.

End Pools.

(** ** A fetch that everything downstream waits for *)

Lemma closes_resolves e : closes e = true -> resolves_or_verifies e = true.
Proof. destruct e; simpl; auto; discriminate. Qed.

Section Fence.

(** The fetch and the prefix its error is wrapped with. *)
Variable g : Event.
Variable prefix : string.
Hypothesis g_upstream : resolves_or_verifies g = false.

Lemma upstream_only {A} (P : Event -> Prop) (V : A -> Prop) o es ds :
  upstream g P -> only P V o es ds ->
  ds = [] /\ (forall x, In x es -> fst x <> g /\
                                   resolves_or_verifies (fst x) = false).
Proof.
  intros Hup (F & D & _). split.
  - destruct ds as [| d ds]; [reflexivity |].
    apply Forall_inv in D. destruct D as [Hd Hc].
    apply closes_resolves in Hc. apply Hup in Hd. destruct Hd; congruence.
  - intros x Hx. rewrite Forall_forall in F. apply Hup, F, Hx.
Qed.

Lemma fenced_before {A B} (m : M A) (k : A -> M B) P V1 V :
  produces m (only P V1) -> upstream g P ->
  (forall a, V1 a -> produces (k a) (fenced g prefix V)) ->
  produces (bind m k) (fenced g prefix V).
Proof.
  intros Hm Hup Hk. eapply produces_bind; [exact Hm | | |].
  - intros a es1 ds1 H1.
    destruct (upstream_only _ _ _ _ _ Hup H1) as [-> Hes].
    destruct H1 as (_ & _ & v1).
    eapply produces_conseq; [apply Hk, v1; reflexivity |].
    intros o es2 ds2 (F1 & F2 & F3 & F4). rewrite app_nil_r.
    repeat split.
    + apply in_app_iff in H. destruct H as [H | H].
      * apply Hes in H. simpl in H. destruct H; congruence.
      * apply F1 in H. tauto.
    + apply in_app_iff in H. destruct H as [H | H].
      * apply Hes in H. simpl in H. destruct H; congruence.
      * apply F1 in H. destruct H as (_ & [pre E] & _).
        exists (es1 ++ pre). rewrite E. apply app_assoc.
    + apply in_app_iff in H. destruct H as [H | H].
      * apply Hes in H. simpl in H. destruct H; congruence.
      * apply F1 in H. tauto.
    + intros x Hx Hr. apply in_app_iff in Hx. apply in_app_iff.
      destruct Hx as [Hx | Hx].
      * apply Hes in Hx. destruct Hx; congruence.
      * right. eapply F2; eauto.
    + intros Hd. apply in_app_iff. right. auto.
    + apply in_app_iff. right. eapply F4; eauto.
    + eapply F4; eauto.
  - intros e es ds H1.
    destruct (upstream_only _ _ _ _ _ Hup H1) as [-> Hes].
    repeat split; try discriminate; try congruence;
      try (intros; exfalso;
           match goal with
           | H : In _ es |- _ => apply Hes in H; simpl in H; destruct H;
                                 congruence
           end).
  - intros msg es ds H1.
    destruct (upstream_only _ _ _ _ _ Hup H1) as [-> Hes].
    repeat split; try discriminate; try congruence;
      try (intros; exfalso;
           match goal with
           | H : In _ es |- _ => apply Hes in H; simpl in H; destruct H;
                                 congruence
           end).
Qed.

Lemma fenced_after {A B} (m : M A) (k : A -> M B) P V1 (V : B -> Prop) :
  produces m (fenced g prefix V1) ->
  (forall a, V1 a -> produces (k a) (only P V)) ->
  (forall e, P e -> e <> g) ->
  produces (bind m k) (fenced g prefix V).
Proof.
  intros Hm Hk HP. eapply produces_bind; [exact Hm | | |].
  - intros a es1 ds1 (F1 & F2 & F3 & F4).
    destruct (F4 a eq_refl) as [Hg v1].
    eapply produces_conseq; [apply Hk, v1 |].
    intros o es2 ds2 (O1 & O2 & O3).
    assert (Hin : In (g, None) (es1 ++ es2)) by (apply in_app_iff; auto).
    assert (Hno : forall err, ~ In (g, Some err) (es1 ++ es2)).
    { intros err H. apply in_app_iff in H. destruct H as [H | H].
      - apply F1 in H. destruct H as [H _]. discriminate.
      - rewrite Forall_forall in O1. apply O1 in H. simpl in H.
        apply HP in H. congruence. }
    repeat split; auto; try (intros; exfalso; eapply Hno; eassumption).
  - intros e es ds (F1 & F2 & F3 & F4).
    repeat split; auto; try discriminate;
      try (intros; match goal with
                   | H : In (g, Some _) es |- _ => apply F1 in H
                   end; intuition congruence).
  - intros msg es ds (F1 & F2 & F3 & F4).
    repeat split; auto; try discriminate;
      try (intros; match goal with
                   | H : In (g, Some _) es |- _ => apply F1 in H
                   end; intuition congruence).
Qed.

(** The fetch itself: [v, err = g(); if err != nil { return Errorf }]. *)
Lemma fenced_fetch W {B} (f : Answer g -> B) (V : B -> Prop) :
  (forall a, V (f a)) ->
  produces (bind (Errorf prefix (call W g)) (fun a => ret (f a))) (fenced g prefix V).
Proof.
  intros HV s. unfold bind, Errorf, call, ret.
  destruct (answer W (trace s) g) as [a | err]; simpl.
  - exists [(g, None)], []. split; [reflexivity |].
    split; [| split; [| split]]; simpl; auto.
    + intros err [H | []]. discriminate.
    + intros b E. injection E as <-. auto.
  - exists [(g, Some err)], []. split; [reflexivity |].
    split; [| split; [| split]]; simpl.
    + intros err' [H | []]. injection H as <-.
      split; [reflexivity |]. split; [exists []; reflexivity | reflexivity].
    + intros x [<- | []]. simpl. congruence.
    + congruence.
    + discriminate.
Qed.

End Fence.

(** Proves that the calls of a footprint are upstream of a fetch, or are
    not the fetch. *)
Ltac by_cases_on_event :=
  let e := fresh "e" in
  let He := fresh "He" in
  intros e He; destruct e; simpl in He; break;
  try contradiction; try discriminate;
  try (split; [discriminate | reflexivity]).

Section Fences.

Variable W : World.
Variable c : VerifyCommand.

Lemma early_upstream g :
  g = cosign_GetRekorPubs \/ g = cosign_GetCTLogPubs ->
  upstream g (early_calls c).
Proof. intros [-> | ->]; unfold early_calls; by_cases_on_event. Qed.

Lemma nothing_upstream g : upstream g (fun _ => False).
Proof. intros e []. Qed.

Lemma rejectTSACertChain_calls :
  produces (rejectTSACertChain c)
           (only (fun _ => False) (fun _ => TSACertChainPath c = "")).
Proof. unfold rejectTSACertChain. repeat footstep. assumption. Qed.

Lemma ClientOpts_calls :
  produces (Errorf "constructing client options: "
              (call W (c_ClientOpts (RegistryOptions c))))
           (only (early_calls c) (fun _ => True)).
Proof. repeat footstep. reflexivity. Qed.

Lemma setupRekor_fenced co :
  IgnoreTlog c = false -> prepared c co ->
  produces (setupRekor W c co) (fenced cosign_GetRekorPubs rekor_prefix (prepared c)).
Proof.
  intros Hi Hco. unfold setupRekor. rewrite Hi. simpl.
  eapply fenced_before with
    (P := fun e => match e with rekor_NewClient _ => True | _ => False end)
    (V1 := prepared c).
  - footstep; repeat footstep; auto.
  - by_cases_on_event.
  - intros co1 H1.
    apply (fenced_fetch cosign_GetRekorPubs rekor_prefix eq_refl W
             (fun keys => set_RekorPubKeys (Some keys) co1)).
    intros keys. exact H1.
Qed.

Lemma setupCTLog_fenced co :
  IgnoreSCT c = false -> prepared c co ->
  produces (setupCTLog W c co) (fenced cosign_GetCTLogPubs ctlog_prefix (prepared c)).
Proof.
  intros Hi Hco. unfold setupCTLog. rewrite Hi. simpl.
  apply (fenced_fetch cosign_GetCTLogPubs ctlog_prefix eq_refl W
           (fun keys => set_CTLogPubKeys (Some keys) co)).
  intros keys. exact Hco.
Qed.

(** Lines 176-243, after the Rekor keys. *)
Lemma after_rekor_calls co (opts : list remote_Option) :
  prepared c co ->
  produces (co <- establishRoots W c co ;;
            co <- setupCTLog W c co ;;
            co <- resolveVerifier W c co ;;
            (ret (co, opts) : M (CheckOpts * list remote_Option)))
           (only (fun e => roots_calls c e \/ ctlog_calls c e \/ key_calls c e)
                 (fun _ => True)).
Proof.
  intros Hco.
  eapply only_bind.
  { eapply only_weaken; [apply establishRoots_calls; exact Hco | |].
    - intros; tauto.
    - intros a Ha; exact Ha. }
  intros co2 H2.
  eapply only_bind.
  { eapply only_weaken; [apply setupCTLog_calls; exact H2 | |].
    - intros; tauto.
    - intros a Ha; exact Ha. }
  intros co3 H3.
  eapply only_bind.
  { eapply only_weaken; [apply resolveVerifier_calls; exact H3 | |].
    - intros; tauto.
    - intros a Ha; exact Ha. }
  intros co4 H4. apply only_ret. exact I.
Qed.

Lemma configure_fenced_rekor :
  IgnoreTlog c = false ->
  produces (configure W c) (fenced cosign_GetRekorPubs rekor_prefix (fun _ => True)).
Proof.
  intros Hi. unfold configure.
  eapply fenced_before;
    [apply loadIdentities_calls | apply early_upstream; auto |].
  intros ids Hids.
  eapply fenced_before;
    [apply ClientOpts_calls | apply early_upstream; auto |].
  intros opts _.
  pose proof (newCheckOpts_prepared c opts ids Hids) as Hco.
  eapply fenced_before;
    [apply rejectTSACertChain_calls | apply nothing_upstream |].
  intros _ _.
  eapply fenced_after;
    [apply setupRekor_fenced; assumption | |].
  - intros co1 H1. apply after_rekor_calls. exact H1.
  - unfold roots_calls, ctlog_calls, key_calls, static_key_calls, token_calls,
      cert_calls. by_cases_on_event.
Qed.

Lemma configure_fenced_ctlog :
  IgnoreSCT c = false ->
  produces (configure W c) (fenced cosign_GetCTLogPubs ctlog_prefix (fun _ => True)).
Proof.
  intros Hi. unfold configure.
  eapply fenced_before;
    [apply loadIdentities_calls | apply early_upstream; auto |].
  intros ids Hids.
  eapply fenced_before;
    [apply ClientOpts_calls | apply early_upstream; auto |].
  intros opts _.
  pose proof (newCheckOpts_prepared c opts ids Hids) as Hco.
  eapply fenced_before;
    [apply rejectTSACertChain_calls | apply nothing_upstream |].
  intros _ _.
  eapply fenced_before;
    [apply setupRekor_calls; exact Hco | |].
  { unfold rekor_calls. by_cases_on_event. }
  intros co1 H1.
  eapply fenced_before;
    [apply establishRoots_calls; exact H1 | |].
  { unfold roots_calls. by_cases_on_event. }
  intros co2 H2.
  eapply fenced_after;
    [apply setupCTLog_fenced; assumption | |].
  - intros co3 H3. eapply only_bind.
    + apply resolveVerifier_calls. exact H3.
    + intros co4 _. apply only_ret with (V := fun _ => True). exact I.
  - unfold key_calls, static_key_calls, token_calls, cert_calls.
    by_cases_on_event.
Qed.

Lemma configure_and_verify_fenced g prefix images :
  resolves_or_verifies g = false ->
  produces (configure W c) (fenced g prefix (fun _ => True)) ->
  produces (configure_and_verify W c images) (fenced g prefix (fun _ => True)).
Proof.
  intros Hg Hcfg. unfold configure_and_verify.
  eapply fenced_after with
    (P := fun e => exists co opts, image_calls c co opts e);
    [exact Hcfg | |].
  - intros r _. eapply only_weaken; [apply verifyImages_calls | | auto].
    intros e He. eauto.
  - destruct g; try discriminate; by_cases_on_event.
Qed.

End Fences.

Lemma run_fenced W c images g prefix :
  produces (configure_and_verify W (defaulted c) images)
           (fenced g prefix (fun _ => True)) ->
  fetched_or_fatal (run W c images) (defaulted c) g prefix.
Proof.
  intros Hf. destruct (accepted c images) eqn:Ha.
  - destruct (run_produces W c images _ Ha Hf)
      as (o & es & ds & E & F1 & F2 & F3 & F4).
    rewrite E. unfold fetched_or_fatal. simpl.
    assert (Hok : In (g, None) es ->
                  In (mkEntry (defaulted c) g None)
                     (map (stamp (defaulted c)) es
                      ++ map (fun e => mkEntry (defaulted c) e None) ds)).
    { intros H. apply in_app_iff. left.
      apply in_map_iff. exists (g, None). auto. }
    split; [| split].
    + intros ->. apply Hok. eapply F4. reflexivity.
    + intros err H. apply in_app_iff in H. destruct H as [H | H].
      * apply in_map_iff in H. destruct H as ([e f] & Ex & Hx).
        unfold stamp in Ex. simpl in Ex. injection Ex as -> ->.
        destruct (F1 err Hx) as (Eo & [pre Epre] & ->).
        split; [exact Eo |]. exists (map (stamp (defaulted c)) pre).
        rewrite Epre, map_app. simpl. rewrite app_nil_r. reflexivity.
      * apply in_map_iff in H. destruct H as (e & Ex & _). discriminate.
    + intros en H Hr. apply Hok. apply in_app_iff in H.
      destruct H as [H | H].
      * apply in_map_iff in H. destruct H as (x & <- & Hx).
        eapply F2; eauto.
      * apply F3. intros ->. contradiction.
  - rewrite run_unfold, Ha. unfold fetched_or_fatal. simpl.
    split; [discriminate | split; intros; contradiction].
Qed.

Lemma run_event_footprint W c images e :
  In e (events (run W c images)) -> run_calls (defaulted c) e.
Proof.
  unfold events. rewrite in_map_iff. intros (en & <- & Hin).
  apply run_footprint in Hin. tauto.
Qed.

Lemma fetched_event r c' g prefix :
  fetched_or_fatal r c' g prefix -> fst r = Return tt -> In g (events r).
Proof.
  intros (H & _) Hr. unfold events. apply in_map_iff.
  exists (mkEntry c' g None). auto.
Qed.

(** ** Key sources *)




(** ** Two facts about one computation *)

Lemma stamp_inj c es es' : map (stamp c) es = map (stamp c) es' -> es = es'.
Proof.
  revert es'. induction es as [| [e f] es IH]; destruct es' as [| [e' f'] es'];
    simpl; try discriminate; auto.
  intros H. injection H as He Hf Hes. subst. f_equal. auto.
Qed.

Lemma produces_and {A} (m : M A) (Q1 Q2 : Outcome A -> _ -> _ -> Prop) :
  produces m Q1 -> produces m Q2 ->
  produces m (fun o es ds => Q1 o es ds /\ Q2 o es ds).
Proof.
  intros H1 H2 s. destruct (H1 s) as (es & ds & E & q1).
  destruct (H2 s) as (es' & ds' & E' & q2).
  rewrite E in E'. injection E' as Et Ed.
  apply app_inv_head in Et. apply stamp_inj in Et.
  apply app_inv_tail in Ed. subst es' ds'.
  exists es, ds. auto.
Qed.

(** ** Errors are fatal *)

Section FailStop.

Variable c : VerifyCommand.

Lemma failstop_ret {A} (a : A) : produces (ret a) (failstop c).
Proof. apply produces_ret. constructor. Qed.

Lemma failstop_panic {A} msg : produces (@panic A msg) (failstop c).
Proof. apply produces_panic. constructor. Qed.

Lemma failstop_defer e : produces (defer e) (failstop c).
Proof. apply produces_defer. constructor. Qed.

Lemma failstop_fail {A} e :
  (e = TSA_not_supported /\ TSACertChainPath c <> "") \/
  (e = no_certs_found /\ KeyRef c = "" /\ Sk c = false /\ CertRef c <> "") ->
  produces (@fail A e) (failstop c).
Proof. intros H. apply produces_fail. left. split; [constructor | exact H]. Qed.

Lemma failstop_call W e :
  is_base64 e = false -> produces (call W e) (failstop c).
Proof.
  intros Hb. apply produces_call.
  - intros a. repeat constructor.
  - intros err. right. exists [], e, err. simpl.
    repeat split; auto. left. reflexivity.
Qed.

Lemma failstop_Errorf_call W prefix e :
  is_base64 e = false -> produces (Errorf prefix (call W e)) (failstop c).
Proof.
  intros Hb.
  apply produces_Errorf with
    (Q1 := fun o es ds =>
             match o with
             | Fail err => es = [(e, Some err)]
             | _ => Forall recovered es
             end).
  - apply produces_call; intros; [repeat constructor | reflexivity].
  - auto.
  - intros err es ds ->. right. exists [], e, err. simpl.
    repeat split; auto. right. left. exists prefix. reflexivity.
  - auto.
Qed.

Lemma failstop_WrapError_call W e :
  is_base64 e = false -> produces (WrapError (call W e)) (failstop c).
Proof.
  intros Hb.
  apply produces_WrapError with
    (Q1 := fun o es ds =>
             match o with
             | Fail err => es = [(e, Some err)]
             | _ => Forall recovered es
             end).
  - apply produces_call; intros; [repeat constructor | reflexivity].
  - auto.
  - intros err es ds ->. right. exists [], e, err. simpl.
    repeat split; auto. right. right. reflexivity.
  - auto.
Qed.

(** Lines 289-293: the error of the decoding is looked at and dropped. *)
Lemma failstop_base64 W text :
  produces (attempt (call W (base64_DecodeString text))) (failstop c).
Proof.
  intros s. unfold attempt, call.
  destruct (answer W (trace s) (base64_DecodeString text)) as [a | err].
  - exists [(base64_DecodeString text, None)], []. simpl.
    split; [reflexivity |]. repeat constructor.
  - exists [(base64_DecodeString text, Some err)], []. simpl.
    split; [reflexivity |]. constructor; [| constructor].
    right. reflexivity.
Qed.

Lemma failstop_more {A} (o : Outcome A) es1 es2 ds ds' :
  Forall recovered es1 -> (failstop c) o es2 ds -> (failstop c) o (es1 ++ es2) ds'.
Proof.
  intros H1. destruct o as [a | e' | msg]; simpl.
  - intros H2. apply Forall_app; auto.
  - intros [[H2 Hm] | (pre & ev & e & -> & Hp & Hb & Hw)].
    + left. split; [apply Forall_app; auto | exact Hm].
    + right. exists (es1 ++ pre), ev, e. rewrite app_assoc.
      repeat split; auto. apply Forall_app; auto.
  - intros H2. apply Forall_app; auto.
Qed.

Lemma failstop_bind {A B} (m : M A) (k : A -> M B) :
  produces m (failstop c) -> (forall a, produces (k a) (failstop c)) ->
  produces (bind m k) (failstop c).
Proof.
  intros Hm Hk. eapply produces_bind; [exact Hm | | |].
  - intros a es1 ds1 H1. eapply produces_conseq; [apply Hk |].
    intros o es2 ds2 H2. eapply failstop_more; eauto.
  - auto.
  - auto.
Qed.

End FailStop.

Ltac failstep :=
  match goal with
  | |- produces (bind _ _) (failstop _) => apply failstop_bind; [| intros ?]
  | |- produces (Errorf ?p (call ?W ?e)) (failstop ?c) =>
      apply (failstop_Errorf_call c W p e); reflexivity
  | |- produces (WrapError (call ?W ?e)) (failstop ?c) =>
      apply (failstop_WrapError_call c W e); reflexivity
  | |- produces (attempt (call ?W (base64_DecodeString ?t))) (failstop ?c) =>
      apply (failstop_base64 c W t)
  | |- produces (call ?W ?e) (failstop ?c) =>
      apply (failstop_call c W e); reflexivity
  | |- produces (ret _) (failstop _) => apply failstop_ret
  | |- produces (panic _) (failstop _) => apply failstop_panic
  | |- produces (defer _) (failstop _) => apply failstop_defer
  | |- produces (fail _) (failstop _) =>
      apply failstop_fail;
      first [ left; split; [reflexivity | assumption]
            | right; repeat split; assumption || reflexivity ]
  | |- produces (if ?b then _ else _) _ => destruct b eqn:?; flags
  | |- produces (match ?x with _ => _ end) _ => destruct x
  | |- produces (let (_, _) := ?x in _) _ => destruct x
  end.

Lemma verifyImages_failstop c' W c co opts images :
  produces (verifyImages W c co opts images) (failstop c').
Proof.
  induction images as [| img rest IH]; simpl.
  - failstep.
  - apply failstop_bind; [| intros _; exact IH].
    unfold verifyImage. repeat failstep.
Qed.

Lemma configure_failstop W c : produces (configure W c) (failstop c).
Proof.
  unfold configure, loadIdentities, rejectTSACertChain, setupRekor,
    establishRoots, setupCTLog, resolveVerifier, verifierFromKeyRef,
    verifierFromToken, verifierFromCert, poolsFromChain,
    loadCertFromFileOrURL, loadCertFromPEM, loadCertChainFromFileOrURL.
  repeat failstep.
Qed.

Lemma configure_and_verify_failstop W c images :
  produces (configure_and_verify W c images) (failstop c).
Proof.
  unfold configure_and_verify.
  apply failstop_bind; [apply configure_failstop |].
  intros r. apply verifyImages_failstop.
Qed.

(** The calls of an accepted invocation and what is deferred: the calls
    are fail-stop, what is deferred is a [Close] of the footprint. *)
Lemma run_failstop W c images :
  accepted c images = true ->
  exists o es ds,
    run W c images =
      (o, mkState (defaulted c)
                  (map (stamp (defaulted c)) es
                   ++ map (fun e => mkEntry (defaulted c) e None) ds) [])
    /\ failstop (defaulted c) o es ds
    /\ Forall (fun x => run_calls (defaulted c) (fst x)) es
    /\ Forall (fun d => run_calls (defaulted c) d /\ closes d = true) ds.
Proof.
  intros Ha.
  destruct (run_produces W c images _ Ha
              (produces_and _ _ _
                 (configure_and_verify_failstop W (defaulted c) images)
                 (configure_and_verify_footprint W (defaulted c) images)))
    as (o & es & ds & E & Hf & F & D & _).
  exists o, es, ds. auto.
Qed.

Lemma recovered_stamp c es :
  Forall recovered es ->
  Forall (fun en => failure en = None \/ is_base64 (event en) = true)
         (map (stamp c) es).
Proof.
  intros H. apply Forall_map. eapply Forall_impl; [| exact H].
  intros [e f] Hx. exact Hx.
Qed.

Lemma closing_entries c ds :
  Forall (fun d => run_calls c d /\ closes d = true) ds ->
  Forall (fun en => closes (event en) = true /\ failure en = None)
         (map (fun e => mkEntry c e None) ds).
Proof.
  intros H. apply Forall_map. eapply Forall_impl; [| exact H].
  simpl. intros d [_ Hd]. auto.
Qed.

Lemma produces_at {A} (m : M A) Q s o s' :
  produces m Q -> m s = (o, s') ->
  exists es ds,
    s' = mkState (cmd s) (trace s ++ map (stamp (cmd s)) es)
                 (ds ++ deferred s)
    /\ Q o es ds.
Proof.
  intros Hm E. destruct (Hm s) as (es & ds & Es & q). rewrite E in Es, q.
  exists es, ds. auto.
Qed.

(** ** The blocks that neither resolve a key nor verify an artifact *)

Ltac anystep :=
  match goal with
  | |- produces (bind _ _) (only _ _) =>
      eapply only_bind with (V1 := fun _ => True); [| intros ? _]
  | |- produces (let (_, _) := ?x in _) _ => destruct x
  | _ => footstep
  end.

Section Quiet.

Variable W : World.
Variable c : VerifyCommand.

Lemma loadIdentities_quiet : produces (loadIdentities W c) quiet.
Proof. unfold quiet, loadIdentities. repeat anystep; auto. Qed.

Lemma ClientOpts_quiet :
  produces (Errorf "constructing client options: "
              (call W (c_ClientOpts (RegistryOptions c)))) quiet.
Proof. unfold quiet. repeat anystep; auto. Qed.

Lemma rejectTSACertChain_quiet : produces (rejectTSACertChain c) quiet.
Proof. unfold quiet, rejectTSACertChain. repeat anystep; auto. Qed.

Lemma setupRekor_quiet co : produces (setupRekor W c co) quiet.
Proof. unfold quiet, setupRekor. repeat anystep; auto. Qed.



End Quiet.

Lemma quiet_nothing_deferred {A} (o : Outcome A) es ds :
  quiet o es ds -> ds = [].
Proof.
  intros (_ & D & _). destruct ds as [| d ds]; [reflexivity |].
  inversion D as [| ? ? [H1 H2]]. apply closes_resolves in H2. congruence.
Qed.

Lemma quiet_state {A} (m : M A) s o s' :
  produces m quiet -> m s = (o, s') ->
  cmd s' = cmd s /\ deferred s' = deferred s.
Proof.
  intros Hm E. destruct (produces_at m _ s o s' Hm E) as (es & ds & -> & q).
  apply quiet_nothing_deferred in q. subst ds. auto.
Qed.

(** ** Panics *)

Lemma bind_Panic {A B} (m : M A) (k : A -> M B) s msg s' :
  bind m k s = (Panic msg, s') ->
  m s = (Panic msg, s') \/
  exists a s1, m s = (Return a, s1) /\ k a s1 = (Panic msg, s').
Proof.
  unfold bind. destruct (m s) as [[a | e | p] s1]; intros H;
    try discriminate.
  - right. exists a, s1. auto.
  - left. injection H as -> ->. reflexivity.
Qed.

Lemma calm_ret {A} (a : A) : produces (ret a) calm.
Proof. apply produces_ret. discriminate. Qed.

Lemma calm_fail {A} e : produces (@fail A e) calm.
Proof. apply produces_fail. discriminate. Qed.

Lemma calm_defer e : produces (defer e) calm.
Proof. apply produces_defer. discriminate. Qed.

Lemma calm_call W e : produces (call W e) calm.
Proof. apply produces_call; discriminate. Qed.

Lemma calm_Errorf {A} prefix (m : M A) :
  produces m calm -> produces (Errorf prefix m) calm.
Proof.
  intros H. eapply produces_Errorf; [exact H | | |]; auto; discriminate.
Qed.

Lemma calm_WrapError {A} (m : M A) :
  produces m calm -> produces (WrapError m) calm.
Proof.
  intros H. eapply produces_WrapError; [exact H | | |]; auto; discriminate.
Qed.

Lemma calm_attempt {A} (m : M A) :
  produces m calm -> produces (attempt m) calm.
Proof.
  intros H s. destruct (H s) as (es & ds & E & q).
  unfold attempt. exists es, ds.
  destruct (m s) as [[a | e | msg] s1]; simpl in *; split; auto;
    intros msg' E'; try discriminate.
  apply (q msg). reflexivity.
Qed.

Lemma calm_bind {A B} (m : M A) (k : A -> M B) :
  produces m calm -> (forall a, produces (k a) calm) ->
  produces (bind m k) calm.
Proof.
  intros Hm Hk. eapply produces_bind; [exact Hm | | |].
  - intros a es1 ds1 _. eapply produces_conseq; [apply Hk |]. auto.
  - discriminate.
  - intros msg es ds H. exfalso. apply (H msg). reflexivity.
Qed.

Ltac calmstep :=
  match goal with
  | |- produces (bind _ _) calm => apply calm_bind; [| intros ?]
  | |- produces (Errorf _ _) calm => apply calm_Errorf
  | |- produces (WrapError _) calm => apply calm_WrapError
  | |- produces (attempt _) calm => apply calm_attempt
  | |- produces (call ?W ?e) calm => apply (calm_call W e)
  | |- produces (ret _) calm => apply calm_ret
  | |- produces (fail _) calm => apply calm_fail
  | |- produces (defer _) calm => apply calm_defer
  | |- produces (if ?b then _ else _) _ => destruct b
  | |- produces (match ?x with _ => _ end) _ => destruct x
  | |- produces (let (_, _) := ?x in _) _ => destruct x
  end.

Lemma calm_not_Panic {A} (m : M A) s msg s' :
  produces m calm -> m s <> (Panic msg, s').
Proof.
  intros Hm E. destruct (produces_at m _ s _ _ Hm E) as (es & ds & _ & q).
  apply (q msg). reflexivity.
Qed.

Section Calm.

Variable W : World.
Variable c : VerifyCommand.

Lemma loadIdentities_calm : produces (loadIdentities W c) calm.
Proof. unfold loadIdentities. repeat calmstep. Qed.

Lemma rejectTSACertChain_calm : produces (rejectTSACertChain c) calm.
Proof. unfold rejectTSACertChain. repeat calmstep. Qed.

Lemma setupRekor_calm co : produces (setupRekor W c co) calm.
Proof. unfold setupRekor. repeat calmstep. Qed.

Lemma setupCTLog_calm co : produces (setupCTLog W c co) calm.
Proof. unfold setupCTLog. repeat calmstep. Qed.

Lemma loadCertFromPEM_calm pems : produces (loadCertFromPEM W pems) calm.
Proof. unfold loadCertFromPEM. repeat calmstep. Qed.

Lemma loadCertFromFileOrURL_calm path :
  produces (loadCertFromFileOrURL W path) calm.
Proof.
  unfold loadCertFromFileOrURL. calmstep; [calmstep |].
  apply loadCertFromPEM_calm.
Qed.

Lemma loadCertChainFromFileOrURL_calm path :
  produces (loadCertChainFromFileOrURL W path) calm.
Proof. unfold loadCertChainFromFileOrURL. repeat calmstep. Qed.

Lemma resolveVerifier_calm co : produces (resolveVerifier W c co) calm.
Proof.
  unfold resolveVerifier, verifierFromKeyRef, verifierFromToken,
    verifierFromCert, loadCertFromFileOrURL, loadCertFromPEM,
    loadCertChainFromFileOrURL.
  repeat calmstep.
Qed.

Lemma verifyImages_calm co opts images :
  produces (verifyImages W c co opts images) calm.
Proof.
  induction images as [| img rest IH]; simpl.
  - calmstep.
  - apply calm_bind; [| intros _; exact IH].
    unfold verifyImage. repeat calmstep.
Qed.

(** The only [panic] of the code: line 153, on an empty chain. *)
Lemma poolsFromChain_Panic chain co s msg s' :
  poolsFromChain chain co s = (Panic msg, s') ->
  chain = [] /\ msg = index_out_of_range /\ s' = s.
Proof.
  intros E. pose proof (poolsFromChain_spec chain co s) as H.
  destruct chain as [| cert chain].
  - unfold poolsFromChain in E. simpl in E. unfold panic in E.
    injection E as <- <-. auto.
  - destruct H as (i & r & _ & H). rewrite H in E. discriminate.
Qed.

Lemma establishRoots_Panic co s msg s' :
  establishRoots W c co s = (Panic msg, s') ->
  KeyRef c = "" /\ Sk c = false /\ CertChain c <> "" /\
  msg = index_out_of_range /\
  exists pre pems,
    s' = mkState (cmd s)
           (pre ++ [mkEntry (cmd s) (cryptoutils_LoadCertificatesFromPEM pems)
                            None])
           (deferred s)
    /\ answer W pre (cryptoutils_LoadCertificatesFromPEM pems) = Ok [].
Proof.
  unfold establishRoots.
  destruct (keylessVerification (KeyRef c) (Sk c)) eqn:Ek;
    [| intros E; discriminate].
  apply keylessVerification_true in Ek. destruct Ek as [Ek Es].
  destruct (negb (CertChain c =? "")) eqn:Ec; flags.
  - intros E. apply bind_Panic in E.
    destruct E as [E | (chain & s1 & E1 & E2)].
    { exfalso. eapply calm_not_Panic;
        [apply loadCertChainFromFileOrURL_calm | exact E]. }
    apply poolsFromChain_Panic in E2. destruct E2 as (-> & -> & ->).
    repeat (split; [assumption || reflexivity |]).
    unfold loadCertChainFromFileOrURL, bind, call, ret in E1.
    destruct (answer W (trace s) (blob_LoadFileOrURL (CertChain c)))
      as [pems | err]; [| discriminate].
    simpl in E1.
    destruct (answer W
                (trace s ++ [mkEntry (cmd s) (blob_LoadFileOrURL (CertChain c))
                                     None])
                (cryptoutils_LoadCertificatesFromPEM pems))
      as [certs | err] eqn:Ea; [| discriminate].
    injection E1 as -> <-.
    eexists _, pems. split; [| exact Ea]. reflexivity.
  - intros E. exfalso. revert E. apply calm_not_Panic. repeat calmstep.
Qed.

Lemma configure_Panic s msg s' :
  configure W c s = (Panic msg, s') ->
  exists co s1,
    establishRoots W c co s1 = (Panic msg, s') /\
    cmd s1 = cmd s /\ deferred s1 = deferred s.
Proof.
  unfold configure. intros E.
  apply bind_Panic in E. destruct E as [E | (ids & s1 & E1 & E)].
  { exfalso. revert E. apply calm_not_Panic, loadIdentities_calm. }
  apply bind_Panic in E. destruct E as [E | (opts & s2 & E2 & E)].
  { exfalso. revert E. apply calm_not_Panic. repeat calmstep. }
  apply bind_Panic in E. destruct E as [E | (u & s3 & E3 & E)].
  { exfalso. revert E. apply calm_not_Panic, rejectTSACertChain_calm. }
  apply bind_Panic in E. destruct E as [E | (co1 & s4 & E4 & E)].
  { exfalso. revert E. apply calm_not_Panic, setupRekor_calm. }
  apply bind_Panic in E. destruct E as [E | (co2 & s5 & E5 & E)].
  - exists co1, s4. split; [exact E |].
    destruct (quiet_state _ _ _ _ (loadIdentities_quiet W c) E1) as [C1 D1].
    destruct (quiet_state _ _ _ _ (ClientOpts_quiet W c) E2) as [C2 D2].
    destruct (quiet_state _ _ _ _ (rejectTSACertChain_quiet c) E3) as [C3 D3].
    destruct (quiet_state _ _ _ _ (setupRekor_quiet W c _) E4) as [C4 D4].
    split; congruence.
  - exfalso. apply bind_Panic in E. destruct E as [E | (co3 & s6 & E6 & E)].
    { revert E. apply calm_not_Panic, setupCTLog_calm. }
    apply bind_Panic in E. destruct E as [E | (co4 & s7 & E7 & E)].
    { revert E. apply calm_not_Panic, resolveVerifier_calm. }
    discriminate.
Qed.

End Calm.

(** ** Key handles *)

Lemma closes_handles e : closes e = true -> handles e = true.
Proof. destruct e; simpl; auto. Qed.

Lemma not_handled (es : list Call) x :
  Forall (fun y => handles (fst y) = false) es ->
  handles (fst x) = true -> ~ In x es.
Proof.
  intros F Hx Hin. rewrite Forall_forall in F. apply F in Hin. congruence.
Qed.

Lemma released_nothing es :
  Forall (fun y => handles (fst y) = false) es -> released es [].
Proof.
  intros F. unfold released. split; [| split; [| split; [| split; [| split]]]].
  - eapply Forall_impl; [| exact F]. intros x Hx.
    destruct (closes (fst x)) eqn:E; [| reflexivity].
    apply closes_handles in E. congruence.
  - constructor.
  - simpl. lia.
  - split.
    + intros (sk & []).
    + intros (slot & Hin). exfalso. revert Hin. apply not_handled; auto.
  - intros sk f Hin. exfalso. revert Hin. apply not_handled; auto.
  - intros k [].
Qed.


Lemma quiet_not_handled {A} (o : Outcome A) es ds :
  quiet o es ds -> Forall (fun y => handles (fst y) = false) es.
Proof.
  intros (F & _). eapply Forall_impl; [| exact F].
  intros [e f]. simpl. destruct e; simpl; auto; discriminate.
Qed.

Lemma releasing_quiet {A} (m : M A) :
  produces m quiet -> produces m releasing.
Proof.
  intros Hm. eapply produces_conseq; [exact Hm |].
  intros o es ds q. pose proof (quiet_nothing_deferred _ _ _ q) as ->.
  apply released_nothing. eapply quiet_not_handled, q.
Qed.



Section Handles.

Variable W : World.
Variable c : VerifyCommand.









End Handles.

(** ** The passes of the loop *)

Lemma started_app es1 es2 : started (es1 ++ es2) = started es1 ++ started es2.
Proof. apply flat_map_app. Qed.

Lemma checked_app es1 es2 : checked (es1 ++ es2) = checked es1 ++ checked es2.
Proof. apply flat_map_app. Qed.

(** One call, made whatever it answers. *)
Lemma call_made W e :
  produces (call W e) (fun o es ds => map fst es = [e] /\ ds = []).
Proof. apply produces_call; auto. Qed.

Lemma Errorf_call_made W prefix e :
  produces (Errorf prefix (call W e))
           (fun o es ds => map fst es = [e] /\ ds = []).
Proof. eapply produces_Errorf; [apply call_made | | |]; auto. Qed.

Lemma WrapError_call_made W e :
  produces (WrapError (call W e))
           (fun o es ds => map fst es = [e] /\ ds = []).
Proof. eapply produces_WrapError; [apply call_made | | |]; auto. Qed.

Ltac made :=
  match goal with
  | |- produces (call ?W ?e) _ => apply (call_made W e)
  | |- produces (Errorf ?p (call ?W ?e)) _ => apply (Errorf_call_made W p e)
  | |- produces (WrapError (call ?W ?e)) _ => apply (WrapError_call_made W e)
  end.

Section Loop.

Variable W : World.
Variable c : VerifyCommand.
Variable co : CheckOpts.
Variable ociremoteOpts : list remote_Option.

(** One pass: lines 254-273. *)
Lemma verifyImage_pass img :
  produces (verifyImage W c co ociremoteOpts img)
    (fun o es ds =>
       started (map fst es) = [img] /\
       exists n, checked (map fst es) = repeat co n /\ (n <= 1)%nat /\
                 (forall a, o = Return a -> n = 1%nat)).
Proof.
  unfold verifyImage. destruct (LocalImage c).
  - eapply produces_conseq; [made |].
    intros o es ds [-> _]. split; [reflexivity |].
    exists 1%nat. auto.
  - eapply produces_bind; [made | | |].
    + intros ref es1 ds1 [E1 _].
      eapply produces_bind; [made | | |].
      * intros ref' es2 ds2 [E2 _].
        eapply produces_conseq; [made |].
        intros o es3 ds3 [E3 _]. unfold Call in *; rewrite !map_app, E1, E2, E3.
        split; [reflexivity |]. exists 1%nat. auto.
      * intros e es2 ds2 [E2 _]. unfold Call in *; rewrite !map_app, E1, E2.
        split; [reflexivity |]. exists 0%nat.
        repeat split; auto. discriminate.
      * intros msg es2 ds2 [E2 _]. unfold Call in *; rewrite !map_app, E1, E2.
        split; [reflexivity |]. exists 0%nat.
        repeat split; auto. discriminate.
    + intros e es ds [-> _]. split; [reflexivity |]. exists 0%nat.
      repeat split; auto. discriminate.
    + intros msg es ds [-> _]. split; [reflexivity |]. exists 0%nat.
      repeat split; auto. discriminate.
Qed.

Lemma verifyImages_looping images :
  produces (verifyImages W c co ociremoteOpts images) (looping co images).
Proof.
  induction images as [| img images IH]; simpl.
  - apply produces_ret. exists [], 0%nat. simpl. auto.
  - eapply produces_bind; [apply verifyImage_pass | | |].
    + intros [] es1 ds1 (S1 & n1 & C1 & L1 & R1).
      specialize (R1 tt eq_refl). subst n1.
      eapply produces_conseq; [exact IH |].
      intros o es2 ds2 (rest & n & S2 & C2 & L2 & R2).
      exists rest, (S n).
      unfold Call in *; rewrite map_app, started_app, checked_app, S1, C1, C2. simpl.
      split; [congruence |]. split; [reflexivity |].
      split; [lia |]. intros a Ho. destruct (R2 a Ho) as [-> ->]. auto.
    + intros e es ds (S1 & n1 & C1 & L1 & _).
      exists images, n1. rewrite S1. simpl.
      repeat split; auto; discriminate.
    + intros msg es ds (S1 & n1 & C1 & L1 & _).
      exists images, n1. rewrite S1. simpl.
      repeat split; auto; discriminate.
Qed.

End Loop.

Lemma configure_calls_not_loop c e :
  configure_calls c e ->
  started [e] = [] /\ checked [e] = [].
Proof.
  intros H. destruct e; simpl; auto; footprint_at H; exfalso; break;
    assumption.
Qed.

Lemma closes_not_loop e :
  closes e = true -> started [e] = [] /\ checked [e] = [].
Proof. destruct e; simpl; auto; discriminate. Qed.

Lemma not_loop (P : Event -> Prop) es :
  (forall e, P e -> started [e] = [] /\ checked [e] = []) ->
  Forall P es -> started es = [] /\ checked es = [].
Proof.
  intros HP F. induction F as [| e es He F [IH1 IH2]]; [auto |].
  change (e :: es) with ([e] ++ es).
  rewrite started_app, checked_app, IH1, IH2.
  destruct (HP e He) as [-> ->]. auto.
Qed.

Lemma configure_and_verify_looping W c images :
  produces (configure_and_verify W c images)
    (fun o es ds =>
       (exists co, looping co images o es ds) /\
       Forall (fun d => closes d = true) ds).
Proof.
  assert (Hq : forall es, Forall (fun x : Call => configure_calls c (fst x)) es ->
                 started (map fst es) = [] /\ checked (map fst es) = []).
  { intros es F. apply (not_loop (configure_calls c));
      [apply configure_calls_not_loop |].
    apply Forall_map. exact F. }
  assert (Hf : forall {A} (o : Outcome A) (o' : Outcome unit) es ds,
                 (forall a, o' <> Return a) ->
                 only (configure_calls c) (fun _ : A => True) o es ds ->
                 (exists co, looping co images o' es ds) /\
                 Forall (fun d => closes d = true) ds).
  { intros A o o' es ds Ho (F & D & _). destruct (Hq es F) as [S1 C1]. split.
    - exists (newCheckOpts c [] []), images, 0%nat. rewrite S1, C1. simpl.
      split; [reflexivity |]. split; [reflexivity |]. split; [lia |].
      intros a E. destruct (Ho a E).
    - eapply Forall_impl; [| exact D]. simpl. tauto. }
  unfold configure_and_verify.
  eapply produces_bind;
    [apply (only_weaken _ _ (configure_calls c) _ (fun _ => True)
              (configure_footprint W c) (fun e H => H) (fun _ _ => I)) | | |].
  - intros [co opts] es1 ds1 (F1 & D1 & _). simpl.
    destruct (Hq es1 F1) as [S1 C1].
    eapply produces_conseq;
      [apply (produces_and _ _ _ (verifyImages_looping W c co opts images)
                (verifyImages_calls W c co opts images)) |].
    intros o es2 ds2 [(rest & n & S2 & C2 & L2 & R2) (_ & D2 & _)].
    split.
    + exists co, rest, n.
      unfold Call in *; rewrite map_app, started_app, checked_app, S1, C1.
      simpl. auto.
    + apply Forall_app. split.
      * eapply Forall_impl; [| exact D2]. simpl. tauto.
      * eapply Forall_impl; [| exact D1]. simpl. tauto.
  - intros e es ds H. eapply Hf; [discriminate | exact H].
  - intros msg es ds H. eapply Hf; [discriminate | exact H].
Qed.

Lemma started_events c es ds :
  Forall (fun d => closes d = true) ds ->
  started (map event (map (stamp c) es
                      ++ map (fun e => mkEntry c e None) ds))
  = started (map fst es) /\
  checked (map event (map (stamp c) es
                      ++ map (fun e => mkEntry c e None) ds))
  = checked (map fst es).
Proof.
  intros D. rewrite map_app, !map_map. simpl. rewrite map_id.
  rewrite started_app, checked_app.
  destruct (not_loop (fun d => closes d = true) ds closes_not_loop D)
    as [-> ->].
  rewrite !app_nil_r.
  change (fun x : Call => fst x) with (@fst Event (option error)). auto.
Qed.

(** ** The check options *)

Ltac furnish :=
  unfold configured, furnished, sparing, mirrors in *; simpl in *;
  intuition (try congruence; try discriminate).

(** A call that is given no check options, or given furnished ones. *)
Ltac passed :=
  split; [reflexivity |];
  let co := fresh "co" in let E := fresh "E" in
  intros co E; simpl in E; try discriminate;
  injection E as <-; furnish.

Ltac optstep :=
  match goal with
  | |- produces (bind _ _) (only _ _) =>
      eapply only_bind with (V1 := fun _ => True); [| intros ? _]
  | |- produces (call ?W ?e) (only ?P _) =>
      apply (only_call W e P (fun _ => True)); [passed | exact (fun _ => I)]
  | |- produces (defer _) (only _ _) =>
      apply only_defer with (V := fun _ => True);
      [passed | reflexivity | exact I]
  | |- produces (let (_, _) := ?x in _) _ => destruct x
  | _ => footstep
  end.

Section Options.

Variable W : World.
Variable c : VerifyCommand.
Variable ociremoteOpts : list remote_Option.

Lemma newCheckOpts_furnished identities :
  furnished false false c ociremoteOpts
            (newCheckOpts c ociremoteOpts identities).
Proof.
  unfold newCheckOpts, furnished, sparing, mirrors.
  destruct (CheckClaims c); simpl;
    intuition (try congruence; try discriminate).
Qed.

Lemma setupRekor_furnished co :
  furnished false false c ociremoteOpts co ->
  produces (setupRekor W c co)
    (only (passes_on c) (furnished true false c ociremoteOpts)).
Proof.
  intros Hco. unfold setupRekor.
  destruct (negb (IgnoreTlog c)) eqn:Et; flags.
  - eapply only_bind with
      (V1 := fun co' => furnished false false c ociremoteOpts co' /\
                        (RekorURL c <> "" -> co_RekorClient co' <> None)).
    + destruct (negb (RekorURL c =? "")) eqn:Eu; flags.
      * optstep; [repeat optstep |]. apply only_ret. furnish.
      * apply only_ret. split; [exact Hco | contradiction].
    + intros co' [H1 H2]. optstep; [repeat optstep |].
      apply only_ret. furnish.
  - apply only_ret. furnish.
Qed.

Lemma establishRoots_furnished rekor ct co :
  furnished rekor ct c ociremoteOpts co ->
  produces (establishRoots W c co)
    (only (passes_on c) (furnished rekor ct c ociremoteOpts)).
Proof.
  intros Hco.
  unfold establishRoots, loadCertChainFromFileOrURL, poolsFromChain.
  repeat optstep; furnish.
Qed.

Lemma setupCTLog_furnished co :
  furnished true false c ociremoteOpts co ->
  produces (setupCTLog W c co)
    (only (passes_on c) (furnished true true c ociremoteOpts)).
Proof.
  intros Hco. unfold setupCTLog. repeat optstep; furnish.
Qed.

Lemma verifierFromCert_configured co :
  KeyRef c = "" -> Sk c = false -> CertRef c <> "" ->
  furnished true true c ociremoteOpts co ->
  produces (verifierFromCert W c co)
    (only (passes_on c) (fun r => configured c ociremoteOpts (fst r))).
Proof.
  intros Hk Hs Hr Hco.
  unfold verifierFromCert, loadCertFromFileOrURL, loadCertFromPEM,
    loadCertChainFromFileOrURL.
  optstep; [repeat optstep; exact I |].
  eapply only_bind with
    (V1 := fun r => furnished true true c ociremoteOpts (fst r)).
  - repeat optstep; furnish.
  - intros [co' pubKey] Hco'. simpl in Hco'.
    repeat optstep; furnish.
Qed.

Lemma resolveVerifier_configured co :
  furnished true true c ociremoteOpts co ->
  produces (resolveVerifier W c co)
    (only (passes_on c) (configured c ociremoteOpts)).
Proof.
  intros Hco. unfold resolveVerifier.
  eapply only_bind with
    (V1 := fun r => configured c ociremoteOpts (fst r)).
  - destruct (negb (KeyRef c =? "")) eqn:Ek; flags.
    { unfold verifierFromKeyRef. repeat optstep; try exact I; furnish. }
    destruct (Sk c) eqn:Es.
    { unfold verifierFromToken. repeat optstep; try exact I; furnish. }
    destruct (negb (CertRef c =? "")) eqn:Er; flags.
    + eapply only_bind; [apply verifierFromCert_configured; auto |].
      intros [co' pubKey] Hco'. apply only_ret. exact Hco'.
    + apply only_ret. furnish.
  - intros [co' pubKey] Hco'. apply only_ret. furnish.
Qed.

End Options.

Lemma configure_configured W c :
  produces (configure W c)
    (only (passes_on c) (fun r => configured c (snd r) (fst r))).
Proof.
  unfold configure.
  optstep; [unfold loadIdentities; repeat optstep; exact I |].
  optstep; [repeat optstep |].
  optstep; [unfold rejectTSACertChain; repeat optstep; exact I |].
  eapply only_bind;
    [apply setupRekor_furnished, newCheckOpts_furnished | intros co1 H1].
  eapply only_bind; [apply establishRoots_furnished, H1 | intros co2 H2].
  eapply only_bind; [apply setupCTLog_furnished, H2 | intros co3 H3].
  eapply only_bind; [apply resolveVerifier_configured, H3 | intros co4 H4].
  apply only_ret. exact H4.
Qed.

Lemma passes_on_hands_over c opts e : passes_on c e -> hands_over c opts e.
Proof.
  intros [Hl Hm]. split; [exact Hm |].
  split; [| intros ref a o ->; discriminate].
  intros co E. destruct e; simpl in *; discriminate.
Qed.

Lemma closes_hands_over c opts e : closes e = true -> hands_over c opts e.
Proof.
  intros Hc. destruct e; try discriminate;
    (split; [| split]); intros; discriminate.
Qed.

Lemma image_calls_hands_over c co opts e :
  configured c opts co -> image_calls c co opts e -> hands_over c opts e.
Proof.
  intros Hco He.
  destruct e; simpl in He; try contradiction; (split; [| split]);
    simpl; intros; try discriminate.
  - destruct He as [_ ->].
    match goal with H : Some _ = Some _ |- _ => injection H as <- end.
    apply Hco.
  - destruct He as [_ ->].
    match goal with H : Some _ = Some _ |- _ => injection H as <- end.
    exact Hco.
  - match goal with H : _ = sign_GetAttachedImageRef _ _ _ |- _ =>
      injection H as <- <- <- end.
    tauto.
  - destruct He as [_ ->].
    match goal with H : Some _ = Some _ |- _ => injection H as <- end.
    apply Hco.
  - destruct He as [_ ->].
    match goal with H : Some _ = Some _ |- _ => injection H as <- end.
    exact Hco.
Qed.

Lemma configure_and_verify_hands_over W c images :
  produces (configure_and_verify W c images)
    (fun o es ds =>
       exists opts,
         Forall (fun x => hands_over c opts (fst x)) es /\
         Forall (hands_over c opts) ds).
Proof.
  assert (Hf : forall {A} (o : Outcome A) es ds,
            only (passes_on c) (fun _ : A => True) o es ds ->
            forall opts,
              Forall (fun x : Call => hands_over c opts (fst x)) es /\
              Forall (hands_over c opts) ds).
  { intros A o es ds (F & D & _) opts. split.
    - eapply Forall_impl; [| exact F]. intros x.
      apply passes_on_hands_over.
    - eapply Forall_impl; [| exact D]. intros d [_ Hd].
      apply closes_hands_over, Hd. }
  unfold configure_and_verify.
  eapply produces_bind; [apply configure_configured | | |].
  - intros [co opts] es1 ds1 H1.
    destruct H1 as (F1 & D1 & V1). specialize (V1 _ eq_refl). simpl in *.
    destruct (Hf _ (@Fail unit flag_ErrHelp) es1 ds1) with (opts := opts)
      as [F1' D1'].
    { split; [exact F1 |]. split; [exact D1 |]. auto. }
    eapply produces_conseq; [apply verifyImages_calls |].
    intros o es2 ds2 (F2 & D2 & _). exists opts. split.
    + apply Forall_app. split; [exact F1' |].
      eapply Forall_impl; [| exact F2]. intros x.
      apply image_calls_hands_over, V1.
    + apply Forall_app. split; [| exact D1'].
      eapply Forall_impl; [| exact D2]. intros d [_ Hd].
      apply closes_hands_over, Hd.
  - intros e es ds (F & D & _). exists [].
    apply (Hf _ (@Fail unit e)). split; [exact F |]. split; [exact D |]. auto.
  - intros msg es ds (F & D & _). exists [].
    apply (Hf _ (@Fail unit flag_ErrHelp)).
    split; [exact F |]. split; [exact D |]. auto.
Qed.

Lemma hands_over_defaulted c opts e :
  hands_over (defaulted c) opts e -> hands_over c opts e.
Proof.
  unfold defaulted. destruct (HashAlgorithm c =? 0)%Z; [| auto].
  unfold hands_over, configured, furnished, sparing, mirrors. simpl. auto.
Qed.

(** What the events of an invocation are handed. *)
Lemma run_hands_over W c images :
  exists opts,
    forall e, In e (events (run W c images)) -> hands_over c opts e.
Proof.
  destruct (accepted c images) eqn:Ha.
  2:{ exists []. rewrite run_unfold, Ha. intros e []. }
  destruct (run_produces W c images _ Ha
              (configure_and_verify_hands_over W (defaulted c) images))
    as (o & es & ds & E & opts & F & D).
  exists opts. rewrite E. unfold events. simpl.
  intros e Hin. apply hands_over_defaulted.
  rewrite map_app, in_app_iff, !map_map in Hin. simpl in Hin.
  rewrite map_id in Hin. destruct Hin as [Hin | Hin].
  - apply in_map_iff in Hin. destruct Hin as (x & <- & Hx).
    rewrite Forall_forall in F. apply F, Hx.
  - rewrite Forall_forall in D. apply D, Hin.
Qed.

(** ** Which calls an invocation can make *)

Lemma defaulted_loop_fields c :
  LocalImage (defaulted c) = LocalImage c /\
  NameOptions (defaulted c) = NameOptions c /\
  Attachment (defaulted c) = Attachment c.
Proof.
  unfold defaulted. destruct (HashAlgorithm c =? 0)%Z; simpl; auto.
Qed.

(** ** The first call *)

Lemma first_call_call W e : produces (call W e) (first_call e (fun err => err)).
Proof.
  apply produces_call.
  - intros a. exists None, []. split; [reflexivity |]. discriminate.
  - intros err. exists (Some err), []. split; [reflexivity |].
    intros ? E. injection E as <-. auto.
Qed.

Lemma first_call_Errorf W prefix e :
  produces (Errorf prefix (call W e)) (first_call e (fmt_Errorf prefix)).
Proof.
  apply produces_Errorf with
    (Q1 := fun o es ds =>
             ds = [] /\
             ((exists a, o = Return a /\ es = [(e, None)]) \/
              (exists err, o = Fail err /\ es = [(e, Some err)]))).
  - apply produces_call; intros; split; eauto.
  - intros a es ds [-> [(a' & _ & ->) | (err & E & _)]]; [| discriminate].
    exists None, []. split; [reflexivity |]. discriminate.
  - intros err es ds [-> [(a' & E & _) | (err' & E & ->)]]; [discriminate |].
    injection E as <-.
    exists (Some err), []. split; [reflexivity |].
    intros ? E. injection E as <-. auto.
  - intros msg es ds [_ [(a' & E & _) | (err' & E & _)]]; discriminate.
Qed.

Lemma first_call_bind {A B} (m : M A) (k : A -> M B) e0 w :
  produces m (first_call e0 w) ->
  (forall a, produces (k a) (only (fun _ => True) (fun _ => True))) ->
  produces (bind m k) (first_call e0 w).
Proof.
  intros Hm Hk. eapply produces_bind; [exact Hm | | |].
  - intros a es1 ds1 (f & rest & -> & Hf).
    eapply produces_conseq; [apply Hk |].
    intros o es2 ds2 _. exists f, (rest ++ es2). split; [reflexivity |].
    intros err Hs. destruct (Hf err Hs) as (_ & _ & E). discriminate.
  - intros e es ds (f & rest & -> & Hf). exists f, rest.
    split; [reflexivity |]. intros err Hs.
    destruct (Hf err Hs) as (-> & -> & E). injection E as ->. auto.
  - intros msg es ds (f & rest & -> & Hf). exists f, rest.
    split; [reflexivity |]. intros err Hs.
    destruct (Hf err Hs) as (_ & _ & E). discriminate.
Qed.

Lemma produces_after_ret {A B} (a : A) (k : A -> M B) Q :
  produces (k a) Q -> produces (bind (ret a) k) Q.
Proof. intros H s. exact (H s). Qed.

Lemma verifyImages_any W c co opts images :
  produces (verifyImages W c co opts images)
           (only (fun _ => True) (fun _ => True)).
Proof.
  eapply only_weaken; [apply verifyImages_calls | auto | auto].
Qed.

Lemma configure_opening W c :
  produces (configure W c) (first_call (opening_call c) (opening_error c)).
Proof.
  assert (Hrest : forall ociremoteOpts identities,
            produces
              (let co := newCheckOpts c ociremoteOpts identities in
               rejectTSACertChain c ;;
               co <- setupRekor W c co ;;
               co <- establishRoots W c co ;;
               co <- setupCTLog W c co ;;
               co <- resolveVerifier W c co ;;
               (ret (co, ociremoteOpts) : M (CheckOpts * list remote_Option)))
              (only (fun _ => True) (fun _ => True))).
  { intros opts ids. simpl.
    unfold rejectTSACertChain, setupRekor, establishRoots, setupCTLog,
      resolveVerifier, verifierFromKeyRef, verifierFromToken,
      verifierFromCert, poolsFromChain, loadCertFromFileOrURL,
      loadCertFromPEM, loadCertChainFromFileOrURL.
    repeat anystep; auto. }
  unfold configure, loadIdentities, opening_call, opening_error.
  destruct (KeyRef c =? "").
  - apply first_call_bind;
      [apply (first_call_call W (c_Identities (CertVerifyOptions c))) |].
    intros ids. anystep; [repeat anystep; auto |]. apply Hrest.
  - apply produces_after_ret.
    apply first_call_bind;
      [apply (first_call_Errorf W _ (c_ClientOpts (RegistryOptions c))) |].
    intros opts. apply Hrest.
Qed.

Lemma configure_and_verify_opening W c images :
  produces (configure_and_verify W c images)
           (first_call (opening_call c) (opening_error c)).
Proof.
  unfold configure_and_verify.
  apply first_call_bind; [apply configure_opening |].
  intros r. apply verifyImages_any.
Qed.

Lemma opening_defaulted c :
  opening_call (defaulted c) = opening_call c /\
  forall err, opening_error (defaulted c) err = opening_error c err.
Proof.
  unfold defaulted, opening_call, opening_error.
  destruct (HashAlgorithm c =? 0)%Z; simpl; auto.
Qed.

(** ** How often the roots of trust are resolved *)

Lemma resolutions_app es1 es2 :
  resolutions (es1 ++ es2) = (resolutions es1 + resolutions es2)%nat.
Proof. unfold resolutions. rewrite filter_app, length_app. reflexivity. Qed.

Lemma resolutions_none (P : Event -> Prop) es :
  (forall e, P e -> resolves_roots e = false) ->
  Forall P es -> resolutions es = 0%nat.
Proof.
  intros HP F. induction F as [| e es He F IH]; [reflexivity |].
  unfold resolutions in *. simpl. rewrite (HP e He). exact IH.
Qed.

Lemma tally_only {A} (m : M A) (V : A -> Prop) :
  produces m (only (fun e => resolves_roots e = false) V) ->
  produces m (tally 0).
Proof.
  intros Hm. eapply produces_conseq; [exact Hm |].
  intros o es ds (F & _ & _).
  assert (E : resolutions (map fst es) = 0%nat).
  { apply (resolutions_none (fun e => resolves_roots e = false)); auto.
    apply Forall_map. exact F. }
  split; [lia | auto].
Qed.

Lemma tally_call W e :
  resolves_roots e = true -> produces (call W e) (tally 1).
Proof.
  intros He. apply produces_call; intros; unfold tally, resolutions; simpl;
    rewrite He; simpl; auto.
Qed.

Lemma tally_Errorf_call W prefix e :
  resolves_roots e = true -> produces (Errorf prefix (call W e)) (tally 1).
Proof.
  intros He.
  eapply produces_Errorf; [apply (tally_call W e He) | | |]; auto;
    intros ? es ds [H _]; (split; [exact H | discriminate]).
Qed.

Lemma tally_bind {A B} (m : M A) (k : A -> M B) n1 n2 :
  produces m (tally n1) -> (forall a, produces (k a) (tally n2)) ->
  produces (bind m k) (tally (n1 + n2)).
Proof.
  intros Hm Hk. eapply produces_bind; [exact Hm | | |].
  - intros a es1 ds1 [L1 R1]. specialize (R1 a eq_refl).
    eapply produces_conseq; [apply Hk |].
    intros o es2 ds2 [L2 R2]. unfold tally.
    unfold Call in *; rewrite map_app, resolutions_app, R1.
    split; [lia |]. intros b Ho. rewrite (R2 b Ho). reflexivity.
  - intros e es ds [L _]. split; [lia | discriminate].
  - intros msg es ds [L _]. split; [lia | discriminate].
Qed.

Lemma tally_conv {A} (m : M A) n n' :
  produces m (tally n) -> n = n' -> produces m (tally n').
Proof. intros H <-. exact H. Qed.

Ltac tallystep :=
  first
    [ solve [apply tally_only with (V := fun _ => True);
             repeat anystep; first [reflexivity | exact I]]
    | match goal with
      | |- produces (Errorf ?p (call ?W ?e)) _ =>
          apply (tally_Errorf_call W p e); reflexivity
      | |- produces (call ?W ?e) _ => apply (tally_call W e); reflexivity
      | |- produces (bind _ _) _ => eapply tally_bind; [| intros ?]
      | |- produces (if ?b then _ else _) _ => destruct b eqn:?
      | |- produces (match ?x with _ => _ end) _ => destruct x eqn:?
      end ].

Section Tally.

Variable W : World.
Variable c : VerifyCommand.

Lemma establishRoots_tally co :
  produces (establishRoots W c co)
    (tally (if keylessVerification (KeyRef c) (Sk c) then 1 else 0)).
Proof.
  unfold establishRoots, loadCertChainFromFileOrURL, poolsFromChain.
  destruct (keylessVerification (KeyRef c) (Sk c)).
  - destruct (negb (CertChain c =? ""));
      (eapply tally_conv; [repeat tallystep | reflexivity]).
  - tallystep.
Qed.

Lemma verifierFromCert_tally co :
  produces (verifierFromCert W c co) (tally 1).
Proof.
  unfold verifierFromCert, loadCertFromFileOrURL, loadCertFromPEM,
    loadCertChainFromFileOrURL.
  destruct (CertChain c =? "");
    (eapply tally_conv; [repeat tallystep | reflexivity]).
Qed.

Lemma resolveVerifier_tally co :
  produces (resolveVerifier W c co)
    (tally (if negb (KeyRef c =? "") then 0
            else if Sk c then 0
            else if negb (CertRef c =? "") then 1 else 0)).
Proof.
  unfold resolveVerifier, verifierFromKeyRef, verifierFromToken.
  destruct (negb (KeyRef c =? "")); [tallystep |].
  destruct (Sk c); [tallystep |].
  destruct (negb (CertRef c =? "")); [| tallystep].
  eapply tally_conv.
  - eapply tally_bind; [| intros r; tallystep].
    eapply tally_bind; [apply verifierFromCert_tally | intros r; tallystep].
  - reflexivity.
Qed.

Lemma configure_tally :
  produces (configure W c) (tally (roots_resolutions c)).
Proof.
  unfold configure.
  eapply tally_conv.
  - eapply tally_bind; [unfold loadIdentities; tallystep | intros ids].
    eapply tally_bind; [tallystep | intros opts].
    eapply tally_bind; [unfold rejectTSACertChain; tallystep | intros _].
    eapply tally_bind; [unfold setupRekor; tallystep | intros co1].
    eapply tally_bind; [apply establishRoots_tally | intros co2].
    eapply tally_bind; [unfold setupCTLog; tallystep | intros co3].
    eapply tally_bind; [apply resolveVerifier_tally | intros co4].
    tallystep.
  - unfold roots_resolutions, keylessVerification.
    destruct (negb (KeyRef c =? "")); [reflexivity |].
    destruct (Sk c); [reflexivity |].
    destruct (negb (CertRef c =? "")); reflexivity.
Qed.

Lemma configure_and_verify_tally images :
  produces (configure_and_verify W c images) (tally (roots_resolutions c)).
Proof.
  unfold configure_and_verify.
  eapply tally_conv.
  - eapply tally_bind; [apply configure_tally | intros r].
    apply tally_only with (V := fun _ => True).
    eapply only_weaken; [apply verifyImages_calls | | auto].
    intros e He. destruct e; simpl in He; try contradiction; reflexivity.
  - lia.
Qed.

End Tally.

Lemma roots_resolutions_defaulted c :
  roots_resolutions (defaulted c) = roots_resolutions c.
Proof.
  destruct (defaulted_fields c) as (Ek & Es & Er & _).
  unfold roots_resolutions. rewrite Ek, Es, Er. reflexivity.
Qed.

(** ** Reaching a fetch *)

Section Honest.

Variable c : VerifyCommand.
Variable B : Event -> bool.

Lemma honest_ret p {A} (a : A) : produces (ret a) (honest c B p).
Proof. apply produces_ret. split; intros ? E; discriminate. Qed.

Lemma honest_panic {A} msg : produces (@panic A msg) (honest c B true).
Proof.
  apply produces_panic. split; intros ? E; [discriminate | reflexivity].
Qed.

Lemma honest_fail_TSA p {A} :
  TSACertChainPath c <> "" ->
  produces (@fail A TSA_not_supported) (honest c B p).
Proof.
  intros Ht. apply produces_fail. split; intros ? E; [| discriminate].
  injection E as <-. right. auto.
Qed.

Lemma honest_call p W e :
  B e = true -> produces (call W e) (honest c B p).
Proof.
  intros He. apply produces_call.
  - intros a. split; intros ? E; discriminate.
  - intros err. split; intros ? E; [| discriminate]. left. constructor.
    split; [discriminate | exact He].
Qed.

Lemma honest_Errorf_call p W prefix e :
  B e = true -> produces (Errorf prefix (call W e)) (honest c B p).
Proof.
  intros He s. unfold Errorf, call.
  destruct (answer W (trace s) e) as [a | err]; simpl.
  - exists [(e, None)], []. split; [reflexivity |].
    split; intros ? E; discriminate.
  - exists [(e, Some err)], []. split; [reflexivity |].
    split; intros ? E; [| discriminate]. left.
    constructor. split; [discriminate | exact He].
Qed.

Lemma honest_bind p {A A'} (m : M A) (k : A -> M A') :
  produces m (honest c B p) -> (forall a, produces (k a) (honest c B p)) ->
  produces (bind m k) (honest c B p).
Proof.
  intros Hm Hk. eapply produces_bind; [exact Hm | | |].
  - intros a es1 ds1 _. eapply produces_conseq; [apply Hk |].
    intros o es2 ds2 [Hf Hp]. split; [| exact Hp].
    intros e E. destruct (Hf e E) as [Hx | Hx]; [left | auto].
    apply Exists_app. auto.
  - intros e es ds [Hf _]. split; intros ? E; [| discriminate].
    injection E as <-. apply Hf. reflexivity.
  - intros msg es ds [_ Hp]. split; intros ? E; [discriminate |].
    injection E as <-. apply (Hp msg). reflexivity.
Qed.

Lemma reach_before p g {A A'} (m : M A) (k : A -> M A') :
  produces m (honest c B p) -> (forall a, produces (k a) (reaching c B p g)) ->
  produces (bind m k) (reaching c B p g).
Proof.
  intros Hm Hk. eapply produces_bind; [exact Hm | | |].
  - intros a es1 ds1 _. eapply produces_conseq; [apply Hk |].
    intros o es2 ds2 [H | [H | H]]; unfold reaching.
    + left. rewrite map_app. apply in_or_app. auto.
    + right. left. apply Exists_app. auto.
    + auto.
  - intros e es ds [Hf _].
    destruct (Hf e eq_refl) as [Hx | [_ Hx]]; unfold reaching; auto.
  - intros msg es ds [_ Hp]. unfold reaching. do 3 right.
    split; [apply (Hp msg); reflexivity | eauto].
Qed.

Lemma reach_after p g {A A'} (m : M A) (k : A -> M A') Q :
  produces m (reaching c B p g) -> (forall a, produces (k a) Q) ->
  produces (bind m k) (reaching c B p g).
Proof.
  intros Hm Hk. eapply produces_bind; [exact Hm | | |].
  - intros a es1 ds1 [H | [H | [H | [_ [msg H]]]]]; try discriminate;
      (eapply produces_conseq; [apply Hk |]); intros o es2 ds2 _;
      unfold reaching; auto.
    + left. rewrite map_app. apply in_or_app. auto.
    + right. left. apply Exists_app. auto.
  - intros e es ds [H | [H | [H | [_ [msg H]]]]]; unfold reaching; auto.
    discriminate.
  - intros msg es ds [H | [H | [H | [Hp [msg' H]]]]]; unfold reaching; auto.
    do 3 right. split; [exact Hp | eauto].
Qed.

Lemma reach_fetch p W g prefix :
  produces (Errorf prefix (call W g)) (reaching c B p g).
Proof.
  intros s. unfold Errorf, call.
  destruct (answer W (trace s) g) as [a | err]; simpl;
    [exists [(g, None)], [] | exists [(g, Some err)], []];
    (split; [reflexivity | left; simpl; auto]).
Qed.

End Honest.

(** More calls may be blamed. *)
Lemma honest_more c (B B' : Event -> bool) p {A} (m : M A) :
  (forall e, B e = true -> B' e = true) ->
  produces m (honest c B p) -> produces m (honest c B' p).
Proof.
  intros HB Hm. eapply produces_conseq; [exact Hm |].
  intros o es ds [Hf Hp]. split; [| exact Hp].
  intros e E. destruct (Hf e E) as [Hx | Hx]; [left | auto].
  eapply Exists_impl; [| exact Hx]. intros x [H1 H2]. split; auto.
Qed.

Lemma before_rekor_roots e : before_rekor e = true -> before_roots e = true.
Proof. unfold before_roots. intros ->. reflexivity. Qed.

Lemma before_roots_ctlog e : before_roots e = true -> before_ctlog e = true.
Proof. unfold before_ctlog. intros ->. reflexivity. Qed.

Lemma before_ctlog_not_base64 e : before_ctlog e = true -> is_base64 e = false.
Proof. destruct e; simpl; auto; discriminate. Qed.

Ltac honestep :=
  match goal with
  | |- produces (bind _ _) (honest _ _ _) => apply honest_bind; [| intros ?]
  | |- produces (Errorf ?p (call ?W ?e)) (honest ?c ?B ?b) =>
      apply (honest_Errorf_call c B b W p e); reflexivity
  | |- produces (call ?W ?e) (honest ?c ?B ?b) =>
      apply (honest_call c B b W e); reflexivity
  | |- produces (ret _) (honest _ _ _) => apply honest_ret
  | |- produces (panic _) (honest _ _ _) => apply honest_panic
  | |- produces (fail _) (honest _ _ _) => apply honest_fail_TSA; assumption
  | |- produces (if ?b then _ else _) (honest _ _ _) => destruct b eqn:?; flags
  | |- produces (match ?x with _ => _ end) (honest _ _ _) => destruct x
  end.

Section Reaching.

Variable W : World.
Variable c : VerifyCommand.

Lemma loadIdentities_honest p :
  produces (loadIdentities W c) (honest c before_rekor p).
Proof. unfold loadIdentities. repeat honestep. Qed.

Lemma ClientOpts_honest p :
  produces (Errorf "constructing client options: "
              (call W (c_ClientOpts (RegistryOptions c))))
           (honest c before_rekor p).
Proof. honestep. Qed.

Lemma rejectTSACertChain_honest p :
  produces (rejectTSACertChain c) (honest c before_rekor p).
Proof. unfold rejectTSACertChain. repeat honestep. Qed.

Lemma setupRekor_honest p co :
  produces (setupRekor W c co) (honest c before_roots p).
Proof. unfold setupRekor. repeat honestep. Qed.

Lemma establishRoots_honest co :
  produces (establishRoots W c co) (honest c before_ctlog true).
Proof.
  unfold establishRoots, loadCertChainFromFileOrURL, poolsFromChain.
  repeat honestep.
Qed.

(** With a key reference or a hardware token lines 146-172 do nothing. *)
Lemma establishRoots_skipped co :
  KeyRef c <> "" \/ Sk c = true -> establishRoots W c co = ret co.
Proof.
  intros Hmode. unfold establishRoots.
  destruct (keylessVerification (KeyRef c) (Sk c)) eqn:E; [| reflexivity].
  apply keylessVerification_true in E. destruct E as [Ek Es].
  destruct Hmode; congruence.
Qed.

Lemma resolveVerifier_total co :
  produces (resolveVerifier W c co) (only (fun _ => True) (fun _ => True)).
Proof.
  unfold resolveVerifier, verifierFromKeyRef, verifierFromToken,
    verifierFromCert, loadCertFromFileOrURL, loadCertFromPEM,
    loadCertChainFromFileOrURL.
  repeat anystep; exact I.
Qed.

Lemma establishRoots_total co :
  produces (establishRoots W c co) (only (fun _ => True) (fun _ => True)).
Proof.
  unfold establishRoots, loadCertChainFromFileOrURL, poolsFromChain.
  repeat anystep; exact I.
Qed.

Lemma setupRekor_reaching co :
  IgnoreTlog c = false ->
  produces (setupRekor W c co)
           (reaching c before_rekor false cosign_GetRekorPubs).
Proof.
  intros Hi. unfold setupRekor. rewrite Hi. simpl.
  apply reach_before; [repeat honestep |]. intros co1.
  eapply reach_after;
    [apply (reach_fetch c before_rekor false W cosign_GetRekorPubs) |].
  intros keys.
  apply (honest_ret c before_rekor true (set_RekorPubKeys (Some keys) co1)).
Qed.

Lemma setupCTLog_reaching B p co :
  IgnoreSCT c = false ->
  produces (setupCTLog W c co) (reaching c B p cosign_GetCTLogPubs).
Proof.
  intros Hi. unfold setupCTLog. rewrite Hi. simpl.
  eapply reach_after; [apply (reach_fetch c B p W cosign_GetCTLogPubs) |].
  intros keys.
  apply (honest_ret c B true (set_CTLogPubKeys (Some keys) co)).
Qed.

Lemma configure_reaching_rekor :
  IgnoreTlog c = false ->
  produces (configure W c)
           (reaching c before_rekor false cosign_GetRekorPubs).
Proof.
  intros Hi. unfold configure.
  apply reach_before; [apply loadIdentities_honest |]. intros ids.
  apply reach_before; [apply ClientOpts_honest |]. intros opts.
  apply reach_before; [apply rejectTSACertChain_honest |]. intros _.
  eapply reach_after; [apply setupRekor_reaching; exact Hi |]. intros co1.
  eapply only_bind; [apply establishRoots_total |]. intros co2 _.
  eapply only_bind; [apply setupCTLog_pools |]. intros co3 _.
  eapply only_bind; [apply resolveVerifier_total |]. intros co4 _.
  apply only_ret with (P := fun _ => True) (V := fun _ => True). exact I.
Qed.

Lemma configure_reaching_ctlog :
  IgnoreSCT c = false ->
  produces (configure W c)
           (reaching c before_ctlog true cosign_GetCTLogPubs).
Proof.
  intros Hi. unfold configure.
  assert (H1 : forall e, before_rekor e = true -> before_ctlog e = true)
    by (intros e He; apply before_roots_ctlog, before_rekor_roots, He).
  apply reach_before;
    [eapply honest_more; [exact H1 | apply loadIdentities_honest] |].
  intros ids.
  apply reach_before;
    [eapply honest_more; [exact H1 | apply ClientOpts_honest] |].
  intros opts.
  apply reach_before;
    [eapply honest_more; [exact H1 | apply rejectTSACertChain_honest] |].
  intros _.
  apply reach_before;
    [eapply honest_more; [exact before_roots_ctlog | apply setupRekor_honest] |].
  intros co1.
  apply reach_before; [apply establishRoots_honest |]. intros co2.
  eapply reach_after; [apply setupCTLog_reaching; exact Hi |]. intros co3.
  eapply only_bind; [apply resolveVerifier_total |]. intros co4 _.
  apply only_ret with (P := fun _ => True) (V := fun _ => True). exact I.
Qed.

(** With a key reference or a hardware token nothing but the calls of
    lines 95-145 comes before the fetch of the CT-log keys, and nothing
    panics. *)
Lemma configure_reaching_ctlog_keyed :
  KeyRef c <> "" \/ Sk c = true ->
  IgnoreSCT c = false ->
  produces (configure W c)
           (reaching c before_roots false cosign_GetCTLogPubs).
Proof.
  intros Hmode Hi. unfold configure.
  apply reach_before;
    [eapply honest_more; [exact before_rekor_roots
                         | apply loadIdentities_honest] |].
  intros ids.
  apply reach_before;
    [eapply honest_more; [exact before_rekor_roots | apply ClientOpts_honest] |].
  intros opts.
  apply reach_before;
    [eapply honest_more; [exact before_rekor_roots
                         | apply rejectTSACertChain_honest] |].
  intros _.
  apply reach_before; [apply setupRekor_honest |]. intros co1.
  apply reach_before.
  { intros s. rewrite (establishRoots_skipped co1 Hmode).
    apply (honest_ret c before_roots false co1). }
  intros co2.
  eapply reach_after; [apply setupCTLog_reaching; exact Hi |]. intros co3.
  eapply only_bind; [apply resolveVerifier_total |]. intros co4 _.
  apply only_ret with (P := fun _ => True) (V := fun _ => True). exact I.
Qed.

Lemma configure_and_verify_reaching B p g images :
  produces (configure W c) (reaching c B p g) ->
  produces (configure_and_verify W c images) (reaching c B p g).
Proof.
  intros Hcfg. unfold configure_and_verify.
  eapply reach_after with (Q := fun _ _ _ => True); [exact Hcfg |].
  intros r. eapply produces_conseq; [apply verifyImages_calls | auto].
Qed.

End Reaching.

(** A failed call that is not recovered from is the last call made, and
    its error is the outcome. *)
Lemma failstop_final c {A} (o : Outcome A) es ds ev e :
  failstop c o es ds -> In (ev, Some e) es -> is_base64 ev = false ->
  exists e' pre,
    o = Fail e' /\ wraps e' e /\ es = pre ++ [(ev, Some e)] /\
    Forall recovered pre.
Proof.
  intros Hs Hx Hb.
  assert (Hnot : ~ recovered (ev, Some e)).
  { intros [H | H]; simpl in H; congruence. }
  assert (Hall : forall l, Forall recovered l -> ~ In (ev, Some e) l).
  { intros l Hl Hi. rewrite Forall_forall in Hl. apply Hnot, Hl, Hi. }
  destruct o as [a | e' | msg]; simpl in Hs;
    try (exfalso; eapply Hall; eassumption).
  destruct Hs as [[Hs _] | (pre & ev0 & e0 & -> & Hp & Hb0 & Hw)];
    [exfalso; eapply Hall; eassumption |].
  apply in_app_iff in Hx. destruct Hx as [Hx | [Hx | []]];
    [exfalso; eapply Hall; eassumption |].
  injection Hx as -> ->. exists e', pre. auto.
Qed.


(** The fetch [g] is made by an accepted invocation without TSA path,
    unless the invocation stopped at a failed call of [B] or (if
    [may_panic]) panicked. *)
Lemma run_reaching W c images B p g :
  accepted c images = true -> TSACertChainPath c = "" ->
  (forall e, B e = true -> is_base64 e = false) ->
  produces (configure_and_verify W (defaulted c) images)
           (reaching (defaulted c) B p g) ->
  In g (events (run W c images)) \/ stopped_before B (run W c images) \/
  (p = true /\ exists msg, fst (run W c images) = Panic msg).
Proof.
  intros Ha Ht HB Hr.
  destruct (run_produces W c images _ Ha
              (produces_and _ _ _ Hr
                 (produces_and _ _ _
                    (configure_and_verify_failstop W (defaulted c) images)
                    (configure_and_verify_footprint W (defaulted c) images))))
    as (o & es & ds & E & R & Hs & _ & D & _).
  rewrite E. unfold events. simpl.
  destruct R as [H | [H | [H | H]]].
  - left. rewrite map_app, in_app_iff. left.
    rewrite map_map. simpl. exact H.
  - right. left. apply Exists_exists in H.
    destruct H as ([ev f] & Hx & Hf & Hb). simpl in Hf, Hb.
    destruct f as [err |]; [| contradiction].
    destruct (failstop_final _ o es ds ev err Hs Hx (HB _ Hb))
      as (e' & pre & -> & Hw & -> & Hp).
    exists (map (stamp (defaulted c)) pre),
           (mkEntry (defaulted c) ev (Some err)),
           (map (fun d => mkEntry (defaulted c) d None) ds), err, e'.
    simpl. split; [rewrite map_app, <- app_assoc; reflexivity |].
    split; [exact Hb |]. split; [reflexivity |].
    split; [apply recovered_stamp, Hp |].
    split; [eapply closing_entries, D | auto].
  - exfalso. apply H.
    destruct (defaulted_fields c) as (_ & _ & _ & _ & _ & _ & -> & _).
    exact Ht.
  - right. right. exact H.
Qed.

(** The only message an invocation can panic with. *)
Lemma run_Panic_message W c images msg :
  fst (run W c images) = Panic msg -> msg = index_out_of_range.
Proof.
  intros E.
  destruct (accepted c images) eqn:Ha;
    [| rewrite run_unfold, Ha in E; discriminate].
  rewrite run_unfold, Ha in E. unfold with_deferred in E.
  destruct (configure_and_verify W (defaulted c) images (start (defaulted c)))
    as [o s'] eqn:Ecav.
  simpl in E. subst o.
  unfold configure_and_verify in Ecav. apply bind_Panic in Ecav.
  destruct Ecav as [E1 | (r & s1 & _ & E2)].
  2:{ exfalso. revert E2. apply calm_not_Panic, verifyImages_calm. }
  apply configure_Panic in E1. destruct E1 as (co & s1 & Er & _).
  apply establishRoots_Panic in Er. tauto.
Qed.


(** ** The verifier of the selected key source *)













(* ================================================================== *)
(** * The properties the specification states *)

(** C1, as the code has it.  With a static key or a hardware token no
    root of trust is resolved: no chain is loaded, the Fulcio roots and
    intermediates are not fetched, and the check options carry no pool.
    The transparency keys are another matter: they do not depend on the
    key source.  They are never fetched with the flag set ([IgnoreTlog]
    for the Rekor keys, [IgnoreSCT] for the CT-log keys).  With the flag
    unset, in an invocation whose arguments are accepted and whose
    [TSACertChainPath] is empty, the Rekor keys are fetched unless the
    invocation has stopped at a failed call that comes before the fetch
    ([c.Identities()], [c.ClientOpts], [rekor.NewClient]), and the
    CT-log keys are fetched unless it has stopped at one of those calls
    or at the fetch of the Rekor keys; this whether or not the
    verification of the images succeeds afterwards.  In particular an
    invocation that returns [nil] has made every fetch whose flag is
    unset. *)
Theorem static_key_and_token_skip_roots_of_trust W c images :
  KeyRef c <> "" \/ Sk c = true ->
  let r := run W c images in
  (forall e, In e (events r) -> root_of_trust_call e = false) /\
  (forall e co, In e (events r) -> check_opts_of e = Some co ->
     co_RootCerts co = None /\ co_IntermediateCerts co = None) /\
  (In cosign_GetRekorPubs (events r) -> IgnoreTlog c = false) /\
  (In cosign_GetCTLogPubs (events r) -> IgnoreSCT c = false) /\
  (fst r = Return tt ->
   (IgnoreTlog c = false -> In cosign_GetRekorPubs (events r)) /\
   (IgnoreSCT c = false -> In cosign_GetCTLogPubs (events r))) /\
  (accepted c images = true -> TSACertChainPath c = "" ->
   (IgnoreTlog c = false ->
    In cosign_GetRekorPubs (events r) \/ stopped_before before_rekor r) /\
   (IgnoreSCT c = false ->
    In cosign_GetCTLogPubs (events r) \/ stopped_before before_roots r)).
Proof.
  intros Hmode r. subst r.
  destruct (defaulted_fields c) as (Ek & Es & _ & _ & Et & Ei & _).
  assert (Hmode' : KeyRef (defaulted c) <> "" \/ Sk (defaulted c) = true)
    by (rewrite Ek, Es; exact Hmode).
  split; [| split; [| split; [| split; [| split]]]].
  - intros e He. apply run_event_footprint in He.
    destruct e; try reflexivity; footprint_at He; break; congruence.
  - intros e co He Hco. apply run_event_footprint in He.
    destruct e; try discriminate; injection Hco as ->;
      footprint_at He; unfold resolved in He; break; subst; auto;
      congruence.
  - intros He. apply run_event_footprint in He. footprint_at He.
    break; congruence.
  - intros He. apply run_event_footprint in He. footprint_at He.
    break; congruence.
  - intros Hr. split; intros Hi.
    + eapply fetched_event; [| exact Hr]. apply run_fenced.
      apply configure_and_verify_fenced; [reflexivity |].
      apply configure_fenced_rekor. congruence.
    + eapply fetched_event; [| exact Hr]. apply run_fenced.
      apply configure_and_verify_fenced; [reflexivity |].
      apply configure_fenced_ctlog. congruence.
  - intros Ha Ht. split; intros Hi.
    + destruct (run_reaching W c images before_rekor false
                  cosign_GetRekorPubs Ha Ht) as [H | [H | [H _]]];
        auto; [| | discriminate].
      * intros e He. apply before_ctlog_not_base64, before_roots_ctlog,
          before_rekor_roots, He.
      * apply configure_and_verify_reaching, configure_reaching_rekor.
        congruence.
    + destruct (run_reaching W c images before_roots false
                  cosign_GetCTLogPubs Ha Ht) as [H | [H | [H _]]];
        auto; [| | discriminate].
      * intros e He. apply before_ctlog_not_base64, before_roots_ctlog, He.
      * apply configure_and_verify_reaching,
          configure_reaching_ctlog_keyed; [exact Hmode' | congruence].
Qed.

Lemma static_key_and_token_skip_roots_of_trust_witness :
  let c := command "" "" "" true "" "" in
  let r := run friendly c ["registry/image:tag"] in
  (KeyRef c <> "" \/ Sk c = true) /\
  accepted c ["registry/image:tag"] = true /\ TSACertChainPath c = "" /\
  IgnoreTlog c = false /\ IgnoreSCT c = false /\
  (forall e, In e (events r) -> root_of_trust_call e = false) /\
  (In cosign_GetRekorPubs (events r) \/ stopped_before before_rekor r) /\
  (In cosign_GetCTLogPubs (events r) \/ stopped_before before_roots r).
Proof.
  intros c r. split; [right; reflexivity |].
  repeat (split; [reflexivity |]).
  destruct (static_key_and_token_skip_roots_of_trust friendly c
              ["registry/image:tag"] (or_intror eq_refl))
    as (H1 & _ & _ & _ & _ & H6).
  destruct (H6 eq_refl eq_refl) as [Hr Hc].
  split; [exact H1 |]. split; [exact (Hr eq_refl) | exact (Hc eq_refl)].
Defined.

(** The keys are fetched with a static key also when the verification of
    the image fails afterwards. *)
Example static_key_fetches_before_a_failed_verification :
  let r := run (world_without
                  (fun e => match e with
                            | cosign_VerifyImageSignatures _ _ => true
                            | _ => false
                            end))
               (command "cosign.pub" "" "" false "" "")
               ["registry/image:tag"] in
  fst r = Fail (cosignError_WrapError (errors_New "unavailable")) /\
  In cosign_GetRekorPubs (events r) /\ In cosign_GetCTLogPubs (events r).
Proof.
  split; [reflexivity |]. split.
  - right. left. reflexivity.
  - right. right. left. reflexivity.
Qed.

(** C1 as the specification states it fails: a verification with a
    static key, in a world where everything works, fetches the Rekor
    public keys and the CT-log public keys. *)
Lemma static_key_fetches_transparency_keys :
  let c := command "cosign.pub" "" "" false "" "" in
  KeyRef c <> "" /\
  In cosign_GetRekorPubs (events (run friendly c ["registry/image:tag"])) /\
  In cosign_GetCTLogPubs (events (run friendly c ["registry/image:tag"])).
Proof.
  intros c. split; [discriminate |]. split.
  - right. left. reflexivity.
  - right. right. left. reflexivity.
Qed.

(** C2.  In keyless verification with a certificate chain supplied, the
    check options that [DoVerify] ends up with come from a chain loaded
    during the invocation: the last certificate of that chain is the only
    certificate of the root pool, and the certificates before it make up
    the intermediate pool (which holds each of them once).  With a chain
    of one certificate no intermediate pool is created at all. *)
Theorem chain_last_certificate_is_root W c s co opts s' :
  KeyRef c = "" -> Sk c = false -> CertChain c <> "" ->
  configure W c s = (Return (co, opts), s') ->
  exists s0 s1 intermediates root,
    loadCertChainFromFileOrURL W (CertChain c) s0
      = (Return (intermediates ++ [root]), s1) /\
    extends s s0 /\ extends s1 s' /\
    co_RootCerts co = Some [root] /\
    match intermediates with
    | [] => co_IntermediateCerts co = None
    | _ =>
        exists pool,
          co_IntermediateCerts co = Some pool /\ NoDup pool /\
          (forall cert, In cert pool <-> In cert intermediates) /\
          (NoDup intermediates -> pool = intermediates)
    end.
Proof.
  intros Hk Hs Hc Hcfg. unfold configure in Hcfg.
  apply bind_Return in Hcfg. destruct Hcfg as (ids & sa & Hids & Hcfg).
  apply bind_Return in Hcfg. destruct Hcfg as (o1 & sb & Hopts & Hcfg).
  apply bind_Return in Hcfg. destruct Hcfg as ([] & sc & Htsa & Hcfg).
  apply bind_Return in Hcfg. destruct Hcfg as (co1 & sd & Hrekor & Hcfg).
  apply bind_Return in Hcfg. destruct Hcfg as (co2 & se & Hroots & Hcfg).
  apply bind_Return in Hcfg. destruct Hcfg as (co3 & sf & Hct & Hcfg).
  apply bind_Return in Hcfg. destruct Hcfg as (co4 & sg & Hres & Hcfg).
  injection Hcfg as <- <- <-.
  (* the states before the chain is loaded *)
  assert (E0 : extends s sd).
  { apply extends_trans with sa;
      [eapply produces_extends; [apply loadIdentities_calls | exact Hids] |].
    apply extends_trans with sb.
    { eapply produces_extends; [| exact Hopts].
      apply only_Errorf.
      apply (only_call W (c_ClientOpts _) (fun _ => True) (fun _ => True));
        auto. }
    apply extends_trans with sc.
    { unfold rejectTSACertChain in Htsa.
      destruct (negb (TSACertChainPath c =? "")); [discriminate |].
      injection Htsa as <-. apply extends_refl. }
    eapply produces_extends; [apply setupRekor_pools | exact Hrekor]. }
  (* the pools before and after *)
  assert (P1 : same_pools (newCheckOpts c o1 ids) co1)
    by (eapply only_Return; [apply setupRekor_pools | exact Hrekor]).
  assert (P3 : same_pools co2 co3)
    by (eapply only_Return; [apply setupCTLog_pools | exact Hct]).
  assert (P4 : same_pools co3 co4)
    by (eapply only_Return; [apply resolveVerifier_pools; exact Hc | exact Hres]).
  assert (E1 : extends se sg).
  { apply extends_trans with sf.
    - eapply produces_extends; [apply setupCTLog_pools | exact Hct].
    - eapply produces_extends; [apply resolveVerifier_pools; exact Hc | exact Hres]. }
  (* the chain *)
  unfold establishRoots in Hroots.
  rewrite (proj2 (keylessVerification_true _ _) (conj Hk Hs)) in Hroots.
  apply String.eqb_neq in Hc. rewrite Hc in Hroots. simpl in Hroots.
  apply bind_Return in Hroots. destruct Hroots as (chain & s1 & Hload & Hpools).
  pose proof (poolsFromChain_spec chain co1 s1) as Hspec.
  destruct chain as [| c0 rest].
  { destruct Hspec as [msg Hp]. rewrite Hp in Hpools. discriminate. }
  destruct Hspec as (intermediates & root & Echain & Hp).
  rewrite Hp in Hpools. injection Hpools as <- <-.
  exists sd, s1, intermediates, root. rewrite <- Echain.
  split; [exact Hload |]. split; [exact E0 |]. split; [exact E1 |].
  destruct P1 as [_ P1], P3 as [R3 I3], P4 as [R4 I4].
  rewrite R4, R3, I4, I3.
  assert (Inone : co_IntermediateCerts co1 = None).
  { rewrite P1. unfold newCheckOpts. destruct (CheckClaims c); reflexivity. }
  destruct intermediates as [| i0 irest]; simpl.
  - auto.
  - split; [reflexivity |]. eexists. split; [reflexivity |].
    apply pool_of_spec.
Qed.

Lemma chain_last_certificate_is_root_witness :
  let c := command "" "" "ir" false "" "" in
  exists co opts s',
    configure friendly c (start c) = (Return (co, opts), s') /\
    exists s0 s1 intermediates root,
      loadCertChainFromFileOrURL friendly (CertChain c) s0
        = (Return (intermediates ++ [root]), s1) /\
      extends (start c) s0 /\ extends s1 s' /\
      co_RootCerts co = Some [root] /\
      match intermediates with
      | [] => co_IntermediateCerts co = None
      | _ =>
          exists pool,
            co_IntermediateCerts co = Some pool /\ NoDup pool /\
            (forall cert, In cert pool <-> In cert intermediates) /\
            (NoDup intermediates -> pool = intermediates)
      end.
Proof.
  intros c. do 3 eexists. split.
  - lazy. reflexivity.
  - eapply (chain_last_certificate_is_root friendly c (start c)).
    + reflexivity.
    + reflexivity.
    + discriminate.
    + lazy. reflexivity.
Defined.

(** A chain file of two certificates, of one, and (in a world whose PEM
    parser finds nothing in the file) of none: the last is the root, a
    single certificate leaves the intermediate pool [nil], and the empty
    chain makes [chain[len(chain)-1]] panic. *)
Example chain_of_two :
  pools_given (run friendly (command "" "" "ir" false "" "") ["image"])
  = [(Some [cert_of "r"], Some [cert_of "i"])].
Proof. reflexivity. Qed.

Example chain_of_one :
  pools_given (run friendly (command "" "" "r" false "" "") ["image"])
  = [(Some [cert_of "r"], None)].
Proof. reflexivity. Qed.

Example chain_of_none :
  fst (run world_with_empty_chain (command "" "" "empty.pem" false "" "")
           ["image"])
  = Panic "runtime error: index out of range [-1]".
Proof. reflexivity. Qed.

(** C3.  The certificate loader first asks for a base64 decoding of the
    bytes and then parses: the decoded bytes when the decoding succeeded,
    the raw bytes when it failed.  The outcome is decided by the parse
    alone, so a failed decoding is never an error of the loader, and the
    loader fails exactly when the parse yields no certificate. *)
Theorem loadCertFromPEM_falls_back_to_raw_bytes W pems s :
  let text := string_of_list_byte pems in
  let decoded := answer W (trace s) (base64_DecodeString text) in
  let out := match decoded with Ok out => out | Err _ => pems end in
  let s1 := log (base64_DecodeString text)
                (match decoded with Ok _ => None | Err e => Some e end) s in
  let parsed :=
    answer W (trace s1) (cryptoutils_UnmarshalCertificatesFromPEM out) in
  let r := loadCertFromPEM W pems s in
  map event (trace (snd r)) =
    map event (trace s) ++
    [base64_DecodeString text; cryptoutils_UnmarshalCertificatesFromPEM out] /\
  fst r = match parsed with
          | Ok (cert :: _) => Return cert
          | Ok [] => Fail (errors_New "no certs found in pem file")
          | Err e => Fail e
          end /\
  ((exists e, fst r = Fail e) <-> certs_of parsed = []) /\
  (forall msg, fst r <> Panic msg).
Proof.
  intros text decoded out s1 parsed r.
  subst r. unfold loadCertFromPEM, bind, attempt, call. fold text.
  subst parsed s1 out decoded.
  destruct (answer W (trace s) (base64_DecodeString text)) as [d | e1];
    simpl.
  - destruct (answer W _ (cryptoutils_UnmarshalCertificatesFromPEM d))
      as [[| cert rest] | e2]; simpl;
      rewrite !map_app; simpl; rewrite <- app_assoc; simpl;
      repeat split; try discriminate; eauto;
      intros [e E]; discriminate.
  - destruct (answer W _ (cryptoutils_UnmarshalCertificatesFromPEM pems))
      as [[| cert rest] | e2]; simpl;
      rewrite !map_app; simpl; rewrite <- app_assoc; simpl;
      repeat split; try discriminate; eauto;
      intros [e E]; discriminate.
Qed.

(** In the cooperative world, where nothing decodes as base64, a PEM file
    is parsed from its raw bytes. *)
Example loadCertFromPEM_raw :
  fst (loadCertFromPEM friendly (list_byte_of_string "-----BEGIN")
         (start (command "" "leaf.pem" "" false "" "")))
  = Return (cert_of "-----BEGIN").
Proof. reflexivity. Qed.

(** The chain loader is another function: it hands the bytes of the file
    to the PEM parser as they are and never asks for a base64 decoding. *)
Example loadCertChainFromFileOrURL_parses_raw_bytes W path s :
  exists entries,
    trace (snd (loadCertChainFromFileOrURL W path s)) = trace s ++ entries /\
    forall en t, In en entries -> event en <> base64_DecodeString t.
Proof.
  destruct (loadCertChainFromFileOrURL_calls W
              (fun e => forall t, e <> base64_DecodeString t) path
              (fun _ => ltac:(discriminate)) (fun _ _ => ltac:(discriminate)) s)
    as (es & ds & E & F & _).
  rewrite E. simpl. eexists. split; [reflexivity |].
  intros en t Hen. apply in_map_iff in Hen. destruct Hen as (x & <- & Hx).
  rewrite Forall_forall in F. apply F, Hx.
Qed.




(** The three explicit sources, in priority order. *)
Example static_key_beats_token_and_certificate :
  verifiers_given (run friendly (command "cosign.pub" "leaf.pem" "" true "" "")
                       ["registry/image:tag"])
  = [Some (other_Verifier "cosign.pub")].
Proof. reflexivity. Qed.

Example token_beats_certificate :
  map source_of_call
      (events (run friendly (command "" "leaf.pem" "" true "" "")
                   ["registry/image:tag"]))
  = [None; None; None; None; Some HardwareToken; Some HardwareToken;
     None; None; None; Some HardwareToken].
Proof. reflexivity. Qed.

(** C5, as the code has it.  In an invocation whose arguments are
    accepted and whose [TSACertChainPath] is empty, whatever [RekorURL],
    [Offline] and the key source are: unless [IgnoreTlog] is set, the
    Rekor public keys are fetched, or else the invocation has stopped at
    a failed call that comes before the fetch ([c.Identities()],
    [c.ClientOpts], [rekor.NewClient]) and returns the error of that
    call; a normal return comes with a successful fetch; nothing
    constructs a verifier or evaluates an artifact without a successful
    fetch; and a failure of the fetch ends the invocation there with the
    error "getting Rekor public keys: ...".  The same holds of the CT-log
    public keys unless [IgnoreSCT] is set, with the error "getting ctlog
    public keys: ..."; there the calls that come before the fetch also
    include the fetch of the Rekor keys and the resolution of the roots
    of trust, and the invocation can also end before the fetch by the
    panic on an empty certificate chain. *)
Theorem transparency_keys_fetched_or_fatal W c images :
  accepted c images = true -> TSACertChainPath c = "" ->
  let r := run W c images in
  (IgnoreTlog c = false ->
   (In cosign_GetRekorPubs (events r) \/ stopped_before before_rekor r) /\
   fetched_or_fatal r (defaulted c)
     cosign_GetRekorPubs "getting Rekor public keys: ") /\
  (IgnoreSCT c = false ->
   (In cosign_GetCTLogPubs (events r) \/ stopped_before before_ctlog r \/
    fst r = Panic index_out_of_range) /\
   fetched_or_fatal r (defaulted c)
     cosign_GetCTLogPubs "getting ctlog public keys: ").
Proof.
  intros Ha Ht r. subst r.
  destruct (defaulted_fields c) as (_ & _ & _ & _ & Et & Es & _).
  split; intros Hi; split.
  - destruct (run_reaching W c images before_rekor false cosign_GetRekorPubs
                Ha Ht) as [H | [H | [H _]]]; auto; [| | discriminate].
    + intros e He. apply before_ctlog_not_base64, before_roots_ctlog,
        before_rekor_roots, He.
    + apply configure_and_verify_reaching, configure_reaching_rekor.
      congruence.
  - apply run_fenced, configure_and_verify_fenced; [reflexivity |].
    apply configure_fenced_rekor. congruence.
  - destruct (run_reaching W c images before_ctlog true cosign_GetCTLogPubs
                Ha Ht) as [H | [H | [_ [msg H]]]]; auto.
    + exact before_ctlog_not_base64.
    + apply configure_and_verify_reaching, configure_reaching_ctlog.
      congruence.
    + right. right. rewrite H. f_equal.
      apply (run_Panic_message W c images msg H).
  - apply run_fenced, configure_and_verify_fenced; [reflexivity |].
    apply configure_fenced_ctlog. congruence.
Qed.

Lemma transparency_keys_fetched_or_fatal_witness :
  let c := offline_with_rekor_url (command "cosign.pub" "" "" false "" "") in
  let r := run friendly c ["registry/image:tag"] in
  accepted c ["registry/image:tag"] = true /\ TSACertChainPath c = "" /\
  IgnoreTlog c = false /\ IgnoreSCT c = false /\
  ((In cosign_GetRekorPubs (events r) \/ stopped_before before_rekor r) /\
   fetched_or_fatal r (defaulted c)
     cosign_GetRekorPubs "getting Rekor public keys: ") /\
  ((In cosign_GetCTLogPubs (events r) \/ stopped_before before_ctlog r \/
    fst r = Panic index_out_of_range) /\
   fetched_or_fatal r (defaulted c)
     cosign_GetCTLogPubs "getting ctlog public keys: ").
Proof.
  intros c r.
  pose proof (transparency_keys_fetched_or_fatal friendly c
                ["registry/image:tag"] eq_refl eq_refl) as [Hr Hc].
  repeat (split; [reflexivity |]).
  split; [exact (Hr eq_refl) | exact (Hc eq_refl)].
Defined.

(** C5 as the specification states it fails: the fetches are not made
    whenever the flags are unset.  With a TSA certificate chain path
    neither is made; when the Rekor client cannot be created the Rekor
    keys are not fetched; and when the Rekor keys cannot be fetched the
    CT-log keys are not fetched either. *)
Lemma transparency_keys_not_always_fetched :
  let tsa := command "cosign.pub" "" "" false "" "tsa-chain.pem" in
  let c := offline_with_rekor_url (command "cosign.pub" "" "" false "" "") in
  let no_client :=
    world_without (fun e => match e with
                            | rekor_NewClient _ => true
                            | _ => false
                            end) in
  (IgnoreTlog tsa = false /\ IgnoreSCT tsa = false /\
   events (run friendly tsa ["registry/image:tag"])
   = [c_ClientOpts "registry-options"]) /\
  (IgnoreTlog c = false /\
   events (run no_client c ["registry/image:tag"])
   = [c_ClientOpts "registry-options";
      rekor_NewClient "https://rekor.example"]) /\
  (IgnoreSCT c = false /\
   events (run (world_without is_GetRekorPubs) c ["registry/image:tag"])
   = [c_ClientOpts "registry-options";
      rekor_NewClient "https://rekor.example";
      cosign_GetRekorPubs]).
Proof. repeat split. Qed.

(** With the Rekor keys unavailable the offline invocation stops at the
    fetch; with the CT-log keys unavailable it stops there. *)
Example rekor_keys_unavailable :
  let r := run (world_without is_GetRekorPubs)
               (offline_with_rekor_url (command "cosign.pub" "" "" false "" ""))
               ["registry/image:tag"] in
  fst r = Fail (fmt_Errorf "getting Rekor public keys: "
                  (errors_New "unavailable")) /\
  events r = [c_ClientOpts "registry-options";
              rekor_NewClient "https://rekor.example";
              cosign_GetRekorPubs].
Proof. split; reflexivity. Qed.

Example ctlog_keys_unavailable :
  let r := run (world_without is_GetCTLogPubs)
               (offline_with_rekor_url (command "cosign.pub" "" "" false "" ""))
               ["registry/image:tag"] in
  fst r = Fail (fmt_Errorf "getting ctlog public keys: "
                  (errors_New "unavailable")) /\
  events r = [c_ClientOpts "registry-options";
              rekor_NewClient "https://rekor.example";
              cosign_GetRekorPubs; cosign_GetCTLogPubs].
Proof. split; reflexivity. Qed.

(** C6.  Every call of an invocation is made with a receiver whose
    [HashAlgorithm] is not zero: it is SHA-256 when the caller left it
    unset and the caller's value otherwise.  That value is the one the
    public key is loaded with.  At the end the receiver is the caller's
    when the algorithm was set, and the caller's with SHA-256 when it was
    not (and the arguments were accepted). *)
Theorem HashAlgorithm_defaults_to_SHA256 W c images :
  let r := run W c images in
  let h := if (HashAlgorithm c =? 0)%Z then crypto_SHA256 else HashAlgorithm c in
  (forall en, In en (trace (snd r)) ->
     HashAlgorithm (receiver en) = h /\ HashAlgorithm (receiver en) <> 0%Z) /\
  (forall en keyRef h', In en (trace (snd r)) ->
     event en = sigs_PublicKeyFromKeyRefWithHashAlgo keyRef h' -> h' = h) /\
  (HashAlgorithm c <> 0%Z -> cmd (snd r) = c) /\
  (HashAlgorithm c = 0%Z -> accepted c images = true ->
   cmd (snd r) = set_HashAlgorithm crypto_SHA256 c).
Proof.
  intros r h. subst r h. rewrite <- defaulted_HashAlgorithm.
  repeat split.
  - apply run_footprint in H. destruct H as [-> _]. reflexivity.
  - apply run_footprint in H. destruct H as [-> _]. apply defaulted_nonzero.
  - intros en keyRef h' Hin Hev. apply run_footprint in Hin.
    destruct Hin as [_ Hc]. rewrite Hev in Hc. footprint_at Hc.
    break. assumption.
  - intros Hnz. rewrite run_cmd. unfold defaulted.
    apply Z.eqb_neq in Hnz. rewrite Hnz. destruct (accepted c images); auto.
  - intros Hz Ha. rewrite run_cmd, Ha. unfold defaulted. rewrite Hz.
    reflexivity.
Qed.

Lemma HashAlgorithm_defaults_to_SHA256_witness :
  HashAlgorithm (command "cosign.pub" "" "" false "" "") = 0%Z /\
  cmd (snd (run friendly (command "cosign.pub" "" "" false "" "")
                ["registry/image:tag"]))
  = set_HashAlgorithm crypto_SHA256 (command "cosign.pub" "" "" false "" "").
Proof.
  split; [reflexivity |].
  apply (HashAlgorithm_defaults_to_SHA256 friendly
           (command "cosign.pub" "" "" false "" "") ["registry/image:tag"]);
    reflexivity.
Defined.

(** C7.  An invocation that fails is not continued: with more images
    after the list it returns the same error and ends in the same state,
    so none of the further images is looked at.  In particular, when the
    check options were built, the images of [pre] were verified and the
    verification of [img] fails with [e] (as the loop body returns it),
    [DoVerify] returns [e] and stops in the state of that failure,
    running only the deferred closes. *)
Theorem first_failing_image_aborts W c :
  (forall images more e,
     images <> [] -> fst (run W c images) = Fail e ->
     run W c (images ++ more) = run W c images) /\
  (forall pre img post co opts s0 s1 s2 e,
     Attachment c = "sbom" \/ Attachment c = "" ->
     configure W (defaulted c) (start (defaulted c))
       = (Return (co, opts), s0) ->
     verifyImages W (defaulted c) co opts pre s0 = (Return tt, s1) ->
     verifyImage W (defaulted c) co opts img s1 = (Fail e, s2) ->
     run W c (pre ++ img :: post) = (Fail e, run_deferred s2)).
Proof.
  split.
  - intros images more e Hne Hfail.
    rewrite (run_unfold W c (images ++ more)), accepted_more by exact Hne.
    rewrite run_unfold in *.
    destruct (accepted c images); [| reflexivity].
    unfold with_deferred, configure_and_verify, bind in *.
    destruct (configure W (defaulted c) (start (defaulted c)))
      as [[r | e1 | msg] s1]; try reflexivity.
    destruct (verifyImages W (defaulted c) (fst r) (snd r) images s1)
      as [o s2] eqn:E.
    simpl in Hfail. subst o.
    rewrite (verifyImages_Fail_more _ _ _ _ _ more _ _ _ E). reflexivity.
  - intros pre img post co opts s0 s1 s2 e Hatt Hcfg Hpre Himg.
    rewrite run_unfold.
    replace (accepted c (pre ++ img :: post)) with true.
    + unfold with_deferred, configure_and_verify.
      rewrite (bind_run _ _ _ _ _ Hcfg). simpl.
      rewrite (verifyImages_stops _ _ _ _ _ _ post _ _ _ _ Hpre Himg).
      reflexivity.
    + symmetry. apply accepted_true. split; [| exact Hatt].
      destruct pre; discriminate.
Qed.

Lemma first_failing_image_aborts_witness :
  let w := world_without
             (fun e => match e with
                       | cosign_VerifyImageSignatures ref _ => ref =? "broken"
                       | _ => false
                       end) in
  let c := command "cosign.pub" "" "" false "" "" in
  fst (run w c ["signed"; "broken"])
  = Fail (cosignError_WrapError (errors_New "unavailable")) /\
  run w c (["signed"; "broken"] ++ ["never-reached"])
  = run w c ["signed"; "broken"].
Proof.
  intros w c. split; [reflexivity |].
  apply (proj1 (first_failing_image_aborts w c)
           ["signed"; "broken"] ["never-reached"]
           (cosignError_WrapError (errors_New "unavailable"))).
  - discriminate.
  - reflexivity.
Defined.

(** C8.  An invocation with an empty image list, or with an attachment
    kind other than the empty string and "sbom", fails with the usage
    error [flag.ErrHelp]; the final state is the initial one: nothing was
    called (no trust material loaded, no artifact evaluated), nothing is
    deferred, the receiver is untouched. *)
Theorem DoVerify_rejects_bad_arguments W c images :
  images = [] \/ (Attachment c <> "" /\ Attachment c <> "sbom") ->
  run W c images = (Fail flag_ErrHelp, start c).
Proof.
  intros H. rewrite run_unfold.
  destruct (accepted c images) eqn:Ha; [| reflexivity].
  apply accepted_true in Ha. destruct Ha as [Hi Hatt].
  destruct H as [H | [H1 H2]]; [contradiction |].
  destruct Hatt; contradiction.
Qed.

Lemma DoVerify_rejects_bad_arguments_witness :
  Attachment (command "" "" "" false "signature" "") <> "" /\
  run friendly (command "" "" "" false "signature" "") ["registry/image:tag"]
  = (Fail flag_ErrHelp, start (command "" "" "" false "signature" "")).
Proof.
  split; [discriminate |].
  apply (DoVerify_rejects_bad_arguments friendly
           (command "" "" "" false "signature" "") ["registry/image:tag"]).
  right. split; discriminate.
Defined.

(** C9, as the code has it.  With a TSA certificate chain path the
    invocation always fails, and it calls nothing but [c.Identities()]
    and [c.ClientOpts()]: no key source is resolved and no artifact is
    verified.  The error is the one of the first check that fails, in
    the order of the code: [flag.ErrHelp] when the arguments are
    rejected (nothing is called then); else the error of
    [c.Identities()], as it is, when there is no key reference and that
    call fails (nothing else is called); else the error of
    [c.ClientOpts] behind "constructing client options: " when that call
    fails; and the TSA error in every other case, that is, whenever the
    checks that come first pass. *)
Theorem TSACertChainPath_is_rejected W c images :
  TSACertChainPath c <> "" ->
  let r := run W c images in
  let identities := c_Identities (CertVerifyOptions c) in
  let clientOpts := c_ClientOpts (RegistryOptions c) in
  (exists e, fst r = Fail e) /\
  (forall e, In e (events r) -> e = identities \/ e = clientOpts) /\
  (images <> [] -> Attachment c = "sbom" \/ Attachment c = "" ->
   (forall en, In en (trace (snd r)) -> failure en = None) ->
   fst r = Fail TSA_not_supported) /\
  (accepted c images = false -> r = (Fail flag_ErrHelp, start c)) /\
  (accepted c images = true ->
   match (if KeyRef c =? "" then answer W [] identities else Ok [])
         : result (list cosign_Identity) with
   | Err e =>
       r = (Fail e,
            mkState (defaulted c)
                    [mkEntry (defaulted c) identities (Some e)] [])
   | Ok _ =>
       let asked := if KeyRef c =? ""
                    then [mkEntry (defaulted c) identities None] else [] in
       match answer W asked clientOpts with
       | Err e =>
           r = (Fail (fmt_Errorf "constructing client options: " e),
                mkState (defaulted c)
                        (asked ++ [mkEntry (defaulted c) clientOpts (Some e)])
                        [])
       | Ok _ =>
           r = (Fail TSA_not_supported,
                mkState (defaulted c)
                        (asked ++ [mkEntry (defaulted c) clientOpts None]) [])
       end
   end).
Proof.
  intros Htsa r identities clientOpts. subst r identities clientOpts.
  assert (Etsa : negb (TSACertChainPath (defaulted c) =? "") = true).
  { destruct (defaulted_fields c) as (_ & _ & _ & _ & _ & _ & -> & _).
    apply negb_true_iff, String.eqb_neq. exact Htsa. }
  assert (Eopts : CertVerifyOptions (defaulted c) = CertVerifyOptions c /\
                  RegistryOptions (defaulted c) = RegistryOptions c /\
                  KeyRef (defaulted c) = KeyRef c).
  { unfold defaulted. destruct (HashAlgorithm c =? 0)%Z; repeat split. }
  destruct Eopts as (Ecv & Ero & Ek).
  split; [| split; [| split; [| split]]].
  - rewrite run_unfold. destruct (accepted c images); [| simpl; eauto].
    unfold with_deferred, configure_and_verify, configure, loadIdentities,
      rejectTSACertChain, bind, Errorf, call, ret, fail.
    rewrite Etsa.
    destruct (KeyRef (defaulted c) =? "");
      repeat match goal with
        | |- context [answer ?W ?h ?e] => destruct (answer W h e)
        end; simpl; eauto.
  - intros e He. apply run_event_footprint in He.
    destruct (defaulted_fields c) as (_ & _ & _ & _ & _ & _ & Et & _).
    unfold run_calls, configure_calls in He. rewrite Et in He.
    destruct He as [[He | [? _]] | [? _]]; try contradiction.
    destruct e; simpl in He; try contradiction.
    + left. destruct He as [_ ->]. rewrite Ecv. reflexivity.
    + right. rewrite He, Ero. reflexivity.
  - intros Hi Hatt. rewrite run_unfold.
    rewrite (proj2 (accepted_true c images) (conj Hi Hatt)).
    unfold with_deferred, configure_and_verify, configure, loadIdentities,
      rejectTSACertChain, bind, Errorf, call, ret, fail.
    rewrite Etsa.
    destruct (KeyRef (defaulted c) =? "");
      repeat match goal with
        | |- context [answer ?W ?h ?e] => destruct (answer W h e)
        end; simpl; intros Hclean; try reflexivity;
      exfalso;
      match goal with
      | |- _ =>
          specialize (Hclean _ (or_introl eq_refl)); discriminate
      | |- _ =>
          specialize (Hclean _ (or_intror (or_introl eq_refl))); discriminate
      end.
  - intros Ha. rewrite run_unfold, Ha. reflexivity.
  - intros Ha. rewrite run_unfold, Ha.
    unfold with_deferred, configure_and_verify, configure, loadIdentities,
      rejectTSACertChain, bind, Errorf, call, ret, fail, run_deferred, log,
      start.
    rewrite Etsa, Ek, Ecv, Ero. simpl.
    destruct (KeyRef c =? ""); simpl;
      repeat match goal with
        | |- context [answer ?W ?h ?e] => destruct (answer W h e); simpl
        end; reflexivity.
Qed.

Lemma TSACertChainPath_is_rejected_witness :
  let c := command "" "" "" false "" "tsa-chain.pem" in
  TSACertChainPath c <> "" /\
  fst (run friendly c ["registry/image:tag"]) = Fail TSA_not_supported /\
  run (world_without is_Identities) c ["registry/image:tag"]
  = (Fail (errors_New "unavailable"),
     mkState (defaulted c)
             [mkEntry (defaulted c)
                      (c_Identities (CertVerifyOptions c))
                      (Some (errors_New "unavailable"))] []).
Proof.
  intros c. split; [discriminate |]. split.
  - apply (TSACertChainPath_is_rejected friendly c ["registry/image:tag"]).
    + discriminate.
    + discriminate.
    + right. reflexivity.
    + intros en [<- | [<- | []]]; reflexivity.
  - apply (TSACertChainPath_is_rejected (world_without is_Identities) c
             ["registry/image:tag"]).
    + discriminate.
    + reflexivity.
Defined.

(** C9 as the specification states it fails: other options do matter.
    With an unsupported attachment kind the error is the usage error,
    and with identity options that cannot be constructed it is theirs. *)
Lemma TSACertChainPath_error_depends_on_other_options :
  let c := command "" "" "" false "signature" "tsa-chain.pem" in
  let c' := command "" "" "" false "" "tsa-chain.pem" in
  TSACertChainPath c <> "" /\
  fst (run friendly c ["registry/image:tag"]) = Fail flag_ErrHelp /\
  fst (run friendly c ["registry/image:tag"]) <> Fail TSA_not_supported /\
  TSACertChainPath c' <> "" /\
  fst (run (world_without is_Identities) c' ["registry/image:tag"])
  = Fail (errors_New "unavailable").
Proof.
  intros c c'.
  split; [discriminate |]. split; [reflexivity |].
  split; [discriminate |]. split; [discriminate | reflexivity].
Qed.


(** C10.  [c.Identities()] is called only when [KeyRef] is empty, and in
    an invocation with a static key every call that is given the check
    options is given them with no identity at all: the configured
    certificate identities are not enforced in static-key mode. *)
Theorem identities_only_without_static_key W c images :
  let r := run W c images in
  (forall en o, In en (trace (snd r)) -> event en = c_Identities o ->
     KeyRef c = "") /\
  (KeyRef c <> "" ->
   forall en co, In en (trace (snd r)) ->
     check_opts_of (event en) = Some co -> co_Identities co = []).
Proof.
  intros r. subst r.
  destruct (defaulted_fields c) as (Ek & _).
  split.
  - intros en o Hin Hev. apply run_footprint in Hin.
    destruct Hin as [_ Hc]. rewrite Hev in Hc. footprint_at Hc.
    rewrite Ek in Hc. break. assumption.
  - intros Hk en co Hin Hco. apply run_footprint in Hin.
    destruct Hin as [_ Hc].
    destruct (event en); try discriminate; injection Hco as ->;
      footprint_at Hc; unfold resolved in Hc; rewrite ?Ek in Hc;
      break; subst; auto; contradiction.
Qed.

Lemma identities_only_without_static_key_witness :
  KeyRef (command "cosign.pub" "" "" false "" "") <> "" /\
  forall en co,
    In en (trace (snd (run friendly (command "cosign.pub" "" "" false "" "")
                           ["registry/image:tag"]))) ->
    check_opts_of (event en) = Some co -> co_Identities co = [].
Proof.
  split; [discriminate |].
  apply (identities_only_without_static_key friendly
           (command "cosign.pub" "" "" false "" "") ["registry/image:tag"]).
  discriminate.
Defined.

(* ================================================================== *)
(** * Further properties of the code *)

(** X1.  Every error is fatal but one.  When a call of an imported
    function fails (the base64 decoding of line 289 apart, whose error
    the code looks at and drops), the invocation makes no further call:
    the failed call is followed in the trace only by the deferred
    [Close], every call before it succeeded, and the invocation returns
    the error of that call, as it is, behind one [fmt.Errorf] prefix or
    wrapped once by [cosignError.WrapError]. *)
Theorem failed_call_ends_the_invocation W c images en e :
  In en (trace (snd (run W c images))) ->
  failure en = Some e ->
  is_base64 (event en) = false ->
  (exists e', fst (run W c images) = Fail e' /\ wraps e' e) /\
  exists pre closing,
    trace (snd (run W c images)) = pre ++ en :: closing /\
    Forall (fun x => failure x = None \/ is_base64 (event x) = true) pre /\
    Forall (fun x => closes (event x) = true /\ failure x = None) closing.
Proof.
  intros Hin Hf Hb.
  destruct (accepted c images) eqn:Ha;
    [| rewrite run_unfold, Ha in Hin; contradiction].
  destruct (run_failstop W c images Ha) as (o & es & ds & E & Hs & _ & D).
  rewrite E in *. simpl in *.
  apply in_app_iff in Hin. destruct Hin as [Hin | Hin].
  2:{ apply in_map_iff in Hin. destruct Hin as (d & <- & _). discriminate. }
  apply in_map_iff in Hin. destruct Hin as ([ev f] & <- & Hx).
  simpl in Hf, Hb. subst f.
  assert (Hnot : ~ recovered (ev, Some e)).
  { intros [H | H]; simpl in H; congruence. }
  assert (Hall : forall l, Forall recovered l -> ~ In (ev, Some e) l).
  { intros l Hl Hi. rewrite Forall_forall in Hl. apply Hnot, Hl, Hi. }
  destruct o as [a | e' | msg]; simpl in Hs;
    try (exfalso; eapply Hall; eassumption).
  destruct Hs as [[Hs _] | (pre & ev0 & e0 & -> & Hp & Hb0 & Hw)];
    [exfalso; eapply Hall; eassumption |].
  apply in_app_iff in Hx. destruct Hx as [Hx | [Hx | []]];
    [exfalso; eapply Hall; eassumption |].
  injection Hx as -> ->.
  split; [exists e'; auto |].
  exists (map (stamp (defaulted c)) pre),
         (map (fun d => mkEntry (defaulted c) d None) ds).
  split; [| split].
  - rewrite map_app, <- app_assoc. reflexivity.
  - apply recovered_stamp, Hp.
  - eapply closing_entries, D.
Qed.

(** X2.  Where an error comes from.  An invocation that returns an
    error returns [flag.ErrHelp] because its arguments are rejected
    (without having called anything), the error of line 128 with the
    TSA path set, the error of line 300 when the certificate of
    [CertRef] is the key source, or the error of a call that failed
    during the invocation (wrapped at most once); and an invocation that
    returns [nil] or panics has seen no call fail but, possibly, the
    base64 decoding. *)
Theorem returned_error_has_a_source W c images :
  let r := run W c images in
  (forall e', fst r = Fail e' ->
     (e' = flag_ErrHelp /\ accepted c images = false /\
      trace (snd r) = []) \/
     (e' = TSA_not_supported /\ TSACertChainPath c <> "") \/
     (e' = no_certs_found /\
      KeyRef c = "" /\ Sk c = false /\ CertRef c <> "") \/
     exists en e, In en (trace (snd r)) /\ failure en = Some e /\
                  is_base64 (event en) = false /\ wraps e' e) /\
  ((forall e', fst r <> Fail e') ->
   forall en, In en (trace (snd r)) ->
     failure en = None \/ is_base64 (event en) = true).
Proof.
  intros r. subst r.
  destruct (accepted c images) eqn:Ha.
  2:{ rewrite run_unfold, Ha. simpl. split.
      - intros e' E. injection E as <-. auto.
      - intros _ en []. }
  destruct (run_failstop W c images Ha) as (o & es & ds & E & Hs & _ & D).
  destruct (defaulted_fields c) as (Ek & Es & Er & _ & _ & _ & Et & _).
  rewrite E. simpl. split.
  - intros e' ->. simpl in Hs. rewrite Ek, Es, Er, Et in Hs.
    destruct Hs as [[_ [Hm | Hm]] | (pre & ev & e & -> & _ & Hb & Hw)]; auto.
    right. right. right.
    exists (mkEntry (defaulted c) ev (Some e)), e. simpl.
    repeat split; auto.
    rewrite map_app, in_app_iff. left. rewrite in_app_iff. right.
    left. reflexivity.
  - intros Ho en Hin.
    assert (Hes : Forall recovered es).
    { destruct o as [a | e' | msg]; simpl in Hs; auto.
      exfalso. apply (Ho e'). reflexivity. }
    apply in_app_iff in Hin. destruct Hin as [Hin | Hin].
    + pose proof (recovered_stamp (defaulted c) es Hes) as F.
      rewrite Forall_forall in F. apply F, Hin.
    + apply in_map_iff in Hin. destruct Hin as (d & <- & _). auto.
Qed.

Lemma failed_call_ends_the_invocation_witness :
  let c := command "cosign.pub" "" "" false "" "" in
  let r := run (world_without is_GetCTLogPubs) c ["registry/image:tag"] in
  let en := mkEntry (defaulted c) cosign_GetCTLogPubs
                    (Some (errors_New "unavailable")) in
  In en (trace (snd r)) /\
  exists e', fst r = Fail e' /\ wraps e' (errors_New "unavailable").
Proof.
  intros c r en.
  assert (Hin : In en (trace (snd r))).
  { right. right. left. reflexivity. }
  split; [exact Hin |].
  apply (failed_call_ends_the_invocation (world_without is_GetCTLogPubs) c
           ["registry/image:tag"] en (errors_New "unavailable") Hin
           eq_refl eq_refl).
Defined.

(** X3.  The code panics in one situation only.  An invocation that
    panics is a keyless one with a certificate chain supplied; the panic
    is the index-out-of-range of [chain[len(chain)-1]] (line 153); the
    last thing that happened is the successful parse of the chain file
    by [cryptoutils.LoadCertificatesFromPEM], and that parse returned no
    certificate at all.  Nothing is deferred at that point. *)
Theorem panic_only_on_empty_chain W c images msg :
  fst (run W c images) = Panic msg ->
  KeyRef c = "" /\ Sk c = false /\ CertChain c <> "" /\
  msg = index_out_of_range /\
  exists pre pems,
    trace (snd (run W c images)) =
      pre ++ [mkEntry (defaulted c)
                      (cryptoutils_LoadCertificatesFromPEM pems) None] /\
    answer W pre (cryptoutils_LoadCertificatesFromPEM pems) = Ok [].
Proof.
  intros E.
  destruct (accepted c images) eqn:Ha;
    [| rewrite run_unfold, Ha in E; discriminate].
  rewrite run_unfold, Ha in *. unfold with_deferred in *.
  destruct (configure_and_verify W (defaulted c) images (start (defaulted c)))
    as [o s'] eqn:Ecav.
  simpl in E. subst o.
  unfold configure_and_verify in Ecav. apply bind_Panic in Ecav.
  destruct Ecav as [E1 | (r & s1 & _ & E2)].
  2:{ exfalso. revert E2. apply calm_not_Panic, verifyImages_calm. }
  apply configure_Panic in E1. destruct E1 as (co & s1 & Er & C & D).
  apply establishRoots_Panic in Er.
  destruct Er as (Hk & Hs & Hc & -> & pre & pems & -> & Hans).
  simpl in C, D.
  destruct (defaulted_fields c) as (Ek & Es & _ & Ec & _).
  rewrite Ek in Hk. rewrite Es in Hs. rewrite Ec in Hc.
  repeat (split; [assumption || reflexivity |]).
  exists pre, pems. split; [| exact Hans].
  unfold run_deferred. simpl. rewrite C, D. simpl.
  apply app_nil_r.
Qed.

Lemma panic_only_on_empty_chain_witness :
  let c := command "" "" "empty.pem" false "" "" in
  fst (run world_with_empty_chain c ["image"]) = Panic index_out_of_range /\
  CertChain c <> "" /\
  exists pre pems,
    trace (snd (run world_with_empty_chain c ["image"])) =
      pre ++ [mkEntry (defaulted c)
                      (cryptoutils_LoadCertificatesFromPEM pems) None] /\
    answer world_with_empty_chain pre
           (cryptoutils_LoadCertificatesFromPEM pems) = Ok [].
Proof.
  intros c.
  assert (E : fst (run world_with_empty_chain c ["image"])
              = Panic index_out_of_range) by reflexivity.
  split; [exact E |].
  destruct (panic_only_on_empty_chain world_with_empty_chain c ["image"]
              index_out_of_range E) as (_ & _ & Hc & _ & H).
  exact (conj Hc H).
Defined.


(** X5.  The images are gone through in the order given, one
    verification each, all with the same check options.  The passes of
    the loop that an invocation has started are a prefix of [images]
    (each pass starts by handing the image to
    [VerifyLocalImageSignatures] or to [name.ParseReference]); every
    verification is given the same check options, and there is at most
    one of them per pass started; when the invocation returns [nil],
    every image has had its pass, in order, and there were exactly as
    many verifications as images. *)
Theorem images_are_verified_in_order W c images :
  let r := run W c images in
  exists co n,
    checked (events r) = repeat co n /\
    (n <= length (started (events r)))%nat /\
    (exists rest, images = started (events r) ++ rest) /\
    (fst r = Return tt ->
     started (events r) = images /\ n = length images).
Proof.
  intros r. subst r.
  destruct (accepted c images) eqn:Ha.
  2:{ rewrite run_unfold, Ha. unfold events. simpl.
      exists (newCheckOpts c [] []), 0%nat.
      repeat split; auto; try discriminate. exists images. reflexivity. }
  destruct (run_produces W c images _ Ha
              (configure_and_verify_looping W (defaulted c) images))
    as (o & es & ds & E & (co & rest & n & S1 & C1 & L1 & R1) & D).
  rewrite E. unfold events. simpl.
  destruct (started_events (defaulted c) es ds D) as [-> ->].
  exists co, n. split; [exact C1 |]. split; [exact L1 |].
  split; [exists rest; exact S1 |].
  intros Ho. destruct (R1 tt Ho) as [-> ->].
  rewrite app_nil_r in S1. rewrite <- S1. auto.
Qed.

(** X6.  The check options mirror the command.  Whatever call of an
    invocation is given check options (the two certificate validations
    and the two artifact verifications), the options carry the
    annotations, the five GitHub-workflow constraints, the signature and
    payload references and the [IgnoreSCT], [Offline] and [IgnoreTlog]
    flags of the command as the caller set them, and the simple claim
    verifier exactly when [CheckClaims] is set.  The attachment kind
    given to [GetAttachedImageRef] is the command's, and the registry
    options given to it are those inside the check options of the
    verifications. *)
Theorem check_options_mirror_the_command W c images :
  let r := run W c images in
  (forall e co, In e (events r) -> check_opts_of e = Some co ->
     mirrors c co) /\
  (forall ref attachment opts e co,
     In (sign_GetAttachedImageRef ref attachment opts) (events r) ->
     In e (events r) -> verified_with e = Some co ->
     attachment = Attachment c /\ co_RegistryClientOpts co = opts).
Proof.
  intros r. subst r. destruct (run_hands_over W c images) as [opts H].
  split.
  - intros e co Hin. apply (H e Hin).
  - intros ref a o e co Hg Hin Hv.
    destruct (H _ Hg) as (_ & _ & Ha). destruct (Ha ref a o eq_refl) as [-> ->].
    destruct (H _ Hin) as (_ & Hc & _). split; [reflexivity |].
    apply (Hc co Hv).
Qed.



(** X8.  The opt-outs are honoured.  With [IgnoreTlog] set an invocation
    makes no call to Rekor at all (no client is created, no public key is
    fetched); with [IgnoreSCT] set the CT-log public keys are not
    fetched; and a Rekor client is only ever created for the configured,
    non-empty [RekorURL]. *)
Theorem opt_outs_are_honoured W c images :
  let r := run W c images in
  (IgnoreTlog c = true ->
   ~ In cosign_GetRekorPubs (events r) /\
   forall url, ~ In (rekor_NewClient url) (events r)) /\
  (IgnoreSCT c = true -> ~ In cosign_GetCTLogPubs (events r)) /\
  (forall url, In (rekor_NewClient url) (events r) ->
     url = RekorURL c /\ url <> "").
Proof.
  intros r. subst r.
  destruct (defaulted_fields c) as (_ & _ & _ & _ & Et & Ei & _ & Eu & _).
  split; [| split].
  - intros Ht. split; [| intros url]; intros He;
      apply run_event_footprint in He; footprint_at He;
      rewrite ?Et in He; break; congruence.
  - intros Hi He. apply run_event_footprint in He. footprint_at He.
    rewrite ?Ei in He. break; congruence.
  - intros url He. apply run_event_footprint in He. footprint_at He.
    rewrite ?Eu in He. break; try contradiction. subst. auto.
Qed.

(** X9.  Where the certificates come from.  Fulcio is asked for its
    roots and intermediates only in a verification without key and
    without token, and only when no certificate chain is supplied; a
    chain file is parsed only when one is supplied; and the only files
    or URLs loaded are the ones named by [CertChain] and [CertRef]. *)
Theorem supplied_chain_replaces_fulcio W c images :
  let r := run W c images in
  (In fulcio_GetRoots (events r) \/ In fulcio_GetIntermediates (events r) ->
   KeyRef c = "" /\ Sk c = false /\ CertChain c = "") /\
  (forall pems, In (cryptoutils_LoadCertificatesFromPEM pems) (events r) ->
     KeyRef c = "" /\ Sk c = false /\ CertChain c <> "") /\
  (forall path, In (blob_LoadFileOrURL path) (events r) ->
     KeyRef c = "" /\ Sk c = false /\ path <> "" /\
     (path = CertChain c \/ path = CertRef c)).
Proof.
  intros r. subst r.
  destruct (defaulted_fields c) as (Ek & Es & Er & Ec & _).
  split; [| split].
  - intros [He | He]; apply run_event_footprint in He; footprint_at He;
      rewrite ?Ek, ?Es, ?Ec in He; break; auto; contradiction.
  - intros pems He. apply run_event_footprint in He. footprint_at He.
    rewrite ?Ek, ?Es, ?Ec in He. break; auto; contradiction.
  - intros path He. apply run_event_footprint in He. footprint_at He.
    rewrite ?Ek, ?Es, ?Ec, ?Er in He.
    break; try contradiction; subst; auto 6.
Qed.

(** X10.  [LocalImage] selects the kind of verification.  With the flag
    set, an image is verified from the local layout and the registry is
    not touched for it: no reference is parsed, no attachment is
    resolved, no remote signature is verified.  Without it, no local
    verification is made.  A reference is always parsed with the
    command's [NameOptions], and the attachment asked for is the
    command's, which is [sbom] or none. *)
Theorem LocalImage_selects_the_verification W c images :
  let r := run W c images in
  (forall e, In e (events r) -> loop_call e = true ->
     match e with
     | cosign_VerifyLocalImageSignatures _ _ => LocalImage c = true
     | _ => LocalImage c = false
     end) /\
  (forall img opts, In (name_ParseReference img opts) (events r) ->
     opts = NameOptions c) /\
  (forall ref attachment opts,
     In (sign_GetAttachedImageRef ref attachment opts) (events r) ->
     attachment = Attachment c /\
     (attachment = "sbom" \/ attachment = "")).
Proof.
  intros r. subst r.
  destruct (defaulted_loop_fields c) as (El & En & Ea).
  split; [| split].
  - intros e He Hl. apply run_event_footprint in He.
    destruct e; try discriminate; footprint_at He; rewrite ?El in He;
      break; auto; contradiction.
  - intros img opts He. apply run_event_footprint in He. footprint_at He.
    rewrite ?En in He. break; auto; contradiction.
  - intros ref a opts He.
    assert (Hacc : accepted c images = true).
    { destruct (accepted c images) eqn:Ha; [reflexivity |].
      unfold events in He. rewrite run_unfold, Ha in He. destruct He. }
    apply accepted_true in Hacc. destruct Hacc as [_ Hatt].
    apply run_event_footprint in He. footprint_at He.
    rewrite ?Ea in He. break; try contradiction; subst; auto.
Qed.

(** X11.  The identity options are looked at before anything else.  An
    invocation whose arguments are accepted begins, when no key
    reference is given (with a hardware token as well), by calling
    [c.Identities()], and with a key reference by calling
    [c.ClientOpts]; any other call comes after.  If that first call
    fails, nothing else is called and the error returned is the one of
    [c.Identities()] as it is, respectively the one of [c.ClientOpts]
    behind the prefix [constructing client options: ]. *)
Theorem invocation_opens_with_the_identities W c images :
  accepted c images = true ->
  exists f rest,
    trace (snd (run W c images))
    = mkEntry (defaulted c) (opening_call c) f :: rest /\
    forall err, f = Some err ->
      rest = [] /\ fst (run W c images) = Fail (opening_error c err).
Proof.
  intros Ha.
  destruct (run_produces W c images _ Ha
              (configure_and_verify_opening W (defaulted c) images))
    as (o & es & ds & E & f & rest & -> & Hf).
  destruct (opening_defaulted c) as [Eo Ee].
  rewrite E. simpl. rewrite Eo.
  exists f. eexists. split; [reflexivity |].
  intros err Hs. destruct (Hf err Hs) as (-> & -> & ->).
  rewrite Ee. auto.
Qed.

Lemma invocation_opens_with_the_identities_witness :
  let c := command "" "" "" true "" "" in
  let W := world_without is_Identities in
  accepted c ["registry/image:tag"] = true /\
  exists f rest,
    trace (snd (run W c ["registry/image:tag"]))
    = mkEntry (defaulted c) (opening_call c) f :: rest /\
    forall err, f = Some err ->
      rest = [] /\
      fst (run W c ["registry/image:tag"]) = Fail (opening_error c err).
Proof.
  intros c W. split; [reflexivity |].
  apply (invocation_opens_with_the_identities W c ["registry/image:tag"]).
  reflexivity.
Defined.

(** X12.  How often the roots of trust are resolved.  An invocation
    resolves a root of trust (fetches the Fulcio roots or parses the
    supplied certificate chain) never with a key reference or a hardware
    token, once in plain keyless verification, and twice when the
    certificate of [CertRef] is the key source: once at lines 146-172 and
    once more inside the [switch] at lines 205-234.  An invocation that
    returns [nil] has made exactly that many resolutions, any other at
    most that many. *)
Theorem roots_of_trust_resolved_twice_for_a_certificate W c images :
  let r := run W c images in
  (resolutions (events r) <= roots_resolutions c)%nat /\
  (fst r = Return tt -> resolutions (events r) = roots_resolutions c) /\
  (KeyRef c = "" -> Sk c = false -> CertRef c <> "" ->
   roots_resolutions c = 2%nat).
Proof.
  intros r. subst r. split; [| split].
  3:{ intros Hk Hs Hr. unfold roots_resolutions, keylessVerification.
      rewrite Hk, Hs. simpl.
      destruct (CertRef c =? "") eqn:E; [| reflexivity].
      apply String.eqb_eq in E. contradiction. }
  all: destruct (accepted c images) eqn:Ha;
    [| rewrite run_unfold, Ha; unfold events; simpl;
       try (intros; discriminate); unfold resolutions; simpl; lia].
  all: destruct (run_produces W c images _ Ha
              (produces_and _ _ _
                 (configure_and_verify_tally W (defaulted c) images)
                 (configure_and_verify_footprint W (defaulted c) images)))
    as (o & es & ds & E & [L R] & _ & D & _);
    rewrite E; unfold events; simpl;
    rewrite map_app, !map_map; simpl; rewrite map_id;
    change (fun x : Call => fst x) with (@fst Event (option error));
    rewrite resolutions_app,
      (resolutions_none (fun d => run_calls (defaulted c) d /\ closes d = true)
                        ds);
    try exact D;
    try (intros e [_ He]; destruct e; try discriminate; reflexivity);
    rewrite roots_resolutions_defaulted in *; rewrite Nat.add_0_r.
  - exact L.
  - intros Ho. exact (R tt Ho).
Qed.

(** ** The index listing command *)

Lemma fold_left_append {A B} (f : A -> B) l : forall init,
  fold_left (fun data a => data ++ [f a]) l init = init ++ map f l.
Proof.
  induction l as [| a l IH]; intros init; simpl.
  - symmetry. apply app_nil_r.
  - rewrite IH, <- app_assoc. reflexivity.
Qed.

(** X13.  [RunIndexList] lists every configured index, in order.  The
    indexes file is looked up under the home directory, at
    [defaultFalcoctlPath] and then [defaultIndexesFilename].  If it
    cannot be read, the error of [index.NewIndexConfig] is returned as it
    is and nothing is rendered.  Otherwise the method returns [nil]
    (whatever the rendering does) after rendering one table with a
    header: the first row is NAME, URL, ADDED, UPDATED, and then comes
    one row per index, in the order of the file, with the name, the URL
    and the two timestamps of that index; every row has four cells and
    the [n]-th index is on row [n + 1]. *)
Theorem RunIndexList_lists_every_index env :
  let indexesFile :=
    filepath_Join env
      (filepath_Join env (homedir_Get env) (defaultFalcoctlPath env))
      (defaultIndexesFilename env) in
  match index_NewIndexConfig env indexesFile with
  | Err err => RunIndexList env = (None, Some err)
  | Ok indexConfig =>
      exists table,
        RunIndexList env = (Some table, None) /\
        HasHeader table = true /\ Separator table = tab /\
        Data table
        = ["NAME"; "URL"; "ADDED"; "UPDATED"]
          :: map (fun conf => [Name conf; URL conf; AddedTimestamp conf;
                               UpdatedTimestamp conf])
                 (Configs indexConfig) /\
        length (Data table) = S (length (Configs indexConfig)) /\
        Forall (fun row => length row = 4%nat) (Data table) /\
        forall n conf, nth_error (Configs indexConfig) n = Some conf ->
          nth_error (Data table) (S n)
          = Some [Name conf; URL conf; AddedTimestamp conf;
                  UpdatedTimestamp conf]
  end.
Proof.
  intros indexesFile. unfold RunIndexList. fold indexesFile.
  destruct (index_NewIndexConfig env indexesFile) as [indexConfig | err];
    [| reflexivity].
  eexists. split; [reflexivity |]. simpl.
  rewrite (fold_left_append
             (fun conf => [Name conf; URL conf; AddedTimestamp conf;
                           UpdatedTimestamp conf])). simpl.
  split; [reflexivity |]. split; [reflexivity |]. split; [reflexivity |].
  split; [rewrite length_map; reflexivity |]. split.
  - constructor; [reflexivity |]. apply Forall_map, Forall_forall.
    intros conf _. reflexivity.
  - intros n conf Hn. simpl. rewrite nth_error_map, Hn. reflexivity.
Qed.
